(** * Operator engine of the structure-learning search (learning/operators/operators.hpp)

    A shallow embedding of the operator taxonomy, the tabu set, the local score
    cache, the two operator sets and the operator pool, followed by the
    properties established about them.

    Conventions.
    - A C++ [double] is a binary64 primitive float; [a > b] and [a >= b] are the
      IEEE comparisons (false as soon as an operand is NaN).
    - A node index, a loop counter and a linearized matrix index are [nat]
      (the source's [int] values are non-negative and far below 2^31 there);
      [max_indegree] and parent counts are [Z] because the source tests the sign.
    - An Eigen dense matrix is its column-major coefficient array together with
      its number of rows: coefficient (i, j) lives at offset [i + j * rows].
    - A constructor that allocates an Eigen vector or matrix without filling it
      receives the previous content of the storage as an explicit argument.
    - [std::shared_ptr<Operator>] is [option Operator]; [nullptr] is [None]. *)

From Stdlib Require Import ZArith String List Bool Lia Floats Permutation.
Import ListNotations.

Set Implicit Arguments.

(** ** Doubles *)

Definition double : Set := float.

(** [std::numeric_limits<double>::lowest()], the most negative finite double. *)
Definition lowest : double := Eval cbv in (PrimFloat.opp 0x1.fffffffffffffp+1023%float).

(** C++ [a > b] on doubles. *)
Definition dgt (a b : double) : bool := PrimFloat.ltb b a.

(** C++ [a >= b] on doubles. *)
Definition dge (a b : double) : bool := PrimFloat.leb b a.

(** C++ unary minus on doubles. *)
Definition dneg (a : double) : double := PrimFloat.opp a.

Definition is_nan (a : double) : bool := PrimFloat.is_nan a.

(** ** Factor types *)

(** Modelled from the spec: [factors::FactorType], whose header is not among the
    sources at hand.  The spec describes it as a discrete tag on a node with a
    binary [opposite]; the two tags stand for the two conditional-distribution
    families of a semiparametric network.  [to_Z] is the integer the tag converts
    to when [HashOperator] multiplies by it. *)
Module FactorType.

Inductive t : Set := LinearGaussianCPD | CKDE.

Definition opposite (ft : t) : t :=
  match ft with
  | LinearGaussianCPD => CKDE
  | CKDE => LinearGaussianCPD
  end.

Definition eqb (a b : t) : bool :=
  match a, b with
  | LinearGaussianCPD, LinearGaussianCPD => true
  | CKDE, CKDE => true
  | _, _ => false
  end.

Definition to_Z (ft : t) : Z :=
  match ft with
  | LinearGaussianCPD => 0
  | CKDE => 1
  end.

End FactorType.

(** ** Operator kinds *)

Module OperatorType.

Inductive Value : Set := ADD_ARC | REMOVE_ARC | FLIP_ARC | CHANGE_NODE_TYPE.

(** The [uint8_t] behind the enumerator. *)
Definition to_Z (v : Value) : Z :=
  match v with
  | ADD_ARC => 0
  | REMOVE_ARC => 1
  | FLIP_ARC => 2
  | CHANGE_NODE_TYPE => 3
  end.

(** [OperatorType::operator==]. *)
Definition eqb (a b : Value) : bool := Z.eqb (to_Z a) (to_Z b).

End OperatorType.

(** ** Operators

    The class hierarchy [Operator <- ArcOperator <- {AddArc, RemoveArc, FlipArc}]
    and [Operator <- ChangeNodeType] as one variant; every class stores its
    [m_delta], the arc classes [m_source] and [m_target], [ChangeNodeType]
    [m_node] and [m_new_node_type]. *)

Inductive Operator : Set :=
| AddArc (source target : string) (delta : double)
| RemoveArc (source target : string) (delta : double)
| FlipArc (source target : string) (delta : double)
| ChangeNodeType (node : string) (new_node_type : FactorType.t) (delta : double).

(** [Operator::delta]. *)
Definition delta (op : Operator) : double :=
  match op with
  | AddArc _ _ d | RemoveArc _ _ d | FlipArc _ _ d | ChangeNodeType _ _ d => d
  end.

(** [Operator::type], fixed by each class's constructor. *)
Definition type (op : Operator) : OperatorType.Value :=
  match op with
  | AddArc _ _ _ => OperatorType.ADD_ARC
  | RemoveArc _ _ _ => OperatorType.REMOVE_ARC
  | FlipArc _ _ _ => OperatorType.FLIP_ARC
  | ChangeNodeType _ _ _ => OperatorType.CHANGE_NODE_TYPE
  end.

(** Modelled from the spec: [AddArc::opposite], which the header only declares;
    the spec gives [opposite(AddArc s->t, D) = RemoveArc s->t, -D]. *)
Definition AddArc_opposite (source target : string) (d : double) : Operator :=
  RemoveArc source target (dneg d).

(** [RemoveArc::opposite]. *)
Definition RemoveArc_opposite (source target : string) (d : double) : Operator :=
  AddArc source target (dneg d).

(** [FlipArc::opposite]. *)
Definition FlipArc_opposite (source target : string) (d : double) : Operator :=
  FlipArc target source (dneg d).

(** [ChangeNodeType::opposite]. *)
Definition ChangeNodeType_opposite (node : string) (ty : FactorType.t) (d : double) : Operator :=
  ChangeNodeType node (FactorType.opposite ty) (dneg d).

(** The virtual call [op->opposite()]. *)
Definition opposite (op : Operator) : Operator :=
  match op with
  | AddArc s t d => AddArc_opposite s t d
  | RemoveArc s t d => RemoveArc_opposite s t d
  | FlipArc s t d => FlipArc_opposite s t d
  | ChangeNodeType n ty d => ChangeNodeType_opposite n ty d
  end.

(** ** Hashing and equality used by the tabu set *)

(** A [std::size_t] is 64 bits wide. *)
Definition size_t_modulus : Z := 2 ^ 64.
Definition wrap_size_t (z : Z) : Z := z mod size_t_modulus.

(** [HashOperator::operator()].  [hasher] is [std::hash<std::string>], an
    implementation-defined function into [size_t]. *)
Definition HashOperator (hasher : string -> Z) (op : Operator) : Z :=
  match op with
  | AddArc s t _ | RemoveArc s t _ | FlipArc s t _ =>
      Z.lxor (wrap_size_t (Z.shiftl (hasher s) (OperatorType.to_Z (type op) + 1)))
             (hasher t)
  | ChangeNodeType n ty _ =>
      wrap_size_t (hasher n * FactorType.to_Z ty)
  end.

(** The downcasts of [OperatorPtrEqual]: the fields read after the kind test. *)
Definition arc_fields (op : Operator) : option (string * string) :=
  match op with
  | AddArc s t _ | RemoveArc s t _ | FlipArc s t _ => Some (s, t)
  | ChangeNodeType _ _ _ => None
  end.

Definition node_fields (op : Operator) : option (string * FactorType.t) :=
  match op with
  | ChangeNodeType n ty _ => Some (n, ty)
  | _ => None
  end.

(** [OperatorPtrEqual::operator()]. *)
Definition OperatorPtrEqual (lhs rhs : Operator) : bool :=
  if negb (OperatorType.eqb (type lhs) (type rhs)) then false
  else
    match lhs, rhs with
    | (AddArc ls lt _ | RemoveArc ls lt _ | FlipArc ls lt _),
      (AddArc rs rt _ | RemoveArc rs rt _ | FlipArc rs rt _) =>
        if String.eqb ls rs && String.eqb lt rt then true else false
    | ChangeNodeType ln lty _, ChangeNodeType rn rty _ =>
        if String.eqb ln rn && FactorType.eqb lty rty then true else false
    | _, _ => false
    end.

(** ** Tabu set

    [std::unordered_map<Operator*, shared_ptr<Operator>, HashOperator,
    OperatorPtrEqual>]: the keys are compared with [OperatorPtrEqual], and
    [insert] leaves the map alone when an equal key is present.  The hash only
    selects the bucket; keys that [OperatorPtrEqual] identifies hash alike
    (shown below), so a lookup finds a key exactly when an equal one
    is stored. *)
Module OperatorTabuSet.

Definition t : Set := list Operator.

Definition empty_set : t := [].

Definition contains (m : t) (op : Operator) : bool :=
  existsb (fun k => OperatorPtrEqual k op) m.

Definition insert (op : Operator) (m : t) : t :=
  if contains m op then m else op :: m.

Definition clear (m : t) : t := [].

Definition empty (m : t) : bool :=
  match m with [] => true | _ => false end.

End OperatorTabuSet.

(** ** Dense storage *)

Section Dense.

Variable A : Type.

(** Store [v] at offset [k]; Eigen does not define a store past the end, the
    model leaves the storage as it is. *)
Fixpoint assign (l : list A) (k : nat) (v : A) : list A :=
  match l, k with
  | [], _ => []
  | _ :: r, O => v :: r
  | x :: r, S k' => x :: assign r k' v
  end.

(** A dynamic Eigen matrix: number of rows and column-major coefficients. *)
Record Matrix : Type := { rows : nat; coeffs : list A }.

Definition offset (m : Matrix) (i j : nat) : nat := i + j * rows m.

(** [m(i, j)]; [d] stands for what a read past the end would give. *)
Definition coeff (d : A) (m : Matrix) (i j : nat) : A := nth (offset m i j) (coeffs m) d.

(** [m(i, j) = v]. *)
Definition set_coeff (m : Matrix) (i j : nat) (v : A) : Matrix :=
  {| rows := rows m; coeffs := assign (coeffs m) (offset m i j) v |}.

(** The last element, [*(l.end() - 1)], when there is one. *)
Definition last_opt (l : list A) : option A :=
  match rev l with [] => None | x :: _ => Some x end.

End Dense.

(** Position of the first occurrence, as [std::find] returns it. *)
Fixpoint find_pos (x : nat) (l : list nat) : option nat :=
  match l with
  | [] => None
  | y :: r => if Nat.eqb y x then Some O else option_map S (find_pos x r)
  end.

(** [std::iter_swap(std::find(l.begin(), l.end(), x), l.end() - 1)].  When [x]
    does not occur the source swaps through the end iterator, which C++ leaves
    undefined; the model returns [l] unchanged. *)
Definition swap_to_back (x : nat) (l : list nat) : list nat :=
  match find_pos x l, last_opt l with
  | Some p, Some z => assign (assign l p z) (length l - 1) x
  | _, _ => l
  end.

(** The iterator range [l.begin(), l.end() - 1). *)
Definition but_last (l : list nat) : list nat := firstn (length l - 1) l.

(** ** The model and the score: capability sets of the external collaborators *)

(** Modelled from the spec: the graph capability set of the Bayesian network
    classes (models/BayesianNetwork.hpp is not among the sources at hand).  A
    model knows its nodes, their names, the ordered parent list and the factor
    type of each node; whether an arc may be added or flipped is decided by the
    model class from the current parent lists. *)
Record Model : Type := {
  num_nodes : nat;
  name : nat -> string;
  index : string -> nat;
  parent_indices : nat -> list nat;
  node_type : nat -> FactorType.t;
  add_legal : (nat -> list nat) -> nat -> nat -> bool;
  flip_legal : (nat -> list nat) -> nat -> nat -> bool
}.

(** Modelled from the spec: [num_parents(i)], the number of parents of node [i]. *)
Definition num_parents (m : Model) (i : nat) : Z := Z.of_nat (length (parent_indices m i)).

(** Modelled from the spec: [has_edge(s, t)], the arc [s -> t] exists, that is
    [s] is among the parents of [t]. *)
Definition has_edge (m : Model) (s t : nat) : bool := existsb (Nat.eqb s) (parent_indices m t).

(** Modelled from the spec: [can_add_edge(s, t)], adding [s -> t] would not
    violate acyclicity or a constraint of the model class. *)
Definition can_add_edge (m : Model) (s t : nat) : bool := add_legal m (parent_indices m) s t.

(** Modelled from the spec: [can_flip_edge(s, t)], the same for reversing [s -> t]. *)
Definition can_flip_edge (m : Model) (s t : nat) : bool := flip_legal m (parent_indices m) s t.

Definition with_parents (m : Model) (p : nat -> list nat) : Model :=
  {| num_nodes := num_nodes m; name := name m; index := index m;
     parent_indices := p; node_type := node_type m;
     add_legal := add_legal m; flip_legal := flip_legal m |}.

(** Modelled from the spec: [add_edge(s, t)], [s] becomes a parent of [t]. *)
Definition add_edge (m : Model) (s t : nat) : Model :=
  with_parents m (fun v => if Nat.eqb v t then parent_indices m t ++ [s] else parent_indices m v).

(** Modelled from the spec: [remove_edge(s, t)], [s] is no longer a parent of [t]. *)
Definition remove_edge (m : Model) (s t : nat) : Model :=
  with_parents m (fun v => if Nat.eqb v t
                           then filter (fun x => negb (Nat.eqb x s)) (parent_indices m t)
                           else parent_indices m v).

(** Modelled from the spec: [set_node_type(i, ty)]. *)
Definition set_node_type (m : Model) (i : nat) (ty : FactorType.t) : Model :=
  {| num_nodes := num_nodes m; name := name m; index := index m;
     parent_indices := parent_indices m;
     node_type := fun v => if Nat.eqb v i then ty else node_type m v;
     add_legal := add_legal m; flip_legal := flip_legal m |}.

(** The virtual call [op->apply(m)]; the arc classes address the nodes by name. *)
Definition apply (op : Operator) (m : Model) : Model :=
  match op with
  | AddArc s t _ => add_edge m (index m s) (index m t)
  | RemoveArc s t _ => remove_edge m (index m s) (index m t)
  | FlipArc s t _ => add_edge (remove_edge m (index m s) (index m t)) (index m t) (index m s)
  | ChangeNodeType n ty _ => set_node_type m (index m n) ty
  end.

(** The score capability set: the three [local_score] overloads the operator
    sets call on their [Score] template argument. *)
Record Score : Type := {
  (** [score.local_score(model, i)]: node [i] with its current parents. *)
  local_score_node : Model -> nat -> double;
  (** [score.local_score(model, i, begin, end)]: node [i] with the given parents. *)
  local_score : Model -> nat -> list nat -> double;
  (** [score.local_score(type, i, begin, end)]: node [i] under another factor type. *)
  local_score_type : FactorType.t -> nat -> list nat -> double
}.

(** [ArcVector] and [FactorTypeVector]. *)
Definition ArcVector : Set := list (string * string).
Definition FactorTypeVector : Set := list (string * FactorType.t).

(** ** LocalScoreCache *)

Module LocalScoreCache.

(** [m_local_score], a [VectorXd]. *)
Definition t : Set := list double.

(** The constructor sizes the vector to [num_nodes] and writes nothing into
    it; [storage k] is what the allocation holds at offset [k]. *)
Definition new (m : Model) (storage : nat -> double) : t :=
  map storage (seq 0 (num_nodes m)).

Definition local_score (c : t) (i : nat) : double := nth i c 0%float.

Definition update_local_score_index (m : Model) (sc : Score) (i : nat) (c : t) : t :=
  assign c i (local_score_node sc m i).

Definition cache_local_scores (m : Model) (sc : Score) (c : t) : t :=
  fold_left (fun c i => assign c i (local_score_node sc m i)) (seq 0 (num_nodes m)) c.

Definition update_local_score (m : Model) (sc : Score) (op : Operator) (c : t) : t :=
  match op with
  | AddArc _ t _ | RemoveArc _ t _ => update_local_score_index m sc (index m t) c
  | FlipArc s t _ =>
      update_local_score_index m sc (index m t) (update_local_score_index m sc (index m s) c)
  | ChangeNodeType n _ _ => update_local_score_index m sc (index m n) c
  end.

(** [m_local_score.sum()]; Eigen does not fix the association order of the
    reduction, the model adds from the left. *)
Definition sum (c : t) : double :=
  match c with
  | [] => 0%float
  | x :: r => fold_left PrimFloat.add r x
  end.

End LocalScoreCache.

(** ** Sorting and reserving *)

(** The range a call of [std::sort(first, last, comp)] leaves when it returns
    one: straight insertion driven by the same comparator.  C++ defines the
    call only for a comparator that is a strict weak ordering on the range
    ([std_sort_call] and [find_max_call] below carry that contract); outside
    of it this function is one of the behaviours an implementation may show,
    and libstdc++ shows others: ties in another order, and on more than 16
    tied keys a read past the end of the buffer.  The statements about an
    operator that [find_max] returns use only that the sorted range has the
    elements of [sorted_idx]; none depends on the order of ties or on the call
    returning. *)
Fixpoint insert_sorted (comp : nat -> nat -> bool) (x : nat) (l : list nat) : list nat :=
  match l with
  | [] => [x]
  | y :: r => if comp x y then x :: l else y :: insert_sorted comp x r
  end.

Definition std_sort (comp : nat -> nat -> bool) (l : list nat) : list nat :=
  fold_right (insert_sorted comp) [] l.

(** The lambda handed to [std::sort] by every [find_max]:
    [[&delta_ptr](auto i1, auto i2) { return delta_ptr[i1] >= delta_ptr[i2]; }]. *)
Definition delta_order (delta_ptr : list double) (i1 i2 : nat) : bool :=
  dge (nth i1 delta_ptr 0%float) (nth i2 delta_ptr 0%float).

(** [std::vector<int>::max_size()] (libstdc++: [PTRDIFF_MAX / sizeof(int)]). *)
Definition vector_max_size : Z := (2 ^ 63 - 1) / 4.

(** [sorted_idx.reserve(n)] with [n] computed in [size_t]: [true] when the call
    returns, [false] when it throws [std::length_error]. *)
Definition reserve_ok (n : Z) : bool := Z.leb (wrap_size_t n) vector_max_size.

(** [Operator::delta] under a name that the [delta] members of the sets do not hide. *)
Abbreviation operator_delta := delta (only parsing).

(** ** ArcOperatorSet *)

Module ArcOperatorSet.

(** The data members; [m_local_cache] points to the cache owned by the pool and
    is passed to the member functions that read it. *)
Record t : Type := {
  m_score : Score;
  delta : Matrix double;
  valid_op : Matrix bool;
  sorted_idx : list nat;
  max_indegree : Z
}.

Definition with_delta (s : t) (d : Matrix double) : t :=
  {| m_score := m_score s; delta := d; valid_op := valid_op s;
     sorted_idx := sorted_idx s; max_indegree := max_indegree s |}.

Definition with_sorted_idx (s : t) (l : list nat) : t :=
  {| m_score := m_score s; delta := delta s; valid_op := valid_op s;
     sorted_idx := l; max_indegree := max_indegree s |}.

(** Body of the first constructor loop (the edges of the parameter the
    definition names [whitelist]). *)
Definition knock_out_both (model : Model) (st : Matrix bool * Matrix double)
           (edge : string * string) : Matrix bool * Matrix double :=
  let source_index := index model (fst edge) in
  let dest_index := index model (snd edge) in
  (set_coeff (set_coeff (fst st) source_index dest_index false) dest_index source_index false,
   set_coeff (set_coeff (snd st) source_index dest_index lowest) dest_index source_index lowest).

(** Body of the second constructor loop (the edges of the parameter the
    definition names [blacklist]). *)
Definition knock_out_one (model : Model) (st : Matrix bool * Matrix double)
           (edge : string * string) : Matrix bool * Matrix double :=
  let source_index := index model (fst edge) in
  let dest_index := index model (snd edge) in
  (set_coeff (fst st) source_index dest_index false,
   set_coeff (snd st) source_index dest_index lowest).

Definition knock_out_diagonal (st : Matrix bool * Matrix double) (i : nat)
  : Matrix bool * Matrix double :=
  (set_coeff (fst st) i i false, set_coeff (snd st) i i lowest).

(** The two nested loops that fill [sorted_idx]. *)
Definition linearized_valid (n : nat) (v : Matrix bool) : list nat :=
  flat_map (fun i => map (fun j => i + j * n)
                         (filter (fun j => coeff false v i j) (seq 0 n)))
           (seq 0 n).

(** The constructor, with the parameters in the order and under the names of
    its definition.  [storage] is the content of the freshly allocated [delta];
    the result is [None] when [sorted_idx.reserve] throws. *)
Definition new (model : Model) (score : Score) (blacklist whitelist : ArcVector)
           (max_indegree : Z) (storage : nat -> double) : option t :=
  let n := num_nodes model in
  let delta0 := {| rows := n; coeffs := map storage (seq 0 (n * n)) |} in
  let valid0 := {| rows := n; coeffs := repeat true (n * n) |} in
  let valid_ops := (Z.of_nat (n * n) - 2 * Z.of_nat (length whitelist)
                    - Z.of_nat (length blacklist) - Z.of_nat n)%Z in
  let st1 := fold_left (knock_out_both model) whitelist (valid0, delta0) in
  let st2 := fold_left (knock_out_one model) blacklist st1 in
  let st3 := fold_left knock_out_diagonal (seq 0 n) st2 in
  if reserve_ok valid_ops then
    Some {| m_score := score; delta := snd st3; valid_op := fst st3;
            sorted_idx := linearized_valid n (fst st3);
            max_indegree := max_indegree |}
  else None.

Section Scores.

Variable model : Model.
Variable cache : LocalScoreCache.t.
Variable s : t.

Let ls := local_score (m_score s) model.
Let cached := LocalScoreCache.local_score cache.

(** One iteration of the inner loop of [cache_scores]; the state is [delta]
    and the scratch vector [new_parents_dest]. *)
Definition cache_scores_cell (dest : nat) (st : Matrix double * list nat) (source : nat)
  : Matrix double * list nat :=
  let (dl, new_parents_dest) := st in
  if coeff false (valid_op s) source dest then
    if has_edge model source dest then
      let new_parents_dest := swap_to_back source new_parents_dest in
      let d := (ls dest (but_last new_parents_dest) - cached dest)%float in
      (set_coeff dl source dest d, new_parents_dest)
    else if has_edge model dest source then
      let new_parents_source := swap_to_back dest (parent_indices model source) in
      let d := (ls source (but_last new_parents_source)
                + ls dest (new_parents_dest ++ [source])
                - cached source - cached dest)%float in
      (set_coeff dl dest source d, new_parents_dest)
    else
      let d := (ls dest (new_parents_dest ++ [source]) - cached dest)%float in
      (set_coeff dl source dest d, new_parents_dest)
  else st.

Definition cache_scores_column (dl : Matrix double) (dest : nat) : Matrix double :=
  fst (fold_left (cache_scores_cell dest) (seq 0 (num_nodes model))
                 (dl, parent_indices model dest)).

(** [ArcOperatorSet::cache_scores]. *)
Definition cache_scores : t :=
  with_delta s (fold_left cache_scores_column (seq 0 (num_nodes model)) (delta s)).

(** One iteration of the loop of [update_node_arcs_scores]; the state is
    [delta] and the scratch vector [parents]. *)
Definition update_cell (dest_idx : nat) (st : Matrix double * list nat) (i : nat)
  : Matrix double * list nat :=
  let (dl, parents) := st in
  if coeff false (valid_op s) i dest_idx then
    if has_edge model i dest_idx then
      let parents := swap_to_back i parents in
      let d := (ls dest_idx (but_last parents) - cached dest_idx)%float in
      let dl := set_coeff dl i dest_idx d in
      let new_parents_i := parent_indices model i ++ [dest_idx] in
      (set_coeff dl dest_idx i (d + ls i new_parents_i - cached i)%float, parents)
    else if has_edge model dest_idx i then
      let new_parents_i := swap_to_back dest_idx (parent_indices model i) in
      let d := (ls i (but_last new_parents_i)
                + ls dest_idx (parents ++ [i])
                - cached i - cached dest_idx)%float in
      (set_coeff dl dest_idx i d, parents)
    else
      let d := (ls dest_idx (parents ++ [i]) - cached dest_idx)%float in
      (set_coeff dl i dest_idx d, parents)
  else st.

End Scores.

(** [ArcOperatorSet::update_node_arcs_scores]. *)
Definition update_node_arcs_scores (model : Model) (cache : LocalScoreCache.t)
           (dest_node : string) (s : t) : t :=
  let dest_idx := index model dest_node in
  with_delta s (fst (fold_left (update_cell model cache s dest_idx)
                               (seq 0 (num_nodes model))
                               (delta s, parent_indices model dest_idx))).

(** [ArcOperatorSet::update_scores]. *)
Definition update_scores (model : Model) (cache : LocalScoreCache.t) (op : Operator) (s : t) : t :=
  match op with
  | AddArc _ target _ | RemoveArc _ target _ =>
      update_node_arcs_scores model cache target s
  | FlipArc source target _ =>
      update_node_arcs_scores model cache target
        (update_node_arcs_scores model cache source s)
  | ChangeNodeType node _ _ =>
      update_node_arcs_scores model cache node s
  end.

Section Walk.

Variable limited_indegree : bool.
Variable model : Model.
Variable s : t.

(** [if constexpr (limited_indegree) if (model.num_parents(dest) >= max_indegree) continue;] *)
Definition indegree_full (dest : nat) : bool :=
  limited_indegree && Z.geb (num_parents model dest) (max_indegree s).

(** The [for] loop of [find_max_indegree(model)] over the sorted indices. *)
Fixpoint walk (l : list nat) : option Operator :=
  match l with
  | [] => None
  | idx :: rest =>
      let source := idx mod num_nodes model in
      let dest := idx / num_nodes model in
      if has_edge model source dest then
        Some (RemoveArc (name model source) (name model dest)
                        (coeff 0%float (delta s) source dest))
      else if has_edge model dest source && can_flip_edge model dest source then
        if indegree_full dest then walk rest
        else Some (FlipArc (name model dest) (name model source)
                           (coeff 0%float (delta s) dest source))
      else if can_add_edge model source dest then
        if indegree_full dest then walk rest
        else Some (AddArc (name model source) (name model dest)
                          (coeff 0%float (delta s) source dest))
      else walk rest
  end.

Variable tabu_set : OperatorTabuSet.t.

(** The [for] loop of [find_max_indegree(model, tabu_set)]. *)
Fixpoint walk_tabu (l : list nat) : option Operator :=
  match l with
  | [] => None
  | idx :: rest =>
      let source := idx mod num_nodes model in
      let dest := idx / num_nodes model in
      if has_edge model source dest then
        let op := RemoveArc (name model source) (name model dest)
                            (coeff 0%float (delta s) source dest) in
        if negb (OperatorTabuSet.contains tabu_set op) then Some op else walk_tabu rest
      else if has_edge model dest source && can_flip_edge model dest source then
        if indegree_full dest then walk_tabu rest
        else
          let op := FlipArc (name model dest) (name model source)
                            (coeff 0%float (delta s) dest source) in
          if negb (OperatorTabuSet.contains tabu_set op) then Some op else walk_tabu rest
      else if can_add_edge model source dest then
        if indegree_full dest then walk_tabu rest
        else
          let op := AddArc (name model source) (name model dest)
                           (coeff 0%float (delta s) source dest) in
          if negb (OperatorTabuSet.contains tabu_set op) then Some op else walk_tabu rest
      else walk_tabu rest
  end.

End Walk.

(** The in-place [std::sort] of [sorted_idx] that opens every [find_max_indegree]. *)
Definition sort_idx (s : t) : t :=
  with_sorted_idx s (std_sort (delta_order (coeffs (delta s))) (sorted_idx s)).

(** [find_max_indegree<Model, limited_indegree>(model)]: the operator returned
    and the set with its re-sorted [sorted_idx]. *)
Definition find_max_indegree (limited_indegree : bool) (model : Model) (s : t)
  : option Operator * t :=
  let s' := sort_idx s in
  (walk limited_indegree model s' (sorted_idx s'), s').

(** [find_max_indegree<Model, limited_indegree>(model, tabu_set)]. *)
Definition find_max_indegree_tabu (limited_indegree : bool) (model : Model) (s : t)
           (tabu_set : OperatorTabuSet.t) : option Operator * t :=
  let s' := sort_idx s in
  (walk_tabu limited_indegree model s' tabu_set (sorted_idx s'), s').

(** [ArcOperatorSet::find_max(model)]. *)
Definition find_max (model : Model) (s : t) : option Operator * t :=
  if (max_indegree s >? 0)%Z then find_max_indegree true model s
  else find_max_indegree false model s.

(** [ArcOperatorSet::find_max(model, tabu_set)]. *)
Definition find_max_tabu (model : Model) (s : t) (tabu_set : OperatorTabuSet.t)
  : option Operator * t :=
  if (max_indegree s >? 0)%Z then find_max_indegree_tabu true model s tabu_set
  else find_max_indegree_tabu false model s tabu_set.

End ArcOperatorSet.

(** ** ChangeNodeTypeSet *)

Module ChangeNodeTypeSet.

(** The data members; [delta] is a [VectorXd], [valid_op] a [VectorXb]. *)
Record t : Type := {
  m_score : Score;
  delta : list double;
  valid_op : list bool;
  sorted_idx : list nat
}.

Definition with_delta (s : t) (d : list double) : t :=
  {| m_score := m_score s; delta := d; valid_op := valid_op s; sorted_idx := sorted_idx s |}.

Definition with_sorted_idx (s : t) (l : list nat) : t :=
  {| m_score := m_score s; delta := delta s; valid_op := valid_op s; sorted_idx := l |}.

(** Body of the constructor loop over [type_whitelist]. *)
Definition knock_out (model : Model) (st : list bool * list double)
           (node : string * FactorType.t) : list bool * list double :=
  (assign (fst st) (index model (fst node)) false,
   assign (snd st) (index model (fst node)) lowest).

(** The constructor; [storage] is the content of the freshly allocated [delta],
    the result is [None] when [sorted_idx.reserve] throws. *)
Definition new (model : Model) (score : Score) (type_whitelist : FactorTypeVector)
           (storage : nat -> double) : option t :=
  let n := num_nodes model in
  let st := fold_left (knock_out model) type_whitelist
                      (repeat true n, map storage (seq 0 n)) in
  let valid_ops := (Z.of_nat n - Z.of_nat (length type_whitelist))%Z in
  if reserve_ok valid_ops then
    Some {| m_score := score; delta := snd st; valid_op := fst st;
            sorted_idx := filter (fun i => nth i (fst st) false) (seq 0 n) |}
  else None.

(** [update_local_delta(model, node_index)]. *)
Definition update_local_delta (model : Model) (cache : LocalScoreCache.t)
           (node_index : nat) (s : t) : t :=
  let ty := node_type model node_index in
  let parents := parent_indices model node_index in
  with_delta s (assign (delta s) node_index
                       (local_score_type (m_score s) (FactorType.opposite ty) node_index parents
                        - LocalScoreCache.local_score cache node_index)%float).

(** [ChangeNodeTypeSet::cache_scores]. *)
Definition cache_scores (model : Model) (cache : LocalScoreCache.t) (s : t) : t :=
  fold_left (fun s i => if nth i (valid_op s) false
                        then update_local_delta model cache i s else s)
            (seq 0 (num_nodes model)) s.

(** [std::max_element(delta_ptr, delta_ptr + n)] as a position: the first
    element that no later element exceeds under [<]; position 0 on an empty range. *)
Definition max_element (delta_ptr : list double) (n : nat) : nat :=
  fold_left (fun largest i =>
               if PrimFloat.ltb (nth largest delta_ptr 0%float) (nth i delta_ptr 0%float)
               then i else largest)
            (seq 1 (n - 1)) 0.

(** [ChangeNodeTypeSet::find_max(model)]. *)
Definition find_max (model : Model) (s : t) : option Operator * t :=
  let idx_max := max_element (delta s) (num_nodes model) in
  let ty := node_type model idx_max in
  if nth idx_max (valid_op s) false then
    (Some (ChangeNodeType (name model idx_max) (FactorType.opposite ty)
                          (nth idx_max (delta s) 0%float)), s)
  else (None, s).

(** The [for] loop of [find_max(model, tabu_set)]. *)
Fixpoint walk_tabu (model : Model) (s : t) (tabu_set : OperatorTabuSet.t) (l : list nat)
  : option Operator :=
  match l with
  | [] => None
  | idx_max :: rest =>
      let ty := node_type model idx_max in
      let op := ChangeNodeType (name model idx_max) (FactorType.opposite ty)
                               (nth idx_max (delta s) 0%float) in
      if OperatorTabuSet.contains tabu_set op then Some op
      else walk_tabu model s tabu_set rest
  end.

(** [ChangeNodeTypeSet::find_max(model, tabu_set)]. *)
Definition find_max_tabu (model : Model) (s : t) (tabu_set : OperatorTabuSet.t)
  : option Operator * t :=
  let s' := with_sorted_idx s (std_sort (delta_order (delta s)) (sorted_idx s)) in
  (walk_tabu model s' tabu_set (sorted_idx s'), s').

(** [ChangeNodeTypeSet::update_scores]. *)
Definition update_scores (model : Model) (cache : LocalScoreCache.t) (op : Operator) (s : t) : t :=
  match op with
  | AddArc _ target _ | RemoveArc _ target _ =>
      update_local_delta model cache (index model target) s
  | FlipArc source target _ =>
      update_local_delta model cache (index model target)
        (update_local_delta model cache (index model source) s)
  | ChangeNodeType node _ d =>
      with_delta s (assign (delta s) (index model node) (dneg d))
  end.

End ChangeNodeTypeSet.

(** ** OperatorPool *)

(** An element of [std::vector<std::shared_ptr<OperatorSet>>]: one of the two
    classes that implement the operator-set interface. *)
Inductive OperatorSet : Type :=
| ArcSet (s : ArcOperatorSet.t)
| NodeTypeSet (s : ChangeNodeTypeSet.t).

(** The virtual calls through [OperatorSet]; [cache] is the shared
    [m_local_cache]. *)
Definition set_cache_scores (model : Model) (cache : LocalScoreCache.t) (os : OperatorSet)
  : OperatorSet :=
  match os with
  | ArcSet s => ArcSet (ArcOperatorSet.cache_scores model cache s)
  | NodeTypeSet s => NodeTypeSet (ChangeNodeTypeSet.cache_scores model cache s)
  end.

Definition set_find_max (model : Model) (os : OperatorSet) : option Operator * OperatorSet :=
  match os with
  | ArcSet s => let (op, s') := ArcOperatorSet.find_max model s in (op, ArcSet s')
  | NodeTypeSet s => let (op, s') := ChangeNodeTypeSet.find_max model s in (op, NodeTypeSet s')
  end.

Definition set_find_max_tabu (model : Model) (tabu_set : OperatorTabuSet.t) (os : OperatorSet)
  : option Operator * OperatorSet :=
  match os with
  | ArcSet s =>
      let (op, s') := ArcOperatorSet.find_max_tabu model s tabu_set in (op, ArcSet s')
  | NodeTypeSet s =>
      let (op, s') := ChangeNodeTypeSet.find_max_tabu model s tabu_set in (op, NodeTypeSet s')
  end.

Definition set_update_scores (model : Model) (cache : LocalScoreCache.t) (op : Operator)
           (os : OperatorSet) : OperatorSet :=
  match os with
  | ArcSet s => ArcSet (ArcOperatorSet.update_scores model cache op s)
  | NodeTypeSet s => NodeTypeSet (ChangeNodeTypeSet.update_scores model cache op s)
  end.

Module OperatorPool.

Record t : Type := {
  m_score : Score;
  local_cache : LocalScoreCache.t;
  m_op_sets : list OperatorSet
}.

(** The constructor; every set receives the pool's cache, which the model
    expresses by passing [local_cache] to the sets' member functions. *)
Definition new (model : Model) (score : Score) (op_sets : list OperatorSet)
           (storage : nat -> double) : t :=
  {| m_score := score; local_cache := LocalScoreCache.new model storage;
     m_op_sets := op_sets |}.

(** [OperatorPool::cache_scores]. *)
Definition cache_scores (model : Model) (p : t) : t :=
  let c := LocalScoreCache.cache_local_scores model (m_score p) (local_cache p) in
  {| m_score := m_score p; local_cache := c;
     m_op_sets := map (set_cache_scores model c) (m_op_sets p) |}.

(** The loop shared by both [find_max] overloads: [query] is the call made on
    each set, the state is [max_delta] and [max_op]. *)
Fixpoint find_max_loop (query : OperatorSet -> option Operator * OperatorSet)
         (max_delta : double) (max_op : option Operator) (sets : list OperatorSet)
  : option Operator * list OperatorSet :=
  match sets with
  | [] => (max_op, [])
  | os :: rest =>
      let (new_op, os') := query os in
      let (res, rest') :=
        match new_op with
        | Some op =>
            if dgt (operator_delta op) max_delta
            then find_max_loop query (operator_delta op) (Some op) rest
            else find_max_loop query max_delta max_op rest
        | None => find_max_loop query max_delta max_op rest
        end in
      (res, os' :: rest')
  end.

Definition with_sets (p : t) (sets : list OperatorSet) : t :=
  {| m_score := m_score p; local_cache := local_cache p; m_op_sets := sets |}.

(** [OperatorPool::find_max(model)]. *)
Definition find_max (model : Model) (p : t) : option Operator * t :=
  let (max_op, sets) := find_max_loop (set_find_max model) lowest None (m_op_sets p) in
  (max_op, with_sets p sets).

(** [OperatorPool::find_max(model, tabu_set)]. *)
Definition find_max_tabu (model : Model) (p : t) (tabu_set : OperatorTabuSet.t)
  : option Operator * t :=
  if OperatorTabuSet.empty tabu_set then find_max model p
  else
    let (max_op, sets) :=
      find_max_loop (set_find_max_tabu model tabu_set) lowest None (m_op_sets p) in
    (max_op, with_sets p sets).

(** [OperatorPool::update_scores]: the cache first, then every set. *)
Definition update_scores (model : Model) (op : Operator) (p : t) : t :=
  let c := LocalScoreCache.update_local_score model (m_score p) op (local_cache p) in
  {| m_score := m_score p; local_cache := c;
     m_op_sets := map (set_update_scores model c op) (m_op_sets p) |}.

(** [OperatorPool::score()]. *)
Definition score (p : t) : double := LocalScoreCache.sum (local_cache p).

(** [OperatorPool::score(model)]. *)
Definition score_model (model : Model) (p : t) : double :=
  fold_left (fun s i => (s + local_score_node (m_score p) model i)%float)
            (seq 0 (num_nodes model)) 0%float.

End OperatorPool.

(** * Vocabulary of the statements *)

(** The node names of a model are well formed when [index] undoes [name]. *)
Definition well_named (model : Model) : Prop :=
  forall i, i < num_nodes model -> index model (name model i) = i.

(** Every linearized index of an arc set addresses a cell of the matrix. *)
Definition indices_in_range (model : Model) (s : ArcOperatorSet.t) : Prop :=
  forall idx, In idx (ArcOperatorSet.sorted_idx s) -> idx < num_nodes model * num_nodes model.

(** The operator that the walk of [find_max_indegree] builds at a linearized
    index when no in-degree test intervenes: a removal for an existing arc, a
    flip for a reversible reverse arc, an addition for a legal new arc. *)
Definition candidate (model : Model) (s : ArcOperatorSet.t) (idx : nat) : option Operator :=
  let source := idx mod num_nodes model in
  let dest := idx / num_nodes model in
  if has_edge model source dest then
    Some (RemoveArc (name model source) (name model dest)
                    (coeff 0%float (ArcOperatorSet.delta s) source dest))
  else if has_edge model dest source && can_flip_edge model dest source then
    Some (FlipArc (name model dest) (name model source)
                  (coeff 0%float (ArcOperatorSet.delta s) dest source))
  else if can_add_edge model source dest then
    Some (AddArc (name model source) (name model dest)
                 (coeff 0%float (ArcOperatorSet.delta s) source dest))
  else None.

(** The walk does not skip [op], built at the linearized index [idx], for its
    in-degree: a removal is never skipped, an addition or a flip is skipped
    when [max_indegree] is positive and the destination has that many parents. *)
Definition passes_indegree (model : Model) (s : ArcOperatorSet.t) (idx : nat) (op : Operator)
  : Prop :=
  type op = OperatorType.REMOVE_ARC
  \/ ArcOperatorSet.indegree_full (ArcOperatorSet.max_indegree s >? 0)%Z model s
                                  (idx / num_nodes model) = false.

(** The first candidate, in list order, that [allowed] accepts. *)
Fixpoint first_allowed (allowed : Operator -> bool) (c : nat -> option Operator)
         (l : list nat) : option Operator :=
  match l with
  | [] => None
  | idx :: rest =>
      match c idx with
      | Some op => if allowed op then Some op else first_allowed allowed c rest
      | None => first_allowed allowed c rest
      end
  end.

(** What the in-degree claim says of an arc set.  With a positive [max_indegree],
    whatever either overload of [find_max] returns is an addition or a flip only
    if the node that gains a parent has fewer than [max_indegree] parents, and
    applying it leaves every parent count at or below the larger of its old
    value and [max_indegree].  With [max_indegree = 0] the overloads return the
    first candidate, resp. the first candidate outside the tabu set, whatever
    the parent counts are. *)
Definition indegree_respected (model : Model) (s : ArcOperatorSet.t)
           (tabu_set : OperatorTabuSet.t) : Prop :=
  (forall op,
      fst (ArcOperatorSet.find_max model s) = Some op
      \/ fst (ArcOperatorSet.find_max_tabu model s tabu_set) = Some op ->
      (ArcOperatorSet.max_indegree s > 0)%Z ->
      (forall sn tn d, op = AddArc sn tn d ->
                       (num_parents model (index model tn) < ArcOperatorSet.max_indegree s)%Z)
      /\ (forall tn sn d, op = FlipArc tn sn d ->
                          (num_parents model (index model tn) < ArcOperatorSet.max_indegree s)%Z)
      /\ (forall v, (num_parents (apply op model) v
                     <= Z.max (num_parents model v) (ArcOperatorSet.max_indegree s))%Z))
  /\ (ArcOperatorSet.max_indegree s = 0%Z ->
      fst (ArcOperatorSet.find_max model s)
      = first_allowed (fun _ => true) (candidate model s)
                      (ArcOperatorSet.sorted_idx (ArcOperatorSet.sort_idx s))
      /\ fst (ArcOperatorSet.find_max_tabu model s tabu_set)
         = first_allowed (fun op => negb (OperatorTabuSet.contains tabu_set op))
                         (candidate model s)
                         (ArcOperatorSet.sorted_idx (ArcOperatorSet.sort_idx s))).

(** Both matrices of an arc set under construction have [n] rows and [n * n]
    coefficients. *)
Definition shaped (n : nat) (st : Matrix bool * Matrix double) : Prop :=
  rows (fst st) = n /\ length (coeffs (fst st)) = n * n
  /\ rows (snd st) = n /\ length (coeffs (snd st)) = n * n.

(** Cell (i, j) is knocked out: invalid, with delta [lowest]. *)
Definition cleared (i j : nat) (st : Matrix bool * Matrix double) : Prop :=
  coeff false (fst st) i j = false /\ coeff 0%float (snd st) i j = lowest.

(** An operator the pool may select: its delta exceeds [lowest]. *)
Definition eligible (op : Operator) : bool := dgt (delta op) lowest.

(** [res] is the best of the answers the sets gave, in pool order: none when no
    answer is eligible; otherwise an eligible answer that exceeds every
    eligible answer before it and is exceeded by no answer after it. *)
Definition best_answer (answers : list (option Operator)) (res : option Operator) : Prop :=
  (res = None <-> forall o, In (Some o) answers -> eligible o = false)
  /\ (forall op, res = Some op ->
        exists pre post,
          answers = pre ++ Some op :: post
          /\ eligible op = true
          /\ (forall o, In (Some o) pre -> eligible o = true -> dgt (delta op) (delta o) = true)
          /\ (forall o, In (Some o) post -> dgt (delta o) (delta op) = false)).

(** The pool's loop on the answers alone. *)
Fixpoint best (max_delta : double) (max_op : option Operator) (answers : list (option Operator))
  : option Operator :=
  match answers with
  | [] => max_op
  | None :: rest => best max_delta max_op rest
  | Some op :: rest =>
      if dgt (delta op) max_delta then best (delta op) (Some op) rest
      else best max_delta max_op rest
  end.

(** The reading of the pool claim that a null result means every set answered
    null. *)
Definition none_iff_all_none (model : Model) (p : OperatorPool.t) : Prop :=
  fst (OperatorPool.find_max model p) = None
  <-> forall os, In os (OperatorPool.m_op_sets p) -> fst (set_find_max model os) = None.

(** The identity the claim describes: same kind, and the same (source, target)
    pair for the arc variants, the same (node, new type) pair for a node-type
    change. *)
Definition same_identity (a b : Operator) : Prop :=
  type a = type b /\ arc_fields a = arc_fields b /\ node_fields a = node_fields b.

(** The operator with its delta replaced. *)
Definition with_op_delta (op : Operator) (d : double) : Operator :=
  match op with
  | AddArc s t _ => AddArc s t d
  | RemoveArc s t _ => RemoveArc s t d
  | FlipArc s t _ => FlipArc s t d
  | ChangeNodeType n ty _ => ChangeNodeType n ty d
  end.

(** * Concrete inputs

    A network over the two nodes A (index 0) and B (index 1), a score that only
    looks at the number of parents, and storage that held 7.0 everywhere. *)
Module Example.

Definition node_index (s : string) : nat := if String.eqb s "B" then 1 else 0.

Definition node_name (i : nat) : string :=
  match i with 0 => "A"%string | _ => "B"%string end.

(** No arc. *)
Definition empty_model : Model :=
  {| num_nodes := 2; name := node_name; index := node_index;
     parent_indices := fun _ => [];
     node_type := fun _ => FactorType.LinearGaussianCPD;
     add_legal := fun _ _ _ => true; flip_legal := fun _ _ _ => true |}.

(** The single arc B -> A. *)
Definition arc_model : Model :=
  with_parents empty_model (fun v => match v with 0 => [1] | _ => [] end).

Definition by_parent_count (l : list nat) : double :=
  match length l with 0 => 0%float | 1 => 1%float | _ => 3%float end.

Definition count_score : Score :=
  {| local_score_node := fun m i => by_parent_count (parent_indices m i);
     local_score := fun _ _ l => by_parent_count l;
     local_score_type := fun _ _ l => by_parent_count l |}.

(** A score on degenerate data: the current local score of every node is
    +infinity, every hypothetical one is 0. *)
Definition degenerate_score : Score :=
  {| local_score_node := fun _ _ => infinity;
     local_score := fun _ _ _ => 0%float;
     local_score_type := fun _ _ _ => 0%float |}.

Definition storage (k : nat) : double := 7%float.

(** A pool over one arc set without white- or blacklist. *)
Definition arc_pool (model : Model) (score : Score) (max_indegree : Z) : OperatorPool.t :=
  match ArcOperatorSet.new model score [] [] max_indegree storage with
  | Some s => OperatorPool.cache_scores model (OperatorPool.new model score [ArcSet s] storage)
  | None => OperatorPool.new model score [] storage
  end.

(** The arc set of such a pool. *)
Definition arc_set (model : Model) (score : Score) (max_indegree : Z) : ArcOperatorSet.t :=
  match OperatorPool.m_op_sets (arc_pool model score max_indegree) with
  | ArcSet s :: _ => s
  | _ => {| ArcOperatorSet.m_score := score;
            ArcOperatorSet.delta := {| rows := 0; coeffs := [] |};
            ArcOperatorSet.valid_op := {| rows := 0; coeffs := [] |};
            ArcOperatorSet.sorted_idx := []; ArcOperatorSet.max_indegree := max_indegree |}
  end.

(** A pool over one node-type set without whitelist. *)
Definition type_pool : OperatorPool.t :=
  match ChangeNodeTypeSet.new empty_model count_score [] storage with
  | Some s => OperatorPool.cache_scores empty_model
                (OperatorPool.new empty_model count_score [NodeTypeSet s] storage)
  | None => OperatorPool.new empty_model count_score [] storage
  end.

(** A tabu set that forbids turning B into a CKDE node. *)
Definition tabu_B : OperatorTabuSet.t :=
  OperatorTabuSet.insert (ChangeNodeType "B" FactorType.CKDE 0%float) OperatorTabuSet.empty_set.

End Example.

(** * Further operations and the vocabulary of their properties *)

(** ** The contract of [std::sort] *)

(** [std::sort] requires its comparator to induce a strict weak ordering on
    the values of the range: irreflexive, transitive, and with a transitive
    incomparability.  The tests range over the elements of [l]. *)
Definition irreflexive_on (comp : nat -> nat -> bool) (l : list nat) : bool :=
  forallb (fun x => negb (comp x x)) l.

Definition transitive_on (comp : nat -> nat -> bool) (l : list nat) : bool :=
  forallb (fun x => forallb (fun y => forallb (fun z =>
    implb (comp x y && comp y z) (comp x z)) l) l) l.

Definition incomparable (comp : nat -> nat -> bool) (x y : nat) : bool :=
  negb (comp x y) && negb (comp y x).

Definition incomparability_transitive_on (comp : nat -> nat -> bool) (l : list nat) : bool :=
  forallb (fun x => forallb (fun y => forallb (fun z =>
    implb (incomparable comp x y && incomparable comp y z) (incomparable comp x z)) l) l) l.

Definition strict_weak_ordering_on (comp : nat -> nat -> bool) (l : list nat) : bool :=
  irreflexive_on comp l && transitive_on comp l && incomparability_transitive_on comp l.

(** What a call does: it returns a value, or C++ leaves its behaviour
    undefined. *)
Inductive Outcome (A : Type) : Type :=
| Returns (a : A)
| Undefined.

Arguments Undefined {A}.

(** A call of [std::sort(first, last, comp)]: under the contract it returns
    the range sorted, outside of it anything may happen. *)
Definition std_sort_call (comp : nat -> nat -> bool) (l : list nat) : Outcome (list nat) :=
  if strict_weak_ordering_on comp l then Returns (std_sort comp l) else Undefined.

(** [ArcOperatorSet::find_max(model)] as a call: the first statement of
    [find_max_indegree] sorts [sorted_idx] under [delta_order]. *)
Definition find_max_call (model : Model) (s : ArcOperatorSet.t)
  : Outcome (option Operator * ArcOperatorSet.t) :=
  match std_sort_call (delta_order (coeffs (ArcOperatorSet.delta s)))
                      (ArcOperatorSet.sorted_idx s) with
  | Returns _ => Returns (ArcOperatorSet.find_max model s)
  | Undefined => Undefined
  end.

(** [ArcOperatorSet::find_max(model, tabu_set)] as a call. *)
Definition find_max_tabu_call (model : Model) (s : ArcOperatorSet.t)
           (tabu_set : OperatorTabuSet.t) : Outcome (option Operator * ArcOperatorSet.t) :=
  match std_sort_call (delta_order (coeffs (ArcOperatorSet.delta s)))
                      (ArcOperatorSet.sorted_idx s) with
  | Returns _ => Returns (ArcOperatorSet.find_max_tabu model s tabu_set)
  | Undefined => Undefined
  end.

(** Five nodes without arcs: twenty additions with the same delta. *)
Module Ties.

Definition node_name (i : nat) : string :=
  match i with
  | 0 => "A" | 1 => "B" | 2 => "C" | 3 => "D" | _ => "E"
  end%string.

Definition node_index (s : string) : nat :=
  if String.eqb s "A" then 0
  else if String.eqb s "B" then 1
  else if String.eqb s "C" then 2
  else if String.eqb s "D" then 3
  else 4.

Definition model : Model :=
  {| num_nodes := 5; name := node_name; index := node_index;
     parent_indices := fun _ => [];
     node_type := fun _ => FactorType.LinearGaussianCPD;
     add_legal := fun _ _ _ => true; flip_legal := fun _ _ _ => true |}.

(** The arc set of a pool over the model, after [cache_scores]. *)
Definition arc_set : ArcOperatorSet.t := Example.arc_set model Example.count_score 0.

(** A tabu set that holds the addition of every arc. *)
Definition tabu : OperatorTabuSet.t :=
  fold_right OperatorTabuSet.insert OperatorTabuSet.empty_set
    (flat_map (fun i => map (fun j => AddArc (node_name i) (node_name j) 0%float)
                            (filter (fun j => negb (Nat.eqb i j)) (seq 0 5)))
              (seq 0 5)).

End Ties.

(** ** Names and hashes of the kinds *)

Module OperatorTypeOps.

(** [OperatorType::ToString]; the [default] branch of the switch is not
    reachable from an enumerator. *)
Definition ToString (v : OperatorType.Value) : string :=
  match v with
  | OperatorType.ADD_ARC => "AddArc"
  | OperatorType.REMOVE_ARC => "RemoveArc"
  | OperatorType.FLIP_ARC => "FlipArc"
  | OperatorType.CHANGE_NODE_TYPE => "ChangeNodeType"
  end.

(** [OperatorType::Hash::operator()]: [static_cast<std::size_t>(value)]. *)
Definition Hash (v : OperatorType.Value) : Z := wrap_size_t (OperatorType.to_Z v).

End OperatorTypeOps.

Module OperatorSetType.

Inductive Value : Set := ARCS | NODE_TYPE.

(** The [uint8_t] behind the enumerator. *)
Definition to_Z (v : Value) : Z :=
  match v with
  | ARCS => 0
  | NODE_TYPE => 1
  end.

(** [OperatorSetType::operator==]. *)
Definition eqb (a b : Value) : bool := Z.eqb (to_Z a) (to_Z b).

(** [OperatorSetType::ToString]. *)
Definition ToString (v : Value) : string :=
  match v with
  | ARCS => "arcs"
  | NODE_TYPE => "node_type"
  end.

(** [OperatorSetType::Hash::operator()]. *)
Definition Hash (v : Value) : Z := wrap_size_t (to_Z v).

End OperatorSetType.

(** ** Copies of a tabu set *)

Module OperatorTabuSetCopy.

(** The copy constructor: every entry of [other.m_map] is inserted into an
    empty map. *)
Definition copy_construct (other : OperatorTabuSet.t) : OperatorTabuSet.t :=
  fold_left (fun m op => OperatorTabuSet.insert op m) other OperatorTabuSet.empty_set.

(** The copy assignment from another object: [clear()], then the same
    insertions.  The source has no guard against [x = x]; there [clear()]
    empties [other] as well and the set ends empty, which this function of
    two values does not express. *)
Definition copy_assign (self other : OperatorTabuSet.t) : OperatorTabuSet.t :=
  fold_left (fun m op => OperatorTabuSet.insert op m) other (OperatorTabuSet.clear self).

End OperatorTabuSetCopy.

(** The keys of the map are pairwise different under [OperatorPtrEqual]. *)
Fixpoint distinct_keys (m : OperatorTabuSet.t) : Prop :=
  match m with
  | [] => True
  | k :: r => OperatorTabuSet.contains r k = false /\ distinct_keys r
  end.

(** ** The local score cache *)

(** The nodes whose local score an operator changes: the ones
    [LocalScoreCache::update_local_score] and the [update_scores] of the sets
    recompute. *)
Definition touched_nodes (model : Model) (op : Operator) : list nat :=
  match op with
  | AddArc _ t _ | RemoveArc _ t _ => [index model t]
  | FlipArc s t _ => [index model s; index model t]
  | ChangeNodeType n _ _ => [index model n]
  end.

(** The cache holds, for every node, the local score the score gives it on
    the model. *)
Definition consistent (sc : Score) (model : Model) (c : LocalScoreCache.t) : Prop :=
  length c = num_nodes model
  /\ forall i, i < num_nodes model -> LocalScoreCache.local_score c i = local_score_node sc model i.

(** ** The constructed arc set *)

(** Cell (i, j) is as the allocation left it: valid, with the storage's delta. *)
Definition untouched (n : nat) (storage : nat -> double) (i j : nat)
           (st : Matrix bool * Matrix double) : Prop :=
  coeff false (fst st) i j = true /\ coeff 0%float (snd st) i j = storage (i + j * n).

(** What the constructor of the arc set leaves, the two lists under the names
    of its definition. *)
Definition arc_set_constructed (model : Model) (blacklist whitelist : ArcVector)
           (max_indegree : Z) (s : ArcOperatorSet.t) : Prop :=
  let st := (ArcOperatorSet.valid_op s, ArcOperatorSet.delta s) in
  let n := num_nodes model in
  shaped n st
  /\ ArcOperatorSet.max_indegree s = max_indegree
  /\ (forall a b, In (a, b) whitelist -> index model a < n -> index model b < n ->
                  cleared (index model a) (index model b) st
                  /\ cleared (index model b) (index model a) st)
  /\ (forall a b, In (a, b) blacklist -> index model a < n -> index model b < n ->
                  cleared (index model a) (index model b) st)
  /\ (forall i, i < n -> cleared i i st)
  /\ NoDup (ArcOperatorSet.sorted_idx s)
  /\ (forall idx, In idx (ArcOperatorSet.sorted_idx s)
                  <-> exists i j, i < n /\ j < n
                                  /\ coeff false (ArcOperatorSet.valid_op s) i j = true
                                  /\ idx = i + j * n).

(** Cell (i, j) of a constructed arc set is valid exactly when it is off the
    diagonal and no list entry knocks it out, and a valid cell still holds the
    delta the allocation left. *)
Definition arc_cell_constructed (model : Model) (blacklist whitelist : ArcVector)
           (storage : nat -> double) (s : ArcOperatorSet.t) (i j : nat) : Prop :=
  (coeff false (ArcOperatorSet.valid_op s) i j = true
   <-> i <> j
       /\ (forall a b, In (a, b) whitelist ->
                       (index model a, index model b) <> (i, j)
                       /\ (index model b, index model a) <> (i, j))
       /\ (forall a b, In (a, b) blacklist -> (index model a, index model b) <> (i, j)))
  /\ (coeff false (ArcOperatorSet.valid_op s) i j = true ->
      coeff 0%float (ArcOperatorSet.delta s) i j = storage (i + j * num_nodes model)).

(** ** The constructed node-type set *)

(** Some entry of the type whitelist names node [i]. *)
Definition type_listed (model : Model) (type_whitelist : FactorTypeVector) (i : nat) : bool :=
  existsb (fun node => Nat.eqb (index model (fst node)) i) type_whitelist.

(** What the constructor of the node-type set leaves. *)
Definition type_set_constructed (model : Model) (type_whitelist : FactorTypeVector)
           (storage : nat -> double) (s : ChangeNodeTypeSet.t) : Prop :=
  let n := num_nodes model in
  length (ChangeNodeTypeSet.valid_op s) = n
  /\ length (ChangeNodeTypeSet.delta s) = n
  /\ (forall i, i < n ->
        nth i (ChangeNodeTypeSet.valid_op s) false = negb (type_listed model type_whitelist i)
        /\ nth i (ChangeNodeTypeSet.delta s) 0%float
           = if type_listed model type_whitelist i then lowest else storage i)
  /\ ChangeNodeTypeSet.sorted_idx s
     = filter (fun i => negb (type_listed model type_whitelist i)) (seq 0 n).

(** The delta [update_local_delta] stores for node [i]: its local score under
    the opposite factor type minus its cached local score. *)
Definition type_flip_delta (model : Model) (cache : LocalScoreCache.t)
           (s : ChangeNodeTypeSet.t) (i : nat) : double :=
  (local_score_type (ChangeNodeTypeSet.m_score s) (FactorType.opposite (node_type model i)) i
                    (parent_indices model i)
   - LocalScoreCache.local_score cache i)%float.

(** ** Operators returned by the sets *)

(** What the model says of a returned arc operator, and the delta it carries. *)
Definition legal_arc_operator (model : Model) (s : ArcOperatorSet.t) (op : Operator) : Prop :=
  match op with
  | RemoveArc sn tn d =>
      has_edge model (index model sn) (index model tn) = true
      /\ d = coeff 0%float (ArcOperatorSet.delta s) (index model sn) (index model tn)
  | FlipArc sn tn d =>
      has_edge model (index model sn) (index model tn) = true
      /\ can_flip_edge model (index model sn) (index model tn) = true
      /\ has_edge model (index model tn) (index model sn) = false
      /\ d = coeff 0%float (ArcOperatorSet.delta s) (index model sn) (index model tn)
  | AddArc sn tn d =>
      has_edge model (index model sn) (index model tn) = false
      /\ can_add_edge model (index model sn) (index model tn) = true
      /\ d = coeff 0%float (ArcOperatorSet.delta s) (index model sn) (index model tn)
  | ChangeNodeType _ _ _ => False
  end.

(** Every set of the pool is an arc set. *)
Definition arc_sets_only (p : OperatorPool.t) : Prop :=
  forall os, In os (OperatorPool.m_op_sets p) -> exists s, os = ArcSet s.

(** ** The cached deltas of the arc set *)

(** A delta matrix of a model with [n] nodes: [n] rows, [n * n] coefficients. *)
Definition square (n : nat) (dl : Matrix double) : Prop :=
  rows dl = n /\ length (coeffs dl) = n * n.

(** [v] is the delta of removing the arc [source -> dest]: the local score of
    [dest] over its other parents, in some order, minus its cached score. *)
Definition removal_delta_at (model : Model) (cache : LocalScoreCache.t) (s : ArcOperatorSet.t)
           (source dest : nat) (v : double) : Prop :=
  exists rest,
    Permutation (rest ++ [source]) (parent_indices model dest)
    /\ v = (local_score (ArcOperatorSet.m_score s) model dest rest
            - LocalScoreCache.local_score cache dest)%float.

(** [v] is the delta of adding the arc [source -> dest]: the local score of
    [dest] over its parents, in some order, followed by [source], minus its
    cached score. *)
Definition addition_delta_at (model : Model) (cache : LocalScoreCache.t) (s : ArcOperatorSet.t)
           (source dest : nat) (v : double) : Prop :=
  exists parents,
    Permutation parents (parent_indices model dest)
    /\ v = (local_score (ArcOperatorSet.m_score s) model dest (parents ++ [source])
            - LocalScoreCache.local_score cache dest)%float.

(** [v] is the delta of flipping the existing arc [source -> dest] into
    [dest -> source]: [dest] loses the parent [source], [source] gains the
    parent [dest]. *)
Definition flip_delta_at (model : Model) (cache : LocalScoreCache.t) (s : ArcOperatorSet.t)
           (source dest : nat) (v : double) : Prop :=
  exists rest parents,
    Permutation (rest ++ [source]) (parent_indices model dest)
    /\ Permutation parents (parent_indices model source)
    /\ v = (local_score (ArcOperatorSet.m_score s) model dest rest
            + local_score (ArcOperatorSet.m_score s) model source (parents ++ [dest])
            - LocalScoreCache.local_score cache dest
            - LocalScoreCache.local_score cache source)%float.

(** What [update_node_arcs_scores] of node [d] leaves for the pair of [d] and
    another node [i] whose cell (i, d) is valid: for an arc [i -> d] the
    removal delta in (i, d) and the flip delta, computed from it, in (d, i);
    for an arc [d -> i] the flip delta in (d, i); otherwise the addition delta
    in (i, d). *)
Definition refreshed (model : Model) (cache : LocalScoreCache.t) (s : ArcOperatorSet.t)
           (d i : nat) (dl : Matrix double) : Prop :=
  if has_edge model i d then
    removal_delta_at model cache s i d (coeff 0%float dl i d)
    /\ coeff 0%float dl d i
       = (coeff 0%float dl i d
          + local_score (ArcOperatorSet.m_score s) model i (parent_indices model i ++ [d])
          - LocalScoreCache.local_score cache i)%float
  else if has_edge model d i then
    flip_delta_at model cache s d i (coeff 0%float dl d i)
  else
    addition_delta_at model cache s i d (coeff 0%float dl i d).

(** The iteration ([dest], [source]) of [ArcOperatorSet::cache_scores] stores
    into the cell ([s0], [t0]) of [delta]. *)
Definition hits (model : Model) (s : ArcOperatorSet.t) (s0 t0 dest source : nat) : bool :=
  coeff false (ArcOperatorSet.valid_op s) source dest
  && (if has_edge model source dest then Nat.eqb source s0 && Nat.eqb dest t0
      else if has_edge model dest source then Nat.eqb dest s0 && Nat.eqb source t0
      else Nat.eqb source s0 && Nat.eqb dest t0).

(** ** A restricted arc set *)

Module Restricted.

(** The arc set over the network B -> A whose constructor knocked out the
    cell (A, B) alone. *)
Definition arc_set : ArcOperatorSet.t :=
  match ArcOperatorSet.new Example.arc_model Example.count_score
                           [("A", "B")]%string [] 0 Example.storage with
  | Some s => s
  | None => Example.arc_set Example.arc_model Example.count_score 0
  end.

(** A cache that holds the local scores of the network B -> A. *)
Definition cache : LocalScoreCache.t :=
  OperatorPool.local_cache (Example.arc_pool Example.arc_model Example.count_score 0).

End Restricted.

(** * Properties *)

(** ** Facts about doubles *)

Lemma dneg_involutive (x : double) : dneg (dneg x) = x.
Proof.
  unfold dneg. apply Prim2SF_inj. rewrite !opp_spec.
  destruct (Prim2SF x); simpl; rewrite ?negb_involutive; reflexivity.
Qed.

Lemma SFltb_trans a b c : SFltb a b = true -> SFltb b c = true -> SFltb a c = true.
Proof.
  unfold SFltb, SFcompare.
  destruct a as [[]|[]| |[] ma ea], b as [[]|[]| |[] mb eb], c as [[]|[]| |[] mc ec];
    simpl; try discriminate; try reflexivity; intros H1 H2;
    rewrite ?Pos.compare_cont_spec in *; unfold Pos.switch_Eq in *.
  all: destruct (Z.compare_spec ea eb); try discriminate;
       destruct (Z.compare_spec eb ec); try discriminate;
       destruct (Z.compare_spec ea ec); try lia; try reflexivity; subst.
  all: destruct (Pos.compare_spec ma mb); try discriminate;
       destruct (Pos.compare_spec mb mc); try discriminate;
       destruct (Pos.compare_spec ma mc); simpl in *; try lia; try reflexivity; try discriminate.
Qed.

Lemma SFltb_below l m a b :
  SFltb l a = true -> SFltb m a = false -> SFltb m b = true -> SFltb a b = true.
Proof.
  unfold SFltb, SFcompare.
  destruct l as [[]|[]| |[] ml el], m as [[]|[]| |[] mm em],
           a as [[]|[]| |[] ma ea], b as [[]|[]| |[] mb eb];
    simpl; try discriminate; try reflexivity; intros H0 H1 H2;
    rewrite ?Pos.compare_cont_spec in *; unfold Pos.switch_Eq in *.
  all: try (destruct (Z.compare_spec em ea); try discriminate);
       try (destruct (Z.compare_spec em eb); try discriminate);
       try (destruct (Z.compare_spec ea eb); try lia; try reflexivity); subst.
  all: try (destruct (Pos.compare_spec mm ma); try discriminate);
       try (destruct (Pos.compare_spec mm mb); try discriminate);
       try (destruct (Pos.compare_spec ma mb); simpl in *;
            try lia; try reflexivity; try discriminate).
Qed.

(** [a > b] and [b > c] give [a > c]. *)
Lemma dgt_trans a b c : dgt a b = true -> dgt b c = true -> dgt a c = true.
Proof.
  unfold dgt. rewrite !ltb_spec. intros H1 H2. exact (SFltb_trans _ _ _ H2 H1).
Qed.

(** A comparable [a] that does not exceed [m] is exceeded by whatever exceeds [m]. *)
Lemma dgt_below l m a b :
  dgt a l = true -> dgt a m = false -> dgt b m = true -> dgt b a = true.
Proof.
  unfold dgt. rewrite !ltb_spec. apply SFltb_below.
Qed.

Lemma dgt_irrefl a : dgt a a = false.
Proof.
  unfold dgt. rewrite ltb_spec. unfold SFltb, SFcompare.
  destruct (Prim2SF a) as [[]|[]| |[] m e]; try reflexivity;
    rewrite Z.compare_refl, ?Pos.compare_cont_spec, Pos.compare_refl; reflexivity.
Qed.

Lemma dge_refl a : is_nan a = false -> dge a a = true.
Proof.
  unfold is_nan, PrimFloat.is_nan, dge. rewrite eqb_spec, leb_spec.
  unfold SFeqb, SFleb. destruct (SFcompare (Prim2SF a) (Prim2SF a)) as [[]|]; simpl; congruence.
Qed.

(** ** Operator algebra *)

Lemma FactorType_opposite_involutive ty : FactorType.opposite (FactorType.opposite ty) = ty.
Proof. destruct ty; reflexivity. Qed.

Lemma OperatorPtrEqual_refl op : OperatorPtrEqual op op = true.
Proof.
  destruct op as [s t d|s t d|s t d|n ty d]; unfold OperatorPtrEqual; simpl;
    rewrite ?String.eqb_refl; try reflexivity.
  destruct ty; reflexivity.
Qed.

(** C6: [opposite] maps every variant as the operator algebra prescribes, and
    applying it twice gives an operator that the tabu equality identifies with
    the original and that carries the original delta. *)
Theorem opposite_twice (op : Operator) :
  match op with
  | AddArc s t d => opposite op = RemoveArc s t (dneg d)
  | RemoveArc s t d => opposite op = AddArc s t (dneg d)
  | FlipArc s t d => opposite op = FlipArc t s (dneg d)
  | ChangeNodeType n ty d => opposite op = ChangeNodeType n (FactorType.opposite ty) (dneg d)
  end
  /\ OperatorPtrEqual (opposite (opposite op)) op = true
  /\ delta (opposite (opposite op)) = delta op.
Proof.
  destruct op as [s t d|s t d|s t d|n ty d];
    cbv beta iota delta [opposite AddArc_opposite RemoveArc_opposite
                         FlipArc_opposite ChangeNodeType_opposite delta];
    rewrite dneg_involutive, ?FactorType_opposite_involutive;
    (split; [reflexivity | split; [apply OperatorPtrEqual_refl | reflexivity]]).
Qed.

Lemma OperatorPtrEqual_identity a b : OperatorPtrEqual a b = true <-> same_identity a b.
Proof.
  unfold same_identity.
  destruct a as [s t d|s t d|s t d|n ty d], b as [s' t' d'|s' t' d'|s' t' d'|n' ty' d'];
    unfold OperatorPtrEqual; cbn [type arc_fields node_fields];
    try (cbv [OperatorType.eqb OperatorType.to_Z Z.eqb negb];
         split; [discriminate | intros (H & _); discriminate]);
    cbv [OperatorType.eqb OperatorType.to_Z Z.eqb negb Pos.eqb].
  1-3: destruct (String.eqb_spec s s') as [E1|E1], (String.eqb_spec t t') as [E2|E2];
       subst; simpl; (split; [intros H; try discriminate; auto | intros (_ & H & _); congruence]).
  destruct (String.eqb_spec n n') as [E1|E1]; subst; simpl.
  - destruct ty, ty'; simpl; split; intros H; auto; try discriminate;
      destruct H as (_ & _ & H); discriminate.
  - split; [discriminate | intros (_ & _ & H); congruence].
Qed.

(** C7: the tabu equality is exactly agreement on the kind and on the identifying
    fields, it ignores the deltas, and equal operators hash alike whatever
    [std::hash<std::string>] is. *)
Theorem tabu_identity (a b : Operator) :
  (OperatorPtrEqual a b = true <-> same_identity a b)
  /\ (forall da db, OperatorPtrEqual (with_op_delta a da) (with_op_delta b db)
                    = OperatorPtrEqual a b)
  /\ (forall hasher, OperatorPtrEqual a b = true -> HashOperator hasher a = HashOperator hasher b).
Proof.
  split; [apply OperatorPtrEqual_identity|]. split.
  - intros da db. destruct a, b; reflexivity.
  - intros hasher H. apply OperatorPtrEqual_identity in H.
    destruct H as (Hk & Ha & Hn).
    destruct a, b; cbn in Hk, Ha, Hn; try discriminate;
      inversion Ha; inversion Hn; subst; reflexivity.
Qed.

(** ** Sorting and its comparator *)

Lemma In_insert_sorted comp x y l : In x (insert_sorted comp y l) <-> x = y \/ In x l.
Proof.
  induction l as [|z r IH]; cbn [insert_sorted].
  - simpl. intuition.
  - destruct (comp y z); simpl; [intuition|]. rewrite IH. simpl. intuition.
Qed.

Lemma In_std_sort comp x l : In x (std_sort comp l) <-> In x l.
Proof.
  unfold std_sort. induction l as [|y r IH]; cbn [fold_right]; [reflexivity|].
  rewrite In_insert_sorted, IH. simpl. intuition.
Qed.

(** C10: the comparator handed to [std::sort] is not irreflexive: it holds
    between an index and itself as soon as the delta there is not NaN, for
    instance for the delta 0.0. *)
Theorem delta_order_reflexive_at_zero :
  (forall delta_ptr i, is_nan (nth i delta_ptr 0%float) = false ->
                       delta_order delta_ptr i i = true)
  /\ delta_order [0%float] 0 0 = true.
Proof.
  split.
  - intros delta_ptr i Hnan. unfold delta_order. apply dge_refl. exact Hnan.
  - reflexivity.
Qed.

(** ** The local score cache *)

(** C8, as stated, fails: the constructor sizes the vector and writes nothing,
    so a cache allocated over storage that held 7.0 reads 7.0, not 0.0. *)
Lemma fresh_cache_not_zeroed :
  ~ (forall i, i < num_nodes Example.empty_model ->
               LocalScoreCache.local_score
                 (LocalScoreCache.new Example.empty_model Example.storage) i = 0%float).
Proof.
  intros H. specialize (H 0 (Nat.lt_0_succ 1)).
  apply (f_equal (fun x => PrimFloat.eqb x 0%float)) in H. vm_compute in H. discriminate.
Qed.

Lemma fold_add_zero n : fold_left PrimFloat.add (repeat 0%float n) 0%float = 0%float.
Proof. induction n as [|n IH]; [reflexivity|]. cbn [repeat fold_left]. exact IH. Qed.

(** C8, as the code has it: a fresh cache has one entry per node and holds at
    every index what its storage held; its entries and its sum are 0.0 when
    that storage was zero. *)
Theorem fresh_cache_holds_storage (model : Model) (storage : nat -> double) :
  length (LocalScoreCache.new model storage) = num_nodes model
  /\ (forall i, i < num_nodes model ->
                LocalScoreCache.local_score (LocalScoreCache.new model storage) i = storage i)
  /\ ((forall i, i < num_nodes model -> storage i = 0%float) ->
      (forall i, i < num_nodes model ->
                 LocalScoreCache.local_score (LocalScoreCache.new model storage) i = 0%float)
      /\ LocalScoreCache.sum (LocalScoreCache.new model storage) = 0%float).
Proof.
  unfold LocalScoreCache.new, LocalScoreCache.local_score.
  assert (Hnth : forall i, i < num_nodes model ->
                           nth i (map storage (seq 0 (num_nodes model))) 0%float = storage i).
  { intros i Hi.
    rewrite (nth_indep _ 0%float (storage 0)) by (rewrite length_map, length_seq; exact Hi).
    rewrite map_nth, seq_nth by exact Hi. reflexivity. }
  split; [rewrite length_map, length_seq; reflexivity|].
  split; [exact Hnth|].
  intros Hz. split; [intros i Hi; rewrite Hnth by exact Hi; apply Hz; exact Hi|].
  assert (E : map storage (seq 0 (num_nodes model)) = repeat 0%float (num_nodes model)).
  { apply (nth_ext _ _ 0%float 0%float).
    - rewrite length_map, length_seq, repeat_length. reflexivity.
    - intros i Hi. rewrite length_map, length_seq in Hi.
      rewrite Hnth, nth_repeat by exact Hi. apply Hz. exact Hi. }
  rewrite E. unfold LocalScoreCache.sum.
  destruct (num_nodes model) as [|n]; [reflexivity|]. cbn [repeat]. apply fold_add_zero.
Qed.

(** ** Dense storage *)

Section AssignFacts.

Variable A : Type.

Lemma length_assign (l : list A) k v : length (assign l k v) = length l.
Proof.
  revert k; induction l as [|x r IH]; intros [|k]; cbn [assign length]; auto.
Qed.

Lemma nth_assign_same (l : list A) k v d : k < length l -> nth k (assign l k v) d = v.
Proof.
  revert k; induction l as [|x r IH]; intros [|k] H; cbn in *; try lia; auto.
  apply IH. lia.
Qed.

Lemma nth_assign_other (l : list A) k k' v d : k <> k' -> nth k' (assign l k v) d = nth k' l d.
Proof.
  revert k k'; induction l as [|x r IH]; intros [|k] [|k'] H; cbn; try lia; auto.
Qed.

Lemma nth_assign_cases (l : list A) k k' v d :
  nth k' (assign l k v) d = v \/ nth k' (assign l k v) d = nth k' l d.
Proof.
  destruct (Nat.eq_dec k k') as [->|Hne].
  - destruct (Nat.lt_ge_cases k' (length l)) as [Hlt|Hge].
    + left. apply nth_assign_same. exact Hlt.
    + right. rewrite !nth_overflow; rewrite ?length_assign; auto.
  - right. apply nth_assign_other. exact Hne.
Qed.

Lemma fold_left_invariant (B : Type) (f : A -> B -> A) (P : A -> Prop) l st :
  P st -> (forall st x, In x l -> P st -> P (f st x)) -> P (fold_left f l st).
Proof.
  revert st; induction l as [|y r IH]; intros st H Hstep; cbn [fold_left]; [exact H|].
  apply IH; [apply Hstep; [left; reflexivity | exact H]|].
  intros st' x Hx. apply Hstep. right. exact Hx.
Qed.

Lemma fold_left_establish (B : Type) (f : A -> B -> A) (I P : A -> Prop) l e st :
  In e l -> I st ->
  (forall st x, I st -> I (f st x)) ->
  (forall st, I st -> P (f st e)) ->
  (forall st x, I st -> P st -> P (f st x)) ->
  P (fold_left f l st).
Proof.
  intros Hin HI Hinv Hest Hkeep. revert st HI.
  induction l as [|y r IH]; intros st HI; [destruct Hin|].
  cbn [fold_left]. destruct Hin as [->|Hin].
  - apply (fold_left_invariant _ (fun st => I st /\ P st)).
    + split; [apply Hinv; exact HI | apply Hest; exact HI].
    + intros st' x _ [HI' HP']. split; [apply Hinv; exact HI' | apply Hkeep; assumption].
  - apply IH; [exact Hin | apply Hinv; exact HI].
Qed.

End AssignFacts.

(** ** The constructor of the arc set, read with the names of its definition *)

Section Knockout.

Variable n : nat.

Lemma shaped_set (st : Matrix bool * Matrix double) i j i' j' :
  shaped n st ->
  shaped n (set_coeff (fst st) i j false, set_coeff (snd st) i' j' lowest).
Proof.
  intros (H1 & H2 & H3 & H4). unfold shaped, set_coeff.
  cbn [fst snd rows coeffs] in *. rewrite !length_assign. auto.
Qed.

Lemma cleared_set_here (st : Matrix bool * Matrix double) i j :
  shaped n st -> i < n -> j < n ->
  cleared i j (set_coeff (fst st) i j false, set_coeff (snd st) i j lowest).
Proof.
  intros (H1 & H2 & H3 & H4) Hi Hj. unfold cleared, coeff, set_coeff, offset.
  cbn [fst snd rows coeffs] in *.
  rewrite H1, H3. split; apply nth_assign_same; nia.
Qed.

Lemma cleared_set_keep (st : Matrix bool * Matrix double) i j i1 j1 i2 j2 :
  cleared i j st ->
  cleared i j (set_coeff (fst st) i1 j1 false, set_coeff (snd st) i2 j2 lowest).
Proof.
  intros (Hv & Hd). unfold cleared, coeff, set_coeff, offset in *.
  cbn [fst snd rows coeffs] in *. split.
  - destruct (nth_assign_cases (coeffs (fst st)) (i1 + j1 * rows (fst st))
                               (i + j * rows (fst st)) false false) as [E|E];
      [exact E | exact (eq_trans E Hv)].
  - destruct (nth_assign_cases (coeffs (snd st)) (i2 + j2 * rows (snd st))
                               (i + j * rows (snd st)) lowest 0%float) as [E|E];
      [exact E | exact (eq_trans E Hd)].
Qed.

Variable model : Model.

Lemma shaped_knock_out_both st e : shaped n st -> shaped n (ArcOperatorSet.knock_out_both model st e).
Proof.
  intros H. unfold ArcOperatorSet.knock_out_both.
  apply (shaped_set (st := (set_coeff (fst st) _ _ false, set_coeff (snd st) _ _ lowest))).
  apply shaped_set. exact H.
Qed.

Lemma shaped_knock_out_one st e : shaped n st -> shaped n (ArcOperatorSet.knock_out_one model st e).
Proof. intros H. apply shaped_set. exact H. Qed.

Lemma shaped_knock_out_diagonal st i : shaped n st -> shaped n (ArcOperatorSet.knock_out_diagonal st i).
Proof. intros H. apply shaped_set. exact H. Qed.

Lemma cleared_knock_out_both i j st e :
  cleared i j st -> cleared i j (ArcOperatorSet.knock_out_both model st e).
Proof.
  intros H. unfold ArcOperatorSet.knock_out_both.
  apply (cleared_set_keep (st := (set_coeff (fst st) _ _ false, set_coeff (snd st) _ _ lowest))).
  apply cleared_set_keep. exact H.
Qed.

Lemma cleared_knock_out_one i j st e :
  cleared i j st -> cleared i j (ArcOperatorSet.knock_out_one model st e).
Proof. intros H. apply cleared_set_keep. exact H. Qed.

Lemma cleared_knock_out_diagonal i j st k :
  cleared i j st -> cleared i j (ArcOperatorSet.knock_out_diagonal st k).
Proof. intros H. apply cleared_set_keep. exact H. Qed.

End Knockout.

Lemma In_linearized_valid n v idx :
  In idx (ArcOperatorSet.linearized_valid n v)
  <-> exists i j, i < n /\ j < n /\ coeff false v i j = true /\ idx = i + j * n.
Proof.
  unfold ArcOperatorSet.linearized_valid. rewrite in_flat_map. split.
  - intros (i & Hi & Hin). apply in_map_iff in Hin. destruct Hin as (j & <- & Hj).
    apply filter_In in Hj. destruct Hj as (Hj & Hv).
    apply in_seq in Hi. apply in_seq in Hj.
    exists i, j. repeat split; try lia. exact Hv.
  - intros (i & j & Hi & Hj & Hv & ->). exists i. split; [apply in_seq; lia|].
    apply in_map_iff. exists j. split; [reflexivity|].
    apply filter_In. split; [apply in_seq; lia | exact Hv].
Qed.

Lemma new_indices_in_range model score blacklist whitelist max_indegree storage s :
  ArcOperatorSet.new model score blacklist whitelist max_indegree storage = Some s ->
  indices_in_range model s.
Proof.
  unfold ArcOperatorSet.new. destruct (reserve_ok _); [|discriminate].
  intros H; inversion H; subst; clear H. intros idx Hin. cbn [ArcOperatorSet.sorted_idx] in Hin.
  apply In_linearized_valid in Hin. destruct Hin as (i & j & Hi & Hj & _ & ->). nia.
Qed.

(** With the arguments bound as the definition names them, the constructor
    knocks out both directions of every [whitelist] arc, the stated direction
    of every [blacklist] arc and the diagonal, and [sorted_idx] lists exactly
    the cells left valid. *)
Lemma new_in_definition_order model score blacklist whitelist max_indegree storage s :
  ArcOperatorSet.new model score blacklist whitelist max_indegree storage = Some s ->
  let st := (ArcOperatorSet.valid_op s, ArcOperatorSet.delta s) in
  let n := num_nodes model in
  (forall a b, In (a, b) whitelist -> index model a < n -> index model b < n ->
               cleared (index model a) (index model b) st
               /\ cleared (index model b) (index model a) st)
  /\ (forall a b, In (a, b) blacklist -> index model a < n -> index model b < n ->
                  cleared (index model a) (index model b) st)
  /\ (forall i, i < n -> cleared i i st)
  /\ (forall idx, In idx (ArcOperatorSet.sorted_idx s)
                  <-> exists i j, i < n /\ j < n
                                  /\ coeff false (ArcOperatorSet.valid_op s) i j = true
                                  /\ idx = i + j * n).
Proof.
  unfold ArcOperatorSet.new. destruct (reserve_ok _); [|discriminate].
  intros H; inversion H; subst; clear H.
  cbn [ArcOperatorSet.valid_op ArcOperatorSet.delta ArcOperatorSet.sorted_idx].
  set (n := num_nodes model).
  set (st0 := ({| rows := n; coeffs := repeat true (n * n) |},
               {| rows := n; coeffs := map storage (seq 0 (n * n)) |})).
  set (st1 := fold_left (ArcOperatorSet.knock_out_both model) whitelist st0).
  set (st2 := fold_left (ArcOperatorSet.knock_out_one model) blacklist st1).
  set (st3 := fold_left ArcOperatorSet.knock_out_diagonal (seq 0 n) st2).
  assert (S0 : shaped n st0).
  { unfold shaped, st0. cbn [fst snd rows coeffs].
    rewrite repeat_length, length_map, length_seq. auto. }
  assert (S1 : shaped n st1).
  { apply fold_left_invariant; [exact S0|]. intros; apply shaped_knock_out_both; assumption. }
  assert (S2 : shaped n st2).
  { apply fold_left_invariant; [exact S1|]. intros; apply shaped_knock_out_one; assumption. }
  assert (K12 : forall i j, cleared i j st1 -> cleared i j st2).
  { intros i j Hc. apply fold_left_invariant; [exact Hc|].
    intros; apply cleared_knock_out_one; assumption. }
  assert (K23 : forall i j, cleared i j st2 -> cleared i j st3).
  { intros i j Hc. apply fold_left_invariant; [exact Hc|].
    intros; apply cleared_knock_out_diagonal; assumption. }
  replace (fst st3, snd st3) with st3 by (destruct st3; reflexivity).
  split; [|split; [|split]].
  - intros a b Hin Ha Hb. split; apply K23, K12.
    + apply (fold_left_establish (ArcOperatorSet.knock_out_both model) (shaped n)
               (cleared (index model a) (index model b)) whitelist (a, b)); auto.
      * intros; apply shaped_knock_out_both; assumption.
      * intros st HS. unfold ArcOperatorSet.knock_out_both. cbn [fst snd].
        apply (cleared_set_keep
                 (st := (set_coeff (fst st) _ _ false, set_coeff (snd st) _ _ lowest))).
        apply (cleared_set_here (n := n)); assumption.
      * intros; apply cleared_knock_out_both; assumption.
    + apply (fold_left_establish (ArcOperatorSet.knock_out_both model) (shaped n)
               (cleared (index model b) (index model a)) whitelist (a, b)); auto.
      * intros; apply shaped_knock_out_both; assumption.
      * intros st HS. unfold ArcOperatorSet.knock_out_both. cbn [fst snd].
        apply (cleared_set_here (n := n)
                 (st := (set_coeff (fst st) _ _ false, set_coeff (snd st) _ _ lowest)));
          [apply shaped_set; exact HS | assumption | assumption].
      * intros; apply cleared_knock_out_both; assumption.
  - intros a b Hin Ha Hb. apply K23.
    apply (fold_left_establish (ArcOperatorSet.knock_out_one model) (shaped n)
             (cleared (index model a) (index model b)) blacklist (a, b)); auto.
    + intros; apply shaped_knock_out_one; assumption.
    + intros st HS. apply (cleared_set_here (n := n)); assumption.
    + intros; apply cleared_knock_out_one; assumption.
  - intros i Hi.
    apply (fold_left_establish ArcOperatorSet.knock_out_diagonal (shaped n)
             (cleared i i) (seq 0 n) i); auto.
    + apply in_seq. lia.
    + intros; apply shaped_knock_out_diagonal; assumption.
    + intros st HS. apply (cleared_set_here (n := n)); assumption.
    + intros; apply cleared_knock_out_diagonal; assumption.
  - intros idx. apply In_linearized_valid.
Qed.

(** C3 at a failing input: the arguments are passed in the order of the
    declaration, whitelist before blacklist.  With the whitelist [A -> B] the
    cell (B, A) stays valid, keeps the content of the storage and is listed in
    [sorted_idx]; with the blacklist [A -> B] the cell (B, A) is knocked out too. *)
Theorem declared_order_swaps_lists :
  (exists s, ArcOperatorSet.new Example.empty_model Example.count_score
                                [("A", "B")]%string [] 0 Example.storage = Some s
             /\ coeff false (ArcOperatorSet.valid_op s) 0 1 = false
             /\ coeff false (ArcOperatorSet.valid_op s) 1 0 = true
             /\ coeff 0%float (ArcOperatorSet.delta s) 1 0 = 7%float
             /\ ArcOperatorSet.sorted_idx s = [1])
  /\ (exists s, ArcOperatorSet.new Example.empty_model Example.count_score
                                   [] [("A", "B")]%string 0 Example.storage = Some s
                /\ coeff false (ArcOperatorSet.valid_op s) 0 1 = false
                /\ coeff false (ArcOperatorSet.valid_op s) 1 0 = false
                /\ ArcOperatorSet.sorted_idx s = []).
Proof. split; eexists; (split; [reflexivity|]); vm_compute; repeat split. Qed.

(** ** The cached deltas of the arc set *)

(** C2 at a failing input: on the network with the single arc B -> A, after
    [OperatorPool::cache_scores] the valid cell (B, A) of the arc set holds 0.0,
    the delta of flipping the arc, where removing the arc scores -1.0. *)
Theorem cached_removal_cell_holds_flip :
  let model := Example.arc_model in
  let pool := Example.arc_pool model Example.count_score 0 in
  let s := Example.arc_set model Example.count_score 0 in
  let removal :=
    (local_score Example.count_score model 0
                 (filter (fun p => negb (Nat.eqb p 1)) (parent_indices model 0))
     - LocalScoreCache.local_score (OperatorPool.local_cache pool) 0)%float in
  coeff false (ArcOperatorSet.valid_op s) 1 0 = true
  /\ has_edge model 1 0 = true
  /\ removal = (-1)%float
  /\ coeff 0%float (ArcOperatorSet.delta s) 1 0 = 0%float.
Proof. vm_compute. repeat split. Qed.

(** ** The walk of the arc set *)

(** Case split on the tabu test that guards a [return] in hypothesis [H]. *)
Ltac case_contains H :=
  match type of H with
  | context [OperatorTabuSet.contains ?t ?o] =>
      destruct (OperatorTabuSet.contains t o) eqn:Et; cbn [negb] in H
  end.

Section ArcWalk.

Variable model : Model.
Variable s : ArcOperatorSet.t.

(** What the walk returns was built at one of the indices, and unless it is a
    removal its destination passed the in-degree test. *)
Lemma walk_some lim l op :
  ArcOperatorSet.walk lim model s l = Some op ->
  exists idx, In idx l /\ candidate model s idx = Some op
              /\ (type op = OperatorType.REMOVE_ARC
                  \/ ArcOperatorSet.indegree_full lim model s (idx / num_nodes model) = false).
Proof.
  induction l as [|idx rest IH]; cbn [ArcOperatorSet.walk]; [discriminate|].
  intros H.
  assert (Hrest : ArcOperatorSet.walk lim model s rest = Some op ->
                  exists i, In i (idx :: rest) /\ candidate model s i = Some op
                            /\ (type op = OperatorType.REMOVE_ARC
                                \/ ArcOperatorSet.indegree_full lim model s (i / num_nodes model) = false)).
  { intros Hr. destruct (IH Hr) as (i & Hi & Hc). exists i. split; [right; exact Hi | exact Hc]. }
  unfold candidate in *.
  destruct (has_edge model (idx mod num_nodes model) (idx / num_nodes model)) eqn:E1.
  - inversion H; subst. exists idx. rewrite E1. split; [left; reflexivity | split; [reflexivity | left; reflexivity]].
  - destruct (has_edge model (idx / num_nodes model) (idx mod num_nodes model)
              && can_flip_edge model (idx / num_nodes model) (idx mod num_nodes model)) eqn:E2.
    + destruct (ArcOperatorSet.indegree_full lim model s (idx / num_nodes model)) eqn:E3; [auto|].
      inversion H; subst. exists idx. rewrite E1, E2.
      split; [left; reflexivity | split; [reflexivity | right; exact E3]].
    + destruct (can_add_edge model (idx mod num_nodes model) (idx / num_nodes model)) eqn:E4; [|auto].
      destruct (ArcOperatorSet.indegree_full lim model s (idx / num_nodes model)) eqn:E3; [auto|].
      inversion H; subst. exists idx. rewrite E1, E2, E4.
      split; [left; reflexivity | split; [reflexivity | right; exact E3]].
Qed.

Lemma walk_tabu_some lim tabu_set l op :
  ArcOperatorSet.walk_tabu lim model s tabu_set l = Some op ->
  exists idx, In idx l /\ candidate model s idx = Some op
              /\ OperatorTabuSet.contains tabu_set op = false
              /\ (type op = OperatorType.REMOVE_ARC
                  \/ ArcOperatorSet.indegree_full lim model s (idx / num_nodes model) = false).
Proof.
  induction l as [|idx rest IH]; cbn [ArcOperatorSet.walk_tabu]; [discriminate|].
  intros H.
  assert (Hrest : ArcOperatorSet.walk_tabu lim model s tabu_set rest = Some op ->
                  exists i, In i (idx :: rest) /\ candidate model s i = Some op
                            /\ OperatorTabuSet.contains tabu_set op = false
                            /\ (type op = OperatorType.REMOVE_ARC
                                \/ ArcOperatorSet.indegree_full lim model s (i / num_nodes model) = false)).
  { intros Hr. destruct (IH Hr) as (i & Hi & Hc). exists i. split; [right; exact Hi | exact Hc]. }
  unfold candidate in *.
  destruct (has_edge model (idx mod num_nodes model) (idx / num_nodes model)) eqn:E1.
  - case_contains H; [auto|].
    inversion H; subst. exists idx. rewrite E1.
    split; [left; reflexivity | split; [reflexivity | split; [exact Et | left; reflexivity]]].
  - destruct (has_edge model (idx / num_nodes model) (idx mod num_nodes model)
              && can_flip_edge model (idx / num_nodes model) (idx mod num_nodes model)) eqn:E2.
    + destruct (ArcOperatorSet.indegree_full lim model s (idx / num_nodes model)) eqn:E3; [auto|].
      case_contains H; [auto|].
      inversion H; subst. exists idx. rewrite E1, E2.
      split; [left; reflexivity | split; [reflexivity | split; [exact Et | right; exact E3]]].
    + destruct (can_add_edge model (idx mod num_nodes model) (idx / num_nodes model)) eqn:E4; [|auto].
      destruct (ArcOperatorSet.indegree_full lim model s (idx / num_nodes model)) eqn:E3; [auto|].
      case_contains H; [auto|].
      inversion H; subst. exists idx. rewrite E1, E2, E4.
      split; [left; reflexivity | split; [reflexivity | split; [exact Et | right; exact E3]]].
Qed.

(** Without the in-degree test the walks return the first candidate, resp. the
    first candidate outside the tabu set. *)
Lemma walk_unlimited l :
  ArcOperatorSet.walk false model s l = first_allowed (fun _ => true) (candidate model s) l.
Proof.
  induction l as [|idx rest IH]; cbn [ArcOperatorSet.walk first_allowed]; [reflexivity|].
  unfold candidate, ArcOperatorSet.indegree_full. cbn [andb]. rewrite IH.
  repeat match goal with |- context [if ?b then _ else _] => destruct b end; reflexivity.
Qed.

Lemma walk_tabu_unlimited tabu_set l :
  ArcOperatorSet.walk_tabu false model s tabu_set l
  = first_allowed (fun op => negb (OperatorTabuSet.contains tabu_set op)) (candidate model s) l.
Proof.
  induction l as [|idx rest IH]; cbn [ArcOperatorSet.walk_tabu first_allowed]; [reflexivity|].
  unfold candidate, ArcOperatorSet.indegree_full. cbn [andb]. rewrite IH.
  repeat match goal with |- context [if ?b then _ else _] => destruct b end; reflexivity.
Qed.

(** When the tabu set holds every candidate that passes the in-degree test,
    the tabu walk finds nothing. *)
Lemma walk_tabu_all_forbidden lim tabu_set l :
  (forall idx op, In idx l -> candidate model s idx = Some op ->
                  type op = OperatorType.REMOVE_ARC
                  \/ ArcOperatorSet.indegree_full lim model s (idx / num_nodes model) = false ->
                  OperatorTabuSet.contains tabu_set op = true) ->
  ArcOperatorSet.walk_tabu lim model s tabu_set l = None.
Proof.
  induction l as [|idx rest IH]; intros H; cbn [ArcOperatorSet.walk_tabu]; [reflexivity|].
  assert (Hrest : ArcOperatorSet.walk_tabu lim model s tabu_set rest = None).
  { apply IH. intros i op Hi. apply H. right. exact Hi. }
  specialize (H idx). unfold candidate in H. cbn [In] in H.
  destruct (has_edge model (idx mod num_nodes model) (idx / num_nodes model)).
  - rewrite (H _ (or_introl eq_refl) eq_refl (or_introl eq_refl)). exact Hrest.
  - destruct (has_edge model (idx / num_nodes model) (idx mod num_nodes model)
              && can_flip_edge model (idx / num_nodes model) (idx mod num_nodes model)).
    + destruct (ArcOperatorSet.indegree_full lim model s (idx / num_nodes model)); [exact Hrest|].
      rewrite (H _ (or_introl eq_refl) eq_refl (or_intror eq_refl)). exact Hrest.
    + destruct (can_add_edge model (idx mod num_nodes model) (idx / num_nodes model)); [|exact Hrest].
      destruct (ArcOperatorSet.indegree_full lim model s (idx / num_nodes model)); [exact Hrest|].
      rewrite (H _ (or_introl eq_refl) eq_refl (or_intror eq_refl)). exact Hrest.
Qed.

End ArcWalk.

Lemma sort_idx_in_range model s :
  indices_in_range model s -> indices_in_range model (ArcOperatorSet.sort_idx s).
Proof.
  intros H idx Hin. apply H. cbn [ArcOperatorSet.sort_idx ArcOperatorSet.with_sorted_idx
    ArcOperatorSet.sorted_idx] in Hin. apply In_std_sort in Hin. exact Hin.
Qed.

(** The tabu overload of the arc set never returns a forbidden operator. *)
Lemma arc_find_max_tabu_outside_tabu model s tabu_set op :
  fst (ArcOperatorSet.find_max_tabu model s tabu_set) = Some op ->
  OperatorTabuSet.contains tabu_set op = false.
Proof.
  unfold ArcOperatorSet.find_max_tabu, ArcOperatorSet.find_max_indegree_tabu.
  destruct (ArcOperatorSet.max_indegree s >? 0)%Z; cbn [fst]; intros H;
    destruct (walk_tabu_some _ _ _ _ _ H) as (_ & _ & _ & Ht & _); exact Ht.
Qed.

Lemma forallb_false_at (A : Type) (f : A -> bool) (l : list A) (x : A) :
  In x l -> f x = false -> forallb f l = false.
Proof.
  intros Hin Hf. destruct (forallb f l) eqn:E; [|reflexivity].
  rewrite forallb_forall in E. rewrite (E x Hin) in Hf. discriminate.
Qed.

(** A range that holds an index whose delta is a number is outside the
    contract: [delta_order] relates the index to itself. *)
Lemma delta_order_outside_contract (delta_ptr : list double) (l : list nat) (idx : nat) :
  In idx l -> is_nan (nth idx delta_ptr 0%float) = false ->
  std_sort_call (delta_order delta_ptr) l = Undefined.
Proof.
  intros Hin Hn. unfold std_sort_call, strict_weak_ordering_on.
  replace (irreflexive_on (delta_order delta_ptr) l) with false; [reflexivity|].
  symmetry. apply (@forallb_false_at _ _ l idx Hin).
  unfold delta_order. rewrite dge_refl by exact Hn. reflexivity.
Qed.

(** C9: [find_max] returns null without an error when [sorted_idx] is empty.
    The second half of the claim fails: both overloads open with a [std::sort]
    under [delta_order], and as soon as the range holds an index whose delta
    is a number that call is outside the contract of [std::sort], so that C++
    does not define what the call does.  At the network of five nodes without
    arcs every one of the twenty candidate additions is in the tabu set and
    all deltas tie, the loop alone would return null, and the call of the
    tabu overload is undefined. *)
Theorem find_max_sorts_outside_contract :
  (forall model s tabu_set,
      ArcOperatorSet.sorted_idx s = [] ->
      (exists s', find_max_call model s = Returns (None, s'))
      /\ (exists s', find_max_tabu_call model s tabu_set = Returns (None, s')))
  /\ (forall model s tabu_set idx,
         In idx (ArcOperatorSet.sorted_idx s) ->
         is_nan (nth idx (coeffs (ArcOperatorSet.delta s)) 0%float) = false ->
         find_max_call model s = Undefined
         /\ find_max_tabu_call model s tabu_set = Undefined)
  /\ (length (ArcOperatorSet.sorted_idx Ties.arc_set) = 20
      /\ forallb (fun idx => match candidate Ties.model Ties.arc_set idx with
                             | Some op => OperatorTabuSet.contains Ties.tabu op
                             | None => false
                             end)
                 (ArcOperatorSet.sorted_idx Ties.arc_set) = true
      /\ forallb (fun i1 => forallb (delta_order (coeffs (ArcOperatorSet.delta Ties.arc_set)) i1)
                                    (ArcOperatorSet.sorted_idx Ties.arc_set))
                 (ArcOperatorSet.sorted_idx Ties.arc_set) = true
      /\ fst (ArcOperatorSet.find_max_tabu Ties.model Ties.arc_set Ties.tabu) = None
      /\ find_max_tabu_call Ties.model Ties.arc_set Ties.tabu = Undefined).
Proof.
  split; [|split].
  - intros model s tabu_set He. unfold find_max_call, find_max_tabu_call, std_sort_call.
    rewrite He. cbn [strict_weak_ordering_on irreflexive_on transitive_on
                     incomparability_transitive_on forallb andb].
    unfold ArcOperatorSet.find_max, ArcOperatorSet.find_max_tabu,
      ArcOperatorSet.find_max_indegree, ArcOperatorSet.find_max_indegree_tabu,
      ArcOperatorSet.sort_idx. rewrite He.
    destruct (ArcOperatorSet.max_indegree s >? 0)%Z; split; eexists; reflexivity.
  - intros model s tabu_set idx Hin Hn. unfold find_max_call, find_max_tabu_call.
    rewrite (delta_order_outside_contract _ _ _ Hin Hn). split; reflexivity.
  - split; [vm_compute; reflexivity|]. split; [vm_compute; reflexivity|].
    split; [vm_compute; reflexivity|]. split; vm_compute; reflexivity.
Qed.

(** ** The in-degree limit *)

Lemma num_parents_remove_edge m s t v :
  (num_parents (remove_edge m s t) v <= num_parents m v)%Z.
Proof.
  unfold num_parents, remove_edge, with_parents. cbn [parent_indices].
  destruct (Nat.eqb_spec v t) as [->|_]; [|lia].
  apply inj_le, filter_length_le.
Qed.

Lemma num_parents_add_edge m s t v :
  num_parents (add_edge m s t) v
  = (num_parents m v + (if Nat.eqb v t then 1 else 0))%Z.
Proof.
  unfold num_parents, add_edge, with_parents. cbn [parent_indices].
  destruct (Nat.eqb_spec v t) as [->|_]; [|lia].
  rewrite length_app. simpl. lia.
Qed.

Lemma linear_index_split n idx :
  idx < n * n -> idx mod n < n /\ idx / n < n.
Proof.
  intros H. assert (n <> 0) by lia. split.
  - apply Nat.mod_upper_bound. assumption.
  - apply Nat.Div0.div_lt_upper_bound. lia.
Qed.

Lemma candidate_guarded model s idx op :
  well_named model -> idx < num_nodes model * num_nodes model ->
  candidate model s idx = Some op ->
  (type op = OperatorType.REMOVE_ARC
   \/ ArcOperatorSet.indegree_full true model s (idx / num_nodes model) = false) ->
  (forall sn tn d, op = AddArc sn tn d ->
                   (num_parents model (index model tn) < ArcOperatorSet.max_indegree s)%Z)
  /\ (forall tn sn d, op = FlipArc tn sn d ->
                      (num_parents model (index model tn) < ArcOperatorSet.max_indegree s)%Z)
  /\ (forall v, (num_parents (apply op model) v
                 <= Z.max (num_parents model v) (ArcOperatorSet.max_indegree s))%Z).
Proof.
  intros Hwn Hidx Hc Hpass.
  destruct (linear_index_split _ Hidx) as [Hs Hd].
  pose proof (Hwn _ Hs) as Is. pose proof (Hwn _ Hd) as Id.
  assert (Hfull : type op <> OperatorType.REMOVE_ARC ->
                  (num_parents model (idx / num_nodes model) < ArcOperatorSet.max_indegree s)%Z).
  { intros Hne. destruct Hpass as [Hp|Hp]; [contradiction|].
    unfold ArcOperatorSet.indegree_full in Hp. cbn [andb] in Hp.
    rewrite Z.geb_leb in Hp. apply Z.leb_gt in Hp. exact Hp. }
  unfold candidate in Hc.
  destruct (has_edge model (idx mod num_nodes model) (idx / num_nodes model));
    [|destruct (has_edge model (idx / num_nodes model) (idx mod num_nodes model)
               && can_flip_edge model (idx / num_nodes model) (idx mod num_nodes model));
      [|destruct (can_add_edge model (idx mod num_nodes model) (idx / num_nodes model));
        [|discriminate]]];
    inversion Hc; subst op; clear Hc;
    (split; [intros sn tn d E; inversion E; subst; rewrite Id; apply Hfull; discriminate
            |split; [intros tn sn d E; inversion E; subst; rewrite Id; apply Hfull; discriminate|]]);
    intros v; cbn [apply]; rewrite Is, Id.
  - pose proof (num_parents_remove_edge model (idx mod num_nodes model) (idx / num_nodes model) v). lia.
  - rewrite num_parents_add_edge.
    pose proof (num_parents_remove_edge model (idx / num_nodes model) (idx mod num_nodes model) v) as Hv.
    pose proof (num_parents_remove_edge model (idx / num_nodes model) (idx mod num_nodes model)
                                        (idx / num_nodes model)) as Hdst.
    assert (Hlt := Hfull ltac:(discriminate)). cbn [type] in Hlt.
    destruct (Nat.eqb_spec v (idx / num_nodes model)) as [->|_]; lia.
  - rewrite num_parents_add_edge.
    assert (Hlt := Hfull ltac:(discriminate)).
    destruct (Nat.eqb_spec v (idx / num_nodes model)) as [->|_]; lia.
Qed.

(** C5: on a well-named model and an arc set whose indices address cells of
    the matrix, [find_max] respects [max_indegree] as [indegree_respected]
    spells out: additions and flips are returned only for a node with room for
    one more parent, applying the returned operator pushes no parent count past
    [max_indegree], and [max_indegree = 0] switches the test off. *)
Theorem find_max_respects_max_indegree model s tabu_set :
  well_named model -> indices_in_range model s -> indegree_respected model s tabu_set.
Proof.
  intros Hwn Hrange. split.
  - intros op Hop Hpos.
    assert (Hlim : (ArcOperatorSet.max_indegree s >? 0)%Z = true) by (apply Z.gtb_lt; lia).
    unfold ArcOperatorSet.find_max, ArcOperatorSet.find_max_tabu in Hop. rewrite Hlim in Hop.
    cbn [ArcOperatorSet.find_max_indegree ArcOperatorSet.find_max_indegree_tabu fst] in Hop.
    assert (Hex : exists idx, In idx (ArcOperatorSet.sorted_idx s)
                              /\ candidate model s idx = Some op
                              /\ (type op = OperatorType.REMOVE_ARC
                                  \/ ArcOperatorSet.indegree_full true model s
                                       (idx / num_nodes model) = false)).
    { destruct Hop as [Hop|Hop].
      - destruct (walk_some _ _ _ _ Hop) as (idx & Hin & Hc & Hp).
        exists idx. split; [|split; [exact Hc | exact Hp]].
        apply In_std_sort in Hin. exact Hin.
      - destruct (walk_tabu_some _ _ _ _ _ Hop) as (idx & Hin & Hc & _ & Hp).
        exists idx. split; [|split; [exact Hc | exact Hp]].
        apply In_std_sort in Hin. exact Hin. }
    destruct Hex as (idx & Hin & Hc & Hp).
    exact (@candidate_guarded _ _ _ _ Hwn (Hrange _ Hin) Hc Hp).
  - intros Hzero.
    unfold ArcOperatorSet.find_max, ArcOperatorSet.find_max_tabu. rewrite Hzero.
    cbn [Z.gtb Z.compare ArcOperatorSet.find_max_indegree ArcOperatorSet.find_max_indegree_tabu fst].
    rewrite walk_unlimited, walk_tabu_unlimited. split; reflexivity.
Qed.

(** The theorem at the two-node network without arcs, [max_indegree = 1]. *)
Lemma find_max_respects_max_indegree_example :
  indegree_respected Example.empty_model
    (Example.arc_set Example.empty_model Example.count_score 1) [].
Proof.
  apply find_max_respects_max_indegree.
  - intros [|[|i]] Hi; [reflexivity | reflexivity | cbn in Hi; lia].
  - intros idx Hin. vm_compute in Hin.
    destruct Hin as [<-|[<-|[]]]; cbn; lia.
Defined.

(** ** The node-type set *)

(** The tabu overload of the node-type set returns forbidden operators only:
    its loop tests [tabu_set.contains(op)] where the arc set tests the negation. *)
Lemma node_type_walk_tabu_inside_tabu model s tabu_set l op :
  ChangeNodeTypeSet.walk_tabu model s tabu_set l = Some op ->
  OperatorTabuSet.contains tabu_set op = true.
Proof.
  induction l as [|idx rest IH]; cbn [ChangeNodeTypeSet.walk_tabu]; [discriminate|].
  match goal with |- context [OperatorTabuSet.contains ?t ?o] =>
    destruct (OperatorTabuSet.contains t o) eqn:E end; [|exact IH].
  intros H; inversion H; subst. exact E.
Qed.

(** C1 at a failing input: the pool holds one node-type set over the nodes A
    and B, all deltas are 0.0, and the tabu set forbids turning B into a CKDE
    node.  The tabu overload returns exactly that forbidden operator, and skips
    the operator on A, which is not forbidden.  On every input the tabu
    overload of the node-type set returns forbidden operators only. *)
Theorem node_type_find_max_returns_tabu :
  (forall model s tabu_set op,
      fst (ChangeNodeTypeSet.find_max_tabu model s tabu_set) = Some op ->
      OperatorTabuSet.contains tabu_set op = true)
  /\ fst (OperatorPool.find_max_tabu Example.empty_model Example.type_pool Example.tabu_B)
     = Some (ChangeNodeType "B" FactorType.CKDE 0%float)
  /\ OperatorTabuSet.contains Example.tabu_B (ChangeNodeType "B" FactorType.CKDE 0%float) = true
  /\ OperatorTabuSet.contains Example.tabu_B (ChangeNodeType "A" FactorType.CKDE 0%float) = false.
Proof.
  split.
  - intros model s tabu_set op H. unfold ChangeNodeTypeSet.find_max_tabu in H. cbn [fst] in H.
    exact (node_type_walk_tabu_inside_tabu _ _ _ _ H).
  - vm_compute. repeat split.
Qed.

(** ** The pool *)

Lemma find_max_loop_best query max_delta max_op sets :
  fst (OperatorPool.find_max_loop query max_delta max_op sets)
  = best max_delta max_op (map (fun os => fst (query os)) sets).
Proof.
  revert max_delta max_op.
  induction sets as [|os rest IH]; intros max_delta max_op; [reflexivity|].
  cbn [OperatorPool.find_max_loop map best].
  destruct (query os) as [[op|] os']; cbn [fst].
  - destruct (dgt (delta op) max_delta).
    + rewrite <- IH.
      destruct (OperatorPool.find_max_loop query (delta op) (Some op) rest); reflexivity.
    + rewrite <- IH.
      destruct (OperatorPool.find_max_loop query max_delta max_op rest); reflexivity.
  - rewrite <- IH.
    destruct (OperatorPool.find_max_loop query max_delta max_op rest); reflexivity.
Qed.

Lemma best_none max_delta answers :
  best max_delta None answers = None
  <-> forall o, In (Some o) answers -> dgt (delta o) max_delta = false.
Proof.
  induction answers as [|[op|] rest IH]; cbn [best].
  - split; [intros _ o [] | reflexivity].
  - destruct (dgt (delta op) max_delta) eqn:E.
    + split.
      * intros H. exfalso. clear IH E. revert H. generalize (delta op). generalize op.
        induction rest as [|[x|] r IHr]; cbn [best]; intros o d H; try discriminate.
        -- destruct (dgt (delta x) d); eauto.
        -- eauto.
      * intros H. rewrite (H op (or_introl eq_refl)) in E. discriminate.
    + rewrite IH. split.
      * intros H o [Ho|Ho]; [inversion Ho; subst; exact E | auto].
      * intros H o Ho. apply H. right. exact Ho.
  - rewrite IH. split.
    + intros H o [Ho|Ho]; [discriminate | auto].
    + intros H o Ho. apply H. right. exact Ho.
Qed.

Lemma best_some low max_delta max_op answers op :
  best max_delta max_op answers = Some op ->
  (max_op = Some op /\ forall o, In (Some o) answers -> dgt (delta o) max_delta = false)
  \/ exists pre post,
       answers = pre ++ Some op :: post
       /\ dgt (delta op) max_delta = true
       /\ (forall o, In (Some o) pre -> dgt (delta o) low = true -> dgt (delta op) (delta o) = true)
       /\ (forall o, In (Some o) post -> dgt (delta o) (delta op) = false).
Proof.
  revert max_delta max_op.
  induction answers as [|[x|] rest IH]; intros max_delta max_op; cbn [best]; intros H.
  - left. split; [exact H | intros o []].
  - destruct (dgt (delta x) max_delta) eqn:E.
    + right. destruct (IH _ _ H) as [(Hop & Hrest) | (pre & post & -> & Hgt & Hpre & Hpost)].
      * inversion Hop; subst x. exists [], rest.
        split; [reflexivity | split; [exact E | split; [intros o [] | exact Hrest]]].
      * exists (Some x :: pre), post.
        split; [reflexivity | split; [exact (@dgt_trans _ _ _ Hgt E) | split; [|exact Hpost]]].
        intros o [Ho|Ho] Hlow; [inversion Ho; subst; exact Hgt | auto].
    + destruct (IH _ _ H) as [(Hop & Hrest) | (pre & post & -> & Hgt & Hpre & Hpost)].
      * left. split; [exact Hop|]. intros o [Ho|Ho]; [inversion Ho; subst; exact E | auto].
      * right. exists (Some x :: pre), post.
        split; [reflexivity | split; [exact Hgt | split; [|exact Hpost]]].
        intros o [Ho|Ho] Hlow; [inversion Ho; subst | auto].
        exact (@dgt_below _ _ _ _ Hlow E Hgt).
  - destruct (IH _ _ H) as [(Hop & Hrest) | (pre & post & -> & Hgt & Hpre & Hpost)].
    + left. split; [exact Hop|]. intros o [Ho|Ho]; [discriminate | auto].
    + right. exists (None :: pre), post.
      split; [reflexivity | split; [exact Hgt | split; [|exact Hpost]]].
      intros o [Ho|Ho] Hlow; [discriminate | auto].
Qed.

Lemma best_is_best_answer answers : best_answer answers (best lowest None answers).
Proof.
  split; [apply best_none|].
  intros op H. destruct (@best_some lowest _ _ _ _ H) as [(Habs & _) | Hex]; [discriminate|].
  exact Hex.
Qed.

(** C4, as the code has it: each overload of [OperatorPool::find_max] queries
    every set in pool order and returns the best answer among those whose delta
    exceeds [lowest()]: an answer that exceeds every eligible answer of an
    earlier set and that no answer of a later set exceeds.  The result is null
    exactly when no set gives an eligible answer.  With an empty tabu set the
    tabu overload is the plain overload. *)
Theorem pool_find_max_best (model : Model) (p : OperatorPool.t) (tabu_set : OperatorTabuSet.t) :
  best_answer (map (fun os => fst (set_find_max model os)) (OperatorPool.m_op_sets p))
              (fst (OperatorPool.find_max model p))
  /\ (OperatorTabuSet.empty tabu_set = false ->
      best_answer (map (fun os => fst (set_find_max_tabu model tabu_set os))
                       (OperatorPool.m_op_sets p))
                  (fst (OperatorPool.find_max_tabu model p tabu_set)))
  /\ (OperatorTabuSet.empty tabu_set = true ->
      OperatorPool.find_max_tabu model p tabu_set = OperatorPool.find_max model p).
Proof.
  assert (Hloop : forall query,
             fst (let (max_op, sets) :=
                    OperatorPool.find_max_loop query lowest None (OperatorPool.m_op_sets p) in
                  (max_op, OperatorPool.with_sets p sets))
             = best lowest None (map (fun os => fst (query os)) (OperatorPool.m_op_sets p))).
  { intros query. rewrite <- find_max_loop_best.
    destruct (OperatorPool.find_max_loop query lowest None (OperatorPool.m_op_sets p));
      reflexivity. }
  split; [|split].
  - unfold OperatorPool.find_max. rewrite Hloop. apply best_is_best_answer.
  - intros He. unfold OperatorPool.find_max_tabu. rewrite He, Hloop. apply best_is_best_answer.
  - intros He. unfold OperatorPool.find_max_tabu. rewrite He. reflexivity.
Qed.

(** C4, as stated, fails: on degenerate data the arc set answers
    [AddArc A B] with delta minus infinity, which does not exceed [lowest()],
    and the pool returns null although a set did not. *)
Lemma pool_none_although_answered :
  ~ none_iff_all_none Example.empty_model
      (Example.arc_pool Example.empty_model Example.degenerate_score 0).
Proof.
  unfold none_iff_all_none. intros [H _].
  assert (E : fst (OperatorPool.find_max Example.empty_model
                     (Example.arc_pool Example.empty_model Example.degenerate_score 0)) = None)
    by (vm_compute; reflexivity).
  specialize (H E _ (or_introl eq_refl)). vm_compute in H. discriminate.
Qed.

(** * Further properties *)

(** ** The key equality and the tabu set *)
Lemma OperatorPtrEqual_sym a b : OperatorPtrEqual a b = OperatorPtrEqual b a.
Proof.
  destruct (OperatorPtrEqual a b) eqn:E1, (OperatorPtrEqual b a) eqn:E2; try reflexivity.
  - apply OperatorPtrEqual_identity in E1. destruct E1 as (H1 & H2 & H3).
    assert (H : same_identity b a) by (repeat split; symmetry; assumption).
    apply OperatorPtrEqual_identity in H. congruence.
  - apply OperatorPtrEqual_identity in E2. destruct E2 as (H1 & H2 & H3).
    assert (H : same_identity a b) by (repeat split; symmetry; assumption).
    apply OperatorPtrEqual_identity in H. congruence.
Qed.

Lemma OperatorPtrEqual_trans a b c :
  OperatorPtrEqual a b = true -> OperatorPtrEqual b c = true -> OperatorPtrEqual a c = true.
Proof.
  intros H1 H2. apply OperatorPtrEqual_identity in H1, H2. apply OperatorPtrEqual_identity.
  destruct H1 as (A1 & A2 & A3), H2 as (B1 & B2 & B3).
  repeat split; etransitivity; eassumption.
Qed.

(** X1: [OperatorPtrEqual], the key equality of the tabu map, is an equivalence
    relation on operators: reflexive, symmetric and transitive, as
    [std::unordered_map] requires of its [KeyEqual]. *)
Theorem OperatorPtrEqual_equivalence :
  (forall a, OperatorPtrEqual a a = true)
  /\ (forall a b, OperatorPtrEqual a b = OperatorPtrEqual b a)
  /\ (forall a b c, OperatorPtrEqual a b = true -> OperatorPtrEqual b c = true ->
                    OperatorPtrEqual a c = true).
Proof.
  split; [exact OperatorPtrEqual_refl|]. split; [exact OperatorPtrEqual_sym|].
  exact OperatorPtrEqual_trans.
Qed.

(** X2: an operator and its opposite are different keys of the tabu map, except
    for a [FlipArc] from a node to itself: [opposite] changes the kind of an arc
    addition or removal, swaps the ends of a flip and changes the factor type of
    a node-type change. *)
Theorem opposite_tabu_distinct (op : Operator) :
  OperatorPtrEqual (opposite op) op
  = match op with
    | FlipArc s t _ => String.eqb s t
    | _ => false
    end.
Proof.
  destruct op as [s t d|s t d|s t d|n ty d]; try reflexivity.
  - unfold OperatorPtrEqual. cbn. rewrite (String.eqb_sym t s).
    destruct (String.eqb s t); reflexivity.
  - unfold OperatorPtrEqual. cbn. rewrite String.eqb_refl. destruct ty; reflexivity.
Qed.

Lemma contains_equal m a b :
  OperatorPtrEqual a b = true -> OperatorTabuSet.contains m a = OperatorTabuSet.contains m b.
Proof.
  intros H. unfold OperatorTabuSet.contains. induction m as [|k r IH]; [reflexivity|].
  cbn [existsb]. rewrite IH. f_equal.
  destruct (OperatorPtrEqual k a) eqn:E1, (OperatorPtrEqual k b) eqn:E2; try reflexivity.
  - rewrite (@OperatorPtrEqual_trans _ _ _ E1 H) in E2. discriminate.
  - rewrite OperatorPtrEqual_sym in H. rewrite (@OperatorPtrEqual_trans _ _ _ E2 H) in E1. discriminate.
Qed.

Lemma contains_insert op m op' :
  OperatorTabuSet.contains (OperatorTabuSet.insert op m) op'
  = OperatorTabuSet.contains m op' || OperatorPtrEqual op op'.
Proof.
  unfold OperatorTabuSet.insert. destruct (OperatorTabuSet.contains m op) eqn:E.
  - destruct (OperatorPtrEqual op op') eqn:E'; [|rewrite orb_false_r; reflexivity].
    rewrite <- (@contains_equal m _ _ E'), E. reflexivity.
  - cbn [OperatorTabuSet.contains existsb]. apply orb_comm.
Qed.

(** X3: after [insert(op)] the tabu set contains what it contained before and the
    operators equal to [op] under [OperatorPtrEqual], and nothing else. *)
Theorem tabu_insert_then_contains (op op' : Operator) (m : OperatorTabuSet.t) :
  OperatorTabuSet.contains (OperatorTabuSet.insert op m) op'
  = OperatorTabuSet.contains m op' || OperatorPtrEqual op op'.
Proof. apply contains_insert. Qed.

Lemma contains_fold_insert l m op :
  OperatorTabuSet.contains (fold_left (fun m k => OperatorTabuSet.insert k m) l m) op
  = OperatorTabuSet.contains m op || OperatorTabuSet.contains l op.
Proof.
  revert m. induction l as [|k r IH]; intros m; cbn [fold_left].
  - cbn. rewrite orb_false_r. reflexivity.
  - rewrite IH, contains_insert. cbn [OperatorTabuSet.contains existsb].
    rewrite <- orb_assoc. reflexivity.
Qed.

Lemma distinct_insert op m : distinct_keys m -> distinct_keys (OperatorTabuSet.insert op m).
Proof.
  intros H. unfold OperatorTabuSet.insert. destruct (OperatorTabuSet.contains m op) eqn:E.
  - exact H.
  - split; assumption.
Qed.

(** X4: the copy constructor and the copy assignment from another object give
    a set with exactly the members of [other], whatever the assigned-to set
    held; the copy is empty exactly when [other] is, and its keys are pairwise
    different. *)
Theorem tabu_copy_same_members (self other : OperatorTabuSet.t) (op : Operator) :
  OperatorTabuSet.contains (OperatorTabuSetCopy.copy_construct other) op = OperatorTabuSet.contains other op
  /\ OperatorTabuSet.contains (OperatorTabuSetCopy.copy_assign self other) op
     = OperatorTabuSet.contains other op
  /\ OperatorTabuSet.empty (OperatorTabuSetCopy.copy_construct other) = OperatorTabuSet.empty other
  /\ distinct_keys (OperatorTabuSetCopy.copy_construct other).
Proof.
  unfold OperatorTabuSetCopy.copy_construct, OperatorTabuSetCopy.copy_assign,
    OperatorTabuSet.clear, OperatorTabuSet.empty_set.
  split; [|split; [|split]].
  - rewrite contains_fold_insert. reflexivity.
  - rewrite contains_fold_insert. reflexivity.
  - destruct other as [|k r]; [reflexivity|]. cbn [OperatorTabuSet.empty].
    pose proof (contains_fold_insert (k :: r) [] k) as H.
    destruct (fold_left (fun m k0 => OperatorTabuSet.insert k0 m) (k :: r) []) as [|x y];
      [|reflexivity].
    cbn [OperatorTabuSet.contains existsb] in H. rewrite OperatorPtrEqual_refl in H.
    discriminate.
  - apply (@fold_left_invariant _ _ (fun m k => OperatorTabuSet.insert k m) distinct_keys).
    + exact I.
    + intros st x _ H. apply distinct_insert. exact H.
Qed.

(** X5: [empty()] holds exactly when [contains] answers false for every operator;
    it does not hold after an [insert], and after [clear()] it holds and no
    operator is contained. *)
Theorem tabu_empty_iff (m : OperatorTabuSet.t) :
  (OperatorTabuSet.empty m = true <-> forall op, OperatorTabuSet.contains m op = false)
  /\ (forall op, OperatorTabuSet.empty (OperatorTabuSet.insert op m) = false)
  /\ OperatorTabuSet.empty (OperatorTabuSet.clear m) = true
  /\ (forall op, OperatorTabuSet.contains (OperatorTabuSet.clear m) op = false).
Proof.
  split; [|split; [|split]].
  - destruct m as [|k r]; cbn [OperatorTabuSet.empty]; split; auto.
    + discriminate.
    + intros H. specialize (H k). cbn [OperatorTabuSet.contains existsb] in H.
      rewrite OperatorPtrEqual_refl in H. discriminate.
  - intros op. unfold OperatorTabuSet.insert.
    destruct (OperatorTabuSet.contains m op) eqn:E; [|reflexivity].
    destruct m; [discriminate | reflexivity].
  - reflexivity.
  - reflexivity.
Qed.

(** ** Names and hashes of the kinds *)

(** X6: [ToString] and [Hash] of [OperatorType] and of [OperatorSetType] tell the
    enumerators apart: two values have the same name, and the same hash,
    exactly when [operator==] holds of them. *)
Theorem operator_kinds_told_apart :
  (forall a b, OperatorTypeOps.ToString a = OperatorTypeOps.ToString b
               <-> OperatorType.eqb a b = true)
  /\ (forall a b, OperatorTypeOps.Hash a = OperatorTypeOps.Hash b
                  <-> OperatorType.eqb a b = true)
  /\ (forall a b, OperatorSetType.ToString a = OperatorSetType.ToString b
                  <-> OperatorSetType.eqb a b = true)
  /\ (forall a b, OperatorSetType.Hash a = OperatorSetType.Hash b
                  <-> OperatorSetType.eqb a b = true).
Proof.
  split; [|split; [|split]]; intros [] []; split; intros H;
    try reflexivity; try discriminate H; vm_compute in H; discriminate H.
Qed.

(** ** The local score cache and the pool *)
Lemma nth_assign (A : Type) (l : list A) k i v d :
  nth i (assign l k v) d = if Nat.eqb k i && Nat.ltb k (length l) then v else nth i l d.
Proof.
  destruct (Nat.eqb_spec k i) as [->|Hne]; cbn [andb].
  - destruct (Nat.ltb_spec i (length l)) as [Hlt|Hge].
    + apply nth_assign_same. exact Hlt.
    + rewrite !nth_overflow; rewrite ?length_assign; auto.
  - apply nth_assign_other. exact Hne.
Qed.

Lemma cache_fold_nth (f : nat -> double) (l : list nat) (c : list double) i :
  NoDup l ->
  nth i (fold_left (fun c k => assign c k (f k)) l c) 0%float
  = if existsb (Nat.eqb i) l && Nat.ltb i (length c) then f i else nth i c 0%float.
Proof.
  revert c. induction l as [|k r IH]; intros c Hnd; cbn [fold_left existsb]; [reflexivity|].
  inversion Hnd as [|? ? Hk Hr]; subst.
  rewrite IH by exact Hr. rewrite length_assign, nth_assign.
  destruct (existsb (Nat.eqb i) r) eqn:Er; cbn [andb orb].
  - destruct (Nat.eqb_spec i k) as [->|Hne]; cbn [orb].
    + exfalso. apply Hk. apply existsb_exists in Er. destruct Er as (x & Hx & Ex).
      apply Nat.eqb_eq in Ex. subst. exact Hx.
    + destruct (Nat.ltb i (length c)); [reflexivity|].
      rewrite (proj2 (Nat.eqb_neq k i)) by auto. reflexivity.
  - rewrite orb_false_r. rewrite (Nat.eqb_sym k i).
    destruct (Nat.eqb_spec i k) as [->|Hne]; cbn [andb]; reflexivity.
Qed.

Lemma length_cache_fold (f : nat -> double) (l : list nat) (c : list double) :
  length (fold_left (fun c k => assign c k (f k)) l c) = length c.
Proof.
  revert c. induction l as [|k r IH]; intros c; cbn [fold_left]; [reflexivity|].
  rewrite IH. apply length_assign.
Qed.

Lemma cache_local_scores_nth model sc c i :
  LocalScoreCache.local_score (LocalScoreCache.cache_local_scores model sc c) i
  = if Nat.ltb i (num_nodes model) && Nat.ltb i (length c)
    then local_score_node sc model i else LocalScoreCache.local_score c i.
Proof.
  unfold LocalScoreCache.local_score, LocalScoreCache.cache_local_scores.
  rewrite (cache_fold_nth (local_score_node sc model)) by apply seq_NoDup.
  replace (existsb (Nat.eqb i) (seq 0 (num_nodes model))) with (Nat.ltb i (num_nodes model));
    [reflexivity|].
  destruct (Nat.ltb_spec i (num_nodes model)) as [Hlt|Hge]; symmetry.
  - apply existsb_exists. exists i. split; [apply in_seq; lia | apply Nat.eqb_refl].
  - apply not_true_is_false. intros H. apply existsb_exists in H.
    destruct H as (x & Hx & Ex). apply in_seq in Hx. apply Nat.eqb_eq in Ex. lia.
Qed.

(** X7: [OperatorPool::cache_scores] on a freshly constructed pool leaves a cache
    with one entry per node, each the local score of the node on the model,
    whatever the allocation held, and keeps the number of operator sets. *)
Theorem pool_cache_scores_fills_cache (model : Model) (score : Score)
        (op_sets : list OperatorSet) (storage : nat -> double) :
  let p := OperatorPool.cache_scores model (OperatorPool.new model score op_sets storage) in
  consistent score model (OperatorPool.local_cache p)
  /\ length (OperatorPool.m_op_sets p) = length op_sets.
Proof.
  cbn zeta. unfold OperatorPool.cache_scores, OperatorPool.new.
  cbn [OperatorPool.local_cache OperatorPool.m_op_sets OperatorPool.m_score].
  split; [split|].
  - unfold LocalScoreCache.cache_local_scores. rewrite length_cache_fold.
    unfold LocalScoreCache.new. rewrite length_map, length_seq. reflexivity.
  - intros i Hi. rewrite cache_local_scores_nth.
    unfold LocalScoreCache.new. rewrite length_map, length_seq.
    rewrite (proj2 (Nat.ltb_lt _ _) Hi). reflexivity.
  - apply length_map.
Qed.

Lemma update_local_score_index_nth model sc k c i :
  LocalScoreCache.local_score (LocalScoreCache.update_local_score_index model sc k c) i
  = if Nat.eqb k i && Nat.ltb k (length c) then local_score_node sc model k
    else LocalScoreCache.local_score c i.
Proof. apply nth_assign. Qed.

Lemma update_local_score_entries (model : Model) (sc : Score) (op : Operator)
        (c : LocalScoreCache.t) (i : nat) :
  length (LocalScoreCache.update_local_score model sc op c) = length c
  /\ LocalScoreCache.local_score (LocalScoreCache.update_local_score model sc op c) i
     = if existsb (Nat.eqb i) (touched_nodes model op) && Nat.ltb i (length c)
       then local_score_node sc model i
       else LocalScoreCache.local_score c i.
Proof.
  split.
  - destruct op; cbn [LocalScoreCache.update_local_score];
      unfold LocalScoreCache.update_local_score_index; rewrite ?length_assign; reflexivity.
  - destruct op as [s t d|s t d|s t d|n ty d];
      cbn [LocalScoreCache.update_local_score touched_nodes existsb];
      rewrite ?update_local_score_index_nth;
      unfold LocalScoreCache.update_local_score_index; rewrite ?length_assign;
      rewrite ?orb_false_r.
    1,2: rewrite (Nat.eqb_sym i (index model t));
      destruct (Nat.eqb_spec (index model t) i) as [->|_]; reflexivity.
    2: rewrite (Nat.eqb_sym i (index model n));
      destruct (Nat.eqb_spec (index model n) i) as [->|_]; reflexivity.
    rewrite (Nat.eqb_sym i (index model s)), (Nat.eqb_sym i (index model t)).
    destruct (Nat.eqb_spec (index model t) i) as [->|_];
      destruct (Nat.eqb_spec (index model s) i) as [E|_]; cbn [orb andb];
      try rewrite E; try reflexivity.
    destruct (Nat.ltb i (length c)); reflexivity.
Qed.

(** X8: [LocalScoreCache::update_local_score] keeps the size of the cache and
    recomputes exactly the entries of the nodes the operator touches (the
    target of an arc addition or removal, both ends of a flip, the node of a
    type change) that lie inside the cache; every other entry is kept. *)
Theorem update_local_score_touches (model : Model) (sc : Score) (op : Operator)
        (c : LocalScoreCache.t) (i : nat) :
  length (LocalScoreCache.update_local_score model sc op c) = length c
  /\ LocalScoreCache.local_score (LocalScoreCache.update_local_score model sc op c) i
     = if existsb (Nat.eqb i) (touched_nodes model op) && Nat.ltb i (length c)
       then local_score_node sc model i
       else LocalScoreCache.local_score c i.
Proof. apply update_local_score_entries. Qed.

Lemma touched_nodes_apply op model : touched_nodes (apply op model) op = touched_nodes model op.
Proof. destruct op; reflexivity. Qed.

(** X9: when the cache agrees with the score on a model and applying the
    operator changes the local score of the touched nodes only, then
    [OperatorPool::update_scores], called on the model with the operator
    applied, leaves a cache that agrees with the score on that model. *)
Theorem pool_update_keeps_cache_consistent (model : Model) (op : Operator) (p : OperatorPool.t) :
  consistent (OperatorPool.m_score p) model (OperatorPool.local_cache p) ->
  (forall i, i < num_nodes model -> ~ In i (touched_nodes model op) ->
             local_score_node (OperatorPool.m_score p) (apply op model) i
             = local_score_node (OperatorPool.m_score p) model i) ->
  consistent (OperatorPool.m_score p) (apply op model)
             (OperatorPool.local_cache (OperatorPool.update_scores (apply op model) op p)).
Proof.
  intros (Hlen & Hc) Hdec.
  assert (Hn : num_nodes (apply op model) = num_nodes model) by (destruct op; reflexivity).
  unfold consistent. cbn [OperatorPool.update_scores OperatorPool.local_cache].
  destruct (update_local_score_entries (apply op model) (OperatorPool.m_score p) op
                                       (OperatorPool.local_cache p) 0) as (Hl & _).
  split; [rewrite Hl, Hn; exact Hlen|].
  intros i Hi. rewrite Hn in Hi.
  destruct (update_local_score_entries (apply op model) (OperatorPool.m_score p) op
                                       (OperatorPool.local_cache p) i) as (_ & ->).
  rewrite touched_nodes_apply, Hlen, (proj2 (Nat.ltb_lt _ _) Hi), andb_true_r.
  destruct (existsb (Nat.eqb i) (touched_nodes model op)) eqn:E; [reflexivity|].
  rewrite Hc by exact Hi. symmetry. apply Hdec; [exact Hi|].
  intros Hin. apply not_true_iff_false in E. apply E.
  apply existsb_exists. exists i. split; [exact Hin | apply Nat.eqb_refl].
Qed.

(** X9 at the two-node network without arcs, the operator adding A -> B and a
    score that counts parents. *)
Lemma pool_update_keeps_cache_consistent_example :
  consistent Example.count_score
             (apply (AddArc "A" "B" 1%float) Example.empty_model)
             (OperatorPool.local_cache
                (OperatorPool.update_scores
                   (apply (AddArc "A" "B" 1%float) Example.empty_model)
                   (AddArc "A" "B" 1%float)
                   (Example.arc_pool Example.empty_model Example.count_score 0))).
Proof.
  apply (@pool_update_keeps_cache_consistent Example.empty_model (AddArc "A" "B" 1%float)
           (Example.arc_pool Example.empty_model Example.count_score 0)).
  - split; [reflexivity|]. intros [|[|i]] Hi; [reflexivity | reflexivity | cbn in Hi; lia].
  - intros [|[|i]] Hi Hnot; [reflexivity | exfalso; apply Hnot; left; reflexivity | cbn in Hi; lia].
Defined.

(** ** The constructor of the arc set *)
Lemma offset_injective n i j p q :
  i < n -> p < n -> i + j * n = p + q * n -> i = p /\ j = q.
Proof.
  intros Hi Hp E.
  assert (j = q).
  { destruct (Nat.lt_trichotomy j q) as [H|[H|H]]; [exfalso; nia | exact H | exfalso; nia]. }
  subst. lia.
Qed.

Lemma coeff_set_coeff_other (A : Type) (d : A) (m : Matrix A) i j p q v :
  i < rows m -> p < rows m -> (p, q) <> (i, j) ->
  coeff d (set_coeff m p q v) i j = coeff d m i j.
Proof.
  intros Hi Hp Hne. unfold coeff, set_coeff, offset. cbn [rows coeffs].
  apply nth_assign_other. intros E. apply Hne.
  destruct (@offset_injective (rows m) p q i j Hp Hi E) as [-> ->]. reflexivity.
Qed.

Lemma NoDup_flat_map_in (f : nat -> list nat) l :
  NoDup l ->
  (forall i, In i l -> NoDup (f i)) ->
  (forall i i' x, In i l -> In i' l -> In x (f i) -> In x (f i') -> i = i') ->
  NoDup (flat_map f l).
Proof.
  induction l as [|a r IH]; intros Hl Hnd Hdisj; cbn [flat_map]; [constructor|].
  inversion Hl as [|? ? Ha Hr]; subst.
  apply NoDup_app.
  - apply Hnd. left. reflexivity.
  - apply IH; [exact Hr | intros; apply Hnd; right; assumption |].
    intros i i' x Hi Hi'. apply Hdisj; right; assumption.
  - intros x Hx Hin. apply in_flat_map in Hin. destruct Hin as (i & Hi & Hxi).
    assert (a = i) by (apply (Hdisj a i x); [left; reflexivity | right; exact Hi | exact Hx | exact Hxi]).
    subst. contradiction.
Qed.

Lemma NoDup_linearized_valid n v : NoDup (ArcOperatorSet.linearized_valid n v).
Proof.
  unfold ArcOperatorSet.linearized_valid. apply NoDup_flat_map_in.
  - apply seq_NoDup.
  - intros i _. apply Finite.Injective_map_NoDup_in; [|apply NoDup_filter, seq_NoDup].
    intros j j' Hj _ E. apply filter_In in Hj. destruct Hj as (Hj & _).
    apply in_seq in Hj. nia.
  - intros i i' x Hi Hi' Hx Hx'. apply in_seq in Hi, Hi'. apply in_map_iff in Hx, Hx'.
    destruct Hx as (j & <- & Hj), Hx' as (j' & E & Hj').
    symmetry in E. apply offset_injective in E; [tauto | lia | lia].
Qed.

(** X10: a constructed arc set has N x N matrices [valid_op] and [delta] and the
    [max_indegree] it was given; both directions of every edge of the list its
    definition names [whitelist], the given direction of every edge of the
    list it names [blacklist] and the diagonal are invalid with delta
    [lowest()]; [sorted_idx] holds the linearized index of every valid cell,
    nothing else, and nothing twice. *)
Theorem arc_set_constructor_state model score blacklist whitelist max_indegree storage s :
  ArcOperatorSet.new model score blacklist whitelist max_indegree storage = Some s ->
  arc_set_constructed model blacklist whitelist max_indegree s.
Proof.
  intros H. pose proof (new_in_definition_order _ _ _ _ _ _ H) as (Hw & Hb & Hd & Hs).
  unfold arc_set_constructed. cbn zeta. split; [|split; [|split; [exact Hw | split; [exact Hb | split; [exact Hd | split; [|exact Hs]]]]]].
  - revert H. unfold ArcOperatorSet.new. destruct (reserve_ok _); [|discriminate].
    intros H; inversion H; subst; clear H.
    cbn [ArcOperatorSet.valid_op ArcOperatorSet.delta].
    match goal with |- shaped _ (fst ?x, snd ?x) => replace (fst x, snd x) with x by (destruct x; reflexivity) end.
    repeat (apply fold_left_invariant;
            [|intros; first [apply shaped_knock_out_diagonal | apply shaped_knock_out_one
                            | apply shaped_knock_out_both]; assumption]).
    unfold shaped. cbn [fst snd rows coeffs].
    rewrite repeat_length, length_map, length_seq. auto.
  - revert H. unfold ArcOperatorSet.new. destruct (reserve_ok _); [|discriminate].
    intros H; inversion H; reflexivity.
  - revert H. unfold ArcOperatorSet.new. destruct (reserve_ok _); [|discriminate].
    intros H; inversion H; subst; clear H. apply NoDup_linearized_valid.
Qed.

(** X10 at the network B -> A with the one-direction list [(A, B)]. *)
Lemma arc_set_constructor_state_example :
  arc_set_constructed Example.arc_model [("A", "B")]%string [] 0 Restricted.arc_set.
Proof.
  apply (@arc_set_constructor_state Example.arc_model Example.count_score
           [("A", "B")]%string [] 0%Z Example.storage).
  reflexivity.
Defined.

Lemma untouched_set n storage i j p q p' q' (st : Matrix bool * Matrix double) :
  shaped n st -> i < n -> p < n -> p' < n -> (p, q) <> (i, j) -> (p', q') <> (i, j) ->
  untouched n storage i j st ->
  untouched n storage i j (set_coeff (fst st) p q false, set_coeff (snd st) p' q' lowest).
Proof.
  intros (H1 & _ & H3 & _) Hi Hp Hp' Hne Hne' (Hv & Hd). unfold untouched. cbn [fst snd]. split.
  - rewrite coeff_set_coeff_other; auto; rewrite H1; assumption.
  - rewrite <- Hd. apply (@coeff_set_coeff_other double); auto; rewrite H3; assumption.
Qed.

(** X11: when the lists name nodes of the model, a cell of a constructed arc set
    is valid exactly when it is off the diagonal and no list entry knocks it
    out, and the constructor leaves the delta of a valid cell as the allocation
    had it. *)
Theorem arc_set_valid_cells model score blacklist whitelist max_indegree storage s :
  (forall a b, In (a, b) whitelist \/ In (a, b) blacklist ->
               index model a < num_nodes model /\ index model b < num_nodes model) ->
  ArcOperatorSet.new model score blacklist whitelist max_indegree storage = Some s ->
  forall i j, i < num_nodes model -> j < num_nodes model ->
    arc_cell_constructed model blacklist whitelist storage s i j.
Proof.
  intros Hrange Hnew i j Hi Hj.
  pose proof (new_in_definition_order _ _ _ _ _ _ Hnew) as (Hw & Hb & Hd & _).
  cbn zeta in Hw, Hb, Hd.
  assert (Hfwd : coeff false (ArcOperatorSet.valid_op s) i j = true ->
                 i <> j
                 /\ (forall a b, In (a, b) whitelist ->
                                 (index model a, index model b) <> (i, j)
                                 /\ (index model b, index model a) <> (i, j))
                 /\ (forall a b, In (a, b) blacklist -> (index model a, index model b) <> (i, j))).
  { intros Hv. split; [|split].
    - intros ->. destruct (Hd j Hj) as (Hc & _). cbn [fst] in Hc. congruence.
    - intros a b Hin. split; intros E; inversion E; subst;
        destruct (Hw a b Hin) as ((Hc1 & _) & (Hc2 & _)); auto; cbn [fst] in *; congruence.
    - intros a b Hin E; inversion E; subst.
      destruct (Hb a b Hin) as (Hc & _); auto. cbn [fst] in Hc. congruence. }
  assert (Hbwd : i <> j
                 /\ (forall a b, In (a, b) whitelist ->
                                 (index model a, index model b) <> (i, j)
                                 /\ (index model b, index model a) <> (i, j))
                 /\ (forall a b, In (a, b) blacklist -> (index model a, index model b) <> (i, j)) ->
                 untouched (num_nodes model) storage i j
                           (ArcOperatorSet.valid_op s, ArcOperatorSet.delta s)).
  { intros (Hij & Hwl & Hbl). revert Hnew. unfold ArcOperatorSet.new.
    destruct (reserve_ok _); [|discriminate]. intros H; inversion H; subst; clear H.
    cbn [ArcOperatorSet.valid_op ArcOperatorSet.delta].
    set (n := num_nodes model) in *.
    match goal with |- untouched _ _ _ _ (fst ?x, snd ?x) =>
      replace (fst x, snd x) with x by (destruct x; reflexivity) end.
    assert (Hboth : forall st, shaped n st /\ untouched n storage i j st ->
                      forall e, In e whitelist ->
                      shaped n (ArcOperatorSet.knock_out_both model st e)
                      /\ untouched n storage i j (ArcOperatorSet.knock_out_both model st e)).
    { intros st (HS & HU) [a b] Hin. split; [apply shaped_knock_out_both; exact HS|].
      destruct (Hrange a b (or_introl Hin)) as (Ha & Hb'). destruct (Hwl a b Hin) as (N1 & N2).
      unfold ArcOperatorSet.knock_out_both. cbn [fst snd].
      apply (@untouched_set n storage i j _ _ _ _
               (set_coeff (fst st) _ _ false, set_coeff (snd st) _ _ lowest)); auto.
      - apply shaped_set. exact HS.
      - apply untouched_set; auto. }
    assert (Hone : forall st, shaped n st /\ untouched n storage i j st ->
                     forall e, In e blacklist ->
                     shaped n (ArcOperatorSet.knock_out_one model st e)
                     /\ untouched n storage i j (ArcOperatorSet.knock_out_one model st e)).
    { intros st (HS & HU) [a b] Hin. split; [apply shaped_knock_out_one; exact HS|].
      destruct (Hrange a b (or_intror Hin)) as (Ha & Hb'). pose proof (Hbl a b Hin).
      unfold ArcOperatorSet.knock_out_one. cbn [fst snd]. apply untouched_set; auto. }
    assert (Hdiag : forall st, shaped n st /\ untouched n storage i j st ->
                      forall k, In k (seq 0 n) ->
                      shaped n (ArcOperatorSet.knock_out_diagonal st k)
                      /\ untouched n storage i j (ArcOperatorSet.knock_out_diagonal st k)).
    { intros st (HS & HU) k Hin. split; [apply shaped_knock_out_diagonal; exact HS|].
      apply in_seq in Hin. unfold ArcOperatorSet.knock_out_diagonal.
      apply untouched_set; auto; try lia; intros E; inversion E; subst; contradiction. }
    apply (fold_left_invariant _ (fun st => shaped n st /\ untouched n storage i j st));
      [|intros; apply Hdiag; assumption].
    apply (fold_left_invariant _ (fun st => shaped n st /\ untouched n storage i j st));
      [|intros; apply Hone; assumption].
    apply (fold_left_invariant _ (fun st => shaped n st /\ untouched n storage i j st));
      [|intros; apply Hboth; assumption].
    split.
    - unfold shaped. cbn [fst snd rows coeffs].
      rewrite repeat_length, length_map, length_seq. auto.
    - unfold untouched, coeff, offset. cbn [fst snd rows coeffs]. split.
      + apply nth_repeat_lt. nia.
      + rewrite (nth_indep _ 0%float (storage 0)) by (rewrite length_map, length_seq; nia).
        rewrite map_nth, seq_nth by nia. reflexivity. }
  unfold arc_cell_constructed.
  split; [split; [exact Hfwd | intros H; apply (Hbwd H)]|].
  intros Hv. apply (Hbwd (Hfwd Hv)).
Qed.

(** X11 at the same set, for the cell (B, A). *)
Lemma arc_set_valid_cells_example :
  arc_cell_constructed Example.arc_model [("A", "B")]%string [] Example.storage
                       Restricted.arc_set 1 0.
Proof.
  apply (@arc_set_valid_cells Example.arc_model Example.count_score
           [("A", "B")]%string [] 0%Z Example.storage Restricted.arc_set);
    [ intros a b [[]|[E|[]]]; inversion E; subst; cbn; lia
    | reflexivity | cbn; lia | cbn; lia ].
Defined.

Lemma reserve_ok_small v : (0 <= v < 2 ^ 61)%Z -> reserve_ok v = true.
Proof.
  intros H. unfold reserve_ok, wrap_size_t, size_t_modulus.
  rewrite Z.mod_small by lia. apply Z.leb_le.
  change vector_max_size with (2 ^ 61 - 1)%Z. lia.
Qed.

Lemma reserve_ok_negative v : (- 2 ^ 62 <= v < 0)%Z -> reserve_ok v = false.
Proof.
  intros H. unfold reserve_ok, wrap_size_t, size_t_modulus.
  replace (v mod 2 ^ 64)%Z with (v + 2 ^ 64)%Z.
  - apply Z.leb_gt. change vector_max_size with (2 ^ 61 - 1)%Z. lia.
  - symmetry. rewrite <- (Z.mod_add v 1 (2 ^ 64)) by lia.
    rewrite Z.mul_1_l. apply Z.mod_small. lia.
Qed.

(** X12: when N * N fits an [int] and the lists are shorter than 2^60, the
    constructor of the arc set throws (from [sorted_idx.reserve], on an
    operator count that wrapped around in [size_t]) exactly when
    N * N < 2 * |whitelist| + |blacklist| + N, the lists counted with their
    repetitions. *)
Theorem arc_set_constructor_throws model score blacklist whitelist max_indegree storage :
  (Z.of_nat (num_nodes model) * Z.of_nat (num_nodes model) < 2 ^ 31)%Z ->
  (Z.of_nat (length whitelist) < 2 ^ 60)%Z ->
  (Z.of_nat (length blacklist) < 2 ^ 60)%Z ->
  (ArcOperatorSet.new model score blacklist whitelist max_indegree storage = None
   <-> num_nodes model * num_nodes model
       < 2 * length whitelist + length blacklist + num_nodes model).
Proof.
  intros Hn Hw Hb. unfold ArcOperatorSet.new.
  set (v := (Z.of_nat (num_nodes model * num_nodes model) - 2 * Z.of_nat (length whitelist)
             - Z.of_nat (length blacklist) - Z.of_nat (num_nodes model))%Z).
  assert (Hv : (- 2 ^ 62 <= v < 2 ^ 61)%Z) by (subst v; rewrite Nat2Z.inj_mul; nia).
  destruct (Z.lt_ge_cases v 0) as [Hneg|Hpos].
  - rewrite reserve_ok_negative by lia. split; [intros _|reflexivity]. subst v. lia.
  - rewrite reserve_ok_small by lia. split; [discriminate|]. subst v. lia.
Qed.

(** X12 at two nodes with one edge in either list: 4 < 2 + 1 + 2. *)
Lemma arc_set_constructor_throws_example :
  ArcOperatorSet.new Example.empty_model Example.count_score
                     [("B", "A")]%string [("A", "B")]%string 0 Example.storage = None
  <-> 2 * 2 < 2 * 1 + 1 + 2.
Proof.
  apply (@arc_set_constructor_throws Example.empty_model Example.count_score
           [("B", "A")]%string [("A", "B")]%string 0%Z Example.storage); reflexivity.
Defined.

(** ** The constructor of the node-type set *)
Lemma knock_out_fold model wl (st : list bool * list double) i :
  let st' := fold_left (ChangeNodeTypeSet.knock_out model) wl st in
  length (fst st') = length (fst st) /\ length (snd st') = length (snd st)
  /\ (i < length (fst st) -> i < length (snd st) ->
      nth i (fst st') false = (if type_listed model wl i then false else nth i (fst st) false)
      /\ nth i (snd st') 0%float
         = (if type_listed model wl i then lowest else nth i (snd st) 0%float)).
Proof.
  revert st. induction wl as [|node r IH]; intros st; cbn zeta; cbn [fold_left type_listed existsb].
  - auto.
  - specialize (IH (ChangeNodeTypeSet.knock_out model st node)). cbn zeta in IH.
    destruct IH as (L1 & L2 & IH).
    assert (F : fst (ChangeNodeTypeSet.knock_out model st node)
                = assign (fst st) (index model (fst node)) false) by reflexivity.
    assert (G : snd (ChangeNodeTypeSet.knock_out model st node)
                = assign (snd st) (index model (fst node)) lowest) by reflexivity.
    rewrite F, G in IH. rewrite F in L1. rewrite G in L2. clear F G.
    rewrite !length_assign in IH. rewrite length_assign in L1, L2.
    split; [exact L1 | split; [exact L2|]]. intros H1 H2.
    destruct (IH H1 H2) as (E1 & E2). fold (type_listed model r i) in *.
    rewrite E1, E2, !nth_assign.
    destruct (type_listed model r i); [rewrite orb_true_r; auto|]. rewrite orb_false_r.
    destruct (Nat.eqb_spec (index model (fst node)) i) as [->|_]; cbn [andb]; [|auto].
    rewrite (proj2 (Nat.ltb_lt _ _) H1), (proj2 (Nat.ltb_lt _ _) H2). auto.
Qed.

(** X13: a constructed node-type set has N entries in [valid_op] and [delta]; a
    node is invalid, with delta [lowest()], exactly when the type whitelist
    names it, the delta of a valid node is what the allocation held, and
    [sorted_idx] lists the valid nodes in ascending order. *)
Theorem type_set_constructor_state model score type_whitelist storage s :
  ChangeNodeTypeSet.new model score type_whitelist storage = Some s ->
  type_set_constructed model type_whitelist storage s.
Proof.
  unfold ChangeNodeTypeSet.new. destruct (reserve_ok _); [|discriminate].
  intros H; inversion H; subst; clear H. unfold type_set_constructed.
  cbn [ChangeNodeTypeSet.valid_op ChangeNodeTypeSet.delta ChangeNodeTypeSet.sorted_idx].
  set (n := num_nodes model).
  set (st0 := (repeat true n, map storage (seq 0 n))).
  assert (L0 : length (fst st0) = n) by apply repeat_length.
  assert (M0 : length (snd st0) = n) by (cbn [snd st0]; rewrite length_map, length_seq; reflexivity).
  assert (Hnth : forall i, i < n ->
            nth i (fst (fold_left (ChangeNodeTypeSet.knock_out model) type_whitelist st0)) false
            = negb (type_listed model type_whitelist i)
            /\ nth i (snd (fold_left (ChangeNodeTypeSet.knock_out model) type_whitelist st0)) 0%float
               = if type_listed model type_whitelist i then lowest else storage i).
  { intros i Hi. destruct (knock_out_fold model type_whitelist st0 i) as (_ & _ & Hk).
    rewrite L0, M0 in Hk. destruct (Hk Hi Hi) as (E1 & E2). rewrite E1, E2.
    destruct (type_listed model type_whitelist i); [auto|]. cbn [negb]. split.
    - cbn [fst st0]. apply nth_repeat_lt. exact Hi.
    - cbn [snd st0]. rewrite (nth_indep _ 0%float (storage 0)) by (rewrite length_map, length_seq; exact Hi).
      rewrite map_nth, seq_nth by exact Hi. reflexivity. }
  destruct (knock_out_fold model type_whitelist st0 0) as (L1 & L2 & _).
  split; [rewrite L1; exact L0 | split; [rewrite L2; exact M0 | split; [exact Hnth|]]].
  apply filter_ext_in. intros i Hi. apply in_seq in Hi. apply Hnth. lia.
Qed.

(** X13 at two nodes with the type whitelist naming A. *)
Lemma type_set_constructor_state_example :
  exists s, ChangeNodeTypeSet.new Example.empty_model Example.count_score
                                  [("A"%string, FactorType.CKDE)] Example.storage = Some s
            /\ type_set_constructed Example.empty_model [("A"%string, FactorType.CKDE)]
                                    Example.storage s.
Proof.
  eexists. split; [reflexivity|].
  apply (@type_set_constructor_state Example.empty_model Example.count_score
           [("A"%string, FactorType.CKDE)] Example.storage). reflexivity.
Defined.

(** X14: when N fits an [int] and the type whitelist is shorter than 2^60, the
    constructor of the node-type set throws exactly when the type whitelist
    has more entries than the model has nodes. *)
Theorem type_set_constructor_throws model score type_whitelist storage :
  (Z.of_nat (num_nodes model) < 2 ^ 31)%Z ->
  (Z.of_nat (length type_whitelist) < 2 ^ 60)%Z ->
  (ChangeNodeTypeSet.new model score type_whitelist storage = None
   <-> num_nodes model < length type_whitelist).
Proof.
  intros Hn Hw. unfold ChangeNodeTypeSet.new.
  destruct (Z.lt_ge_cases (Z.of_nat (num_nodes model) - Z.of_nat (length type_whitelist)) 0)
    as [Hneg|Hpos].
  - rewrite reserve_ok_negative by lia. split; [intros _; lia | reflexivity].
  - rewrite reserve_ok_small by lia. split; [discriminate | lia].
Qed.

(** X14 at two nodes and a type whitelist of three entries. *)
Lemma type_set_constructor_throws_example :
  ChangeNodeTypeSet.new Example.empty_model Example.count_score
    [("A"%string, FactorType.CKDE); ("A"%string, FactorType.CKDE); ("B"%string, FactorType.CKDE)]
    Example.storage = None
  <-> 2 < 3.
Proof.
  apply (@type_set_constructor_throws Example.empty_model Example.count_score
    [("A"%string, FactorType.CKDE); ("A"%string, FactorType.CKDE); ("B"%string, FactorType.CKDE)]
    Example.storage); reflexivity.
Defined.

(** ** The deltas of the node-type set *)
Lemma type_cache_scores_fold model cache l s :
  let s' := fold_left (fun s i => if nth i (ChangeNodeTypeSet.valid_op s) false
                                  then ChangeNodeTypeSet.update_local_delta model cache i s
                                  else s) l s in
  ChangeNodeTypeSet.valid_op s' = ChangeNodeTypeSet.valid_op s
  /\ ChangeNodeTypeSet.sorted_idx s' = ChangeNodeTypeSet.sorted_idx s
  /\ ChangeNodeTypeSet.m_score s' = ChangeNodeTypeSet.m_score s
  /\ ChangeNodeTypeSet.delta s'
     = fold_left (fun d k => assign d k (type_flip_delta model cache s k))
                 (filter (fun i => nth i (ChangeNodeTypeSet.valid_op s) false) l)
                 (ChangeNodeTypeSet.delta s).
Proof.
  revert s. induction l as [|k r IH]; intros s; cbn zeta; cbn [fold_left filter]; [auto|].
  destruct (nth k (ChangeNodeTypeSet.valid_op s) false) eqn:E.
  - specialize (IH (ChangeNodeTypeSet.update_local_delta model cache k s)). cbn zeta in IH.
    destruct IH as (H1 & H2 & H3 & H4). rewrite H1, H2, H3, H4.
    repeat split.
  - apply IH.
Qed.

(** X15: [ChangeNodeTypeSet::cache_scores] keeps [valid_op], [sorted_idx] and the
    size of [delta]; it stores the type-change delta of every valid node and
    leaves the delta of every other node, the [lowest()] of a whitelisted node
    included, as it was. *)
Theorem type_cache_scores_writes_valid_only (model : Model) (cache : LocalScoreCache.t)
        (s : ChangeNodeTypeSet.t) (i : nat) :
  let s' := ChangeNodeTypeSet.cache_scores model cache s in
  ChangeNodeTypeSet.valid_op s' = ChangeNodeTypeSet.valid_op s
  /\ ChangeNodeTypeSet.sorted_idx s' = ChangeNodeTypeSet.sorted_idx s
  /\ length (ChangeNodeTypeSet.delta s') = length (ChangeNodeTypeSet.delta s)
  /\ nth i (ChangeNodeTypeSet.delta s') 0%float
     = if Nat.ltb i (num_nodes model) && nth i (ChangeNodeTypeSet.valid_op s) false
          && Nat.ltb i (length (ChangeNodeTypeSet.delta s))
       then type_flip_delta model cache s i
       else nth i (ChangeNodeTypeSet.delta s) 0%float.
Proof.
  cbn zeta. unfold ChangeNodeTypeSet.cache_scores.
  destruct (type_cache_scores_fold model cache (seq 0 (num_nodes model)) s) as (H1 & H2 & _ & H4).
  rewrite H1, H2, H4. split; [reflexivity | split; [reflexivity | split]].
  - apply length_cache_fold.
  - rewrite cache_fold_nth by apply NoDup_filter, seq_NoDup.
    replace (existsb (Nat.eqb i)
               (filter (fun i => nth i (ChangeNodeTypeSet.valid_op s) false)
                       (seq 0 (num_nodes model))))
      with (Nat.ltb i (num_nodes model) && nth i (ChangeNodeTypeSet.valid_op s) false);
      [reflexivity|]. symmetry.
    destruct (Nat.ltb_spec i (num_nodes model)) as [Hlt|Hge];
      destruct (nth i (ChangeNodeTypeSet.valid_op s) false) eqn:E; cbn [andb].
    + apply existsb_exists. exists i. split; [|apply Nat.eqb_refl].
      apply filter_In. split; [apply in_seq; lia | exact E].
    + apply not_true_is_false. intros H. apply existsb_exists in H.
      destruct H as (x & Hx & Ex). apply Nat.eqb_eq in Ex. subst x.
      apply filter_In in Hx. destruct Hx as (_ & Hx). congruence.
    + apply not_true_is_false. intros H. apply existsb_exists in H.
      destruct H as (x & Hx & Ex). apply Nat.eqb_eq in Ex. subst x.
      apply filter_In in Hx. destruct Hx as (Hx & _). apply in_seq in Hx. lia.
    + apply not_true_is_false. intros H. apply existsb_exists in H.
      destruct H as (x & Hx & Ex). apply Nat.eqb_eq in Ex. subst x.
      apply filter_In in Hx. destruct Hx as (Hx & _). apply in_seq in Hx. lia.
Qed.

Lemma update_local_delta_nth model cache k s i :
  nth i (ChangeNodeTypeSet.delta (ChangeNodeTypeSet.update_local_delta model cache k s)) 0%float
  = if Nat.eqb k i && Nat.ltb k (length (ChangeNodeTypeSet.delta s))
    then type_flip_delta model cache s k
    else nth i (ChangeNodeTypeSet.delta s) 0%float.
Proof. unfold ChangeNodeTypeSet.update_local_delta. cbn [ChangeNodeTypeSet.delta ChangeNodeTypeSet.with_delta]. apply nth_assign. Qed.

(** X16: [ChangeNodeTypeSet::update_scores] keeps [valid_op], [sorted_idx] and
    the size of [delta] and rewrites the delta of the touched nodes only: with
    the recomputed type-change delta after an arc operator, with the negated
    delta of the operator after a type change; it does so whether or not the
    node is valid. *)
Theorem type_update_scores_touches (model : Model) (cache : LocalScoreCache.t)
        (op : Operator) (s : ChangeNodeTypeSet.t) (i : nat) :
  let s' := ChangeNodeTypeSet.update_scores model cache op s in
  ChangeNodeTypeSet.valid_op s' = ChangeNodeTypeSet.valid_op s
  /\ ChangeNodeTypeSet.sorted_idx s' = ChangeNodeTypeSet.sorted_idx s
  /\ length (ChangeNodeTypeSet.delta s') = length (ChangeNodeTypeSet.delta s)
  /\ nth i (ChangeNodeTypeSet.delta s') 0%float
     = if existsb (Nat.eqb i) (touched_nodes model op)
          && Nat.ltb i (length (ChangeNodeTypeSet.delta s))
       then match op with
            | ChangeNodeType _ _ _ => dneg (operator_delta op)
            | _ => type_flip_delta model cache s i
            end
       else nth i (ChangeNodeTypeSet.delta s) 0%float.
Proof.
  cbn zeta.
  destruct op as [sn tn d|sn tn d|sn tn d|n ty d];
    cbn [ChangeNodeTypeSet.update_scores touched_nodes existsb opposite
         ChangeNodeType_opposite delta];
    (split; [reflexivity | split; [reflexivity | split]]);
    unfold ChangeNodeTypeSet.update_local_delta;
    cbn [ChangeNodeTypeSet.delta ChangeNodeTypeSet.with_delta ChangeNodeTypeSet.m_score];
    rewrite ?length_assign; try reflexivity; rewrite ?nth_assign, ?length_assign, ?orb_false_r.
  - rewrite (Nat.eqb_sym i). destruct (Nat.eqb_spec (index model tn) i) as [->|_]; reflexivity.
  - rewrite (Nat.eqb_sym i). destruct (Nat.eqb_spec (index model tn) i) as [->|_]; reflexivity.
  - rewrite (Nat.eqb_sym i (index model sn)), (Nat.eqb_sym i (index model tn)).
    destruct (Nat.eqb_spec (index model tn) i) as [->|_];
      destruct (Nat.eqb_spec (index model sn) i) as [E|_]; cbn [orb andb];
      try rewrite E; try reflexivity.
    destruct (Nat.ltb i (length (ChangeNodeTypeSet.delta s))); reflexivity.
  - rewrite (Nat.eqb_sym i). destruct (Nat.eqb_spec (index model n) i) as [->|_]; reflexivity.
Qed.

(** ** [std::max_element] *)

Lemma max_element_fold (d : list double) l cur (seen : list nat) :
  In cur seen ->
  (forall i, In i seen -> PrimFloat.ltb (nth cur d 0%float) (nth i d 0%float) = false) ->
  let r := fold_left (fun largest i =>
                        if PrimFloat.ltb (nth largest d 0%float) (nth i d 0%float)
                        then i else largest) l cur in
  In r (seen ++ l)
  /\ forall i, In i (seen ++ l) -> PrimFloat.ltb (nth r d 0%float) (nth i d 0%float) = false.
Proof.
  revert cur seen. induction l as [|k rest IH]; intros cur seen Hin Hmax; cbn zeta; cbn [fold_left].
  - rewrite app_nil_r. auto.
  - replace (seen ++ k :: rest) with ((seen ++ [k]) ++ rest) by (rewrite <- app_assoc; reflexivity).
    destruct (PrimFloat.ltb (nth cur d 0%float) (nth k d 0%float)) eqn:E.
    + apply IH; [apply in_or_app; right; left; reflexivity|].
      intros i Hi. apply in_app_or in Hi. destruct Hi as [Hi|[<-|[]]].
      * destruct (PrimFloat.ltb (nth k d 0%float) (nth i d 0%float)) eqn:E2; [|reflexivity].
        pose proof (@dgt_trans _ _ _ E2 E) as T. unfold dgt in T. rewrite (Hmax i Hi) in T.
        discriminate.
      * apply (dgt_irrefl (nth k d 0%float)).
    + apply IH; [apply in_or_app; left; exact Hin|].
      intros i Hi. apply in_app_or in Hi. destruct Hi as [Hi|[<-|[]]]; [auto | exact E].
Qed.

Lemma max_element_spec (d : list double) n :
  (ChangeNodeTypeSet.max_element d n < n \/ n = 0)
  /\ forall i, i < n ->
       PrimFloat.ltb (nth (ChangeNodeTypeSet.max_element d n) d 0%float) (nth i d 0%float) = false.
Proof.
  destruct n as [|n].
  - split; [right; reflexivity | intros i Hi; lia].
  - unfold ChangeNodeTypeSet.max_element.
    destruct (@max_element_fold d (seq 1 (S n - 1)) 0 [0]) as (Hin & Hmax).
    + left. reflexivity.
    + intros i [<-|[]]. apply (dgt_irrefl (nth 0 d 0%float)).
    + cbn zeta in Hin, Hmax.
      assert (Hseq : forall i, In i ([0] ++ seq 1 (S n - 1)) <-> i < S n).
      { intros i. cbn [app In]. rewrite in_seq. lia. }
      split; [left; apply Hseq; exact Hin|].
      intros i Hi. apply Hmax. apply Hseq. exact Hi.
Qed.

(** X17: [ChangeNodeTypeSet::find_max(model)] leaves the set as it was; an
    operator it returns changes a valid node to its opposite factor type and
    carries that node's delta, and no delta of a node of the model is greater. *)
Theorem type_find_max_is_maximal (model : Model) (s : ChangeNodeTypeSet.t) :
  snd (ChangeNodeTypeSet.find_max model s) = s
  /\ forall op, fst (ChangeNodeTypeSet.find_max model s) = Some op ->
       exists idx,
         op = ChangeNodeType (name model idx) (FactorType.opposite (node_type model idx))
                             (nth idx (ChangeNodeTypeSet.delta s) 0%float)
         /\ nth idx (ChangeNodeTypeSet.valid_op s) false = true
         /\ idx < length (ChangeNodeTypeSet.valid_op s)
         /\ forall i, i < num_nodes model ->
                      dgt (nth i (ChangeNodeTypeSet.delta s) 0%float) (delta op) = false.
Proof.
  unfold ChangeNodeTypeSet.find_max.
  destruct (nth (ChangeNodeTypeSet.max_element (ChangeNodeTypeSet.delta s) (num_nodes model))
                (ChangeNodeTypeSet.valid_op s) false) eqn:E; cbn [fst snd];
    (split; [reflexivity|]); intros op H; [|discriminate].
  inversion H; subst op; clear H.
  exists (ChangeNodeTypeSet.max_element (ChangeNodeTypeSet.delta s) (num_nodes model)).
  split; [reflexivity | split; [exact E | split]].
  - destruct (Nat.lt_ge_cases
                (ChangeNodeTypeSet.max_element (ChangeNodeTypeSet.delta s) (num_nodes model))
                (length (ChangeNodeTypeSet.valid_op s))) as [Hlt|Hge]; [exact Hlt|].
    rewrite nth_overflow in E by exact Hge. discriminate.
  - intros i Hi. cbn [delta]. unfold dgt.
    apply (proj2 (max_element_spec (ChangeNodeTypeSet.delta s) (num_nodes model))). exact Hi.
Qed.

(** ** What [find_max] of the arc set returns *)
Lemma walk_tabu_empty lim model s l :
  ArcOperatorSet.walk_tabu lim model s [] l = ArcOperatorSet.walk lim model s l.
Proof.
  induction l as [|idx rest IH]; cbn [ArcOperatorSet.walk_tabu ArcOperatorSet.walk]; [reflexivity|].
  rewrite IH. cbn [OperatorTabuSet.contains existsb negb]. reflexivity.
Qed.

(** X19: the tabu overload of [ArcOperatorSet::find_max] never returns an
    operator that the tabu set contains, and on an empty tabu set it returns
    the operator, and leaves the set, of the overload without tabu set. *)
Theorem arc_find_max_tabu_respects_tabu (model : Model) (s : ArcOperatorSet.t)
        (tabu_set : OperatorTabuSet.t) :
  (forall op, fst (ArcOperatorSet.find_max_tabu model s tabu_set) = Some op ->
              OperatorTabuSet.contains tabu_set op = false)
  /\ ArcOperatorSet.find_max_tabu model s OperatorTabuSet.empty_set
     = ArcOperatorSet.find_max model s.
Proof.
  split.
  - intros op H. revert H.
    unfold ArcOperatorSet.find_max_tabu, ArcOperatorSet.find_max_indegree_tabu.
    destruct (ArcOperatorSet.max_indegree s >? 0)%Z; cbn [fst]; intros H;
      destruct (walk_tabu_some _ _ _ _ _ H) as (_ & _ & _ & Ht & _); exact Ht.
  - unfold ArcOperatorSet.find_max_tabu, ArcOperatorSet.find_max_indegree_tabu,
      ArcOperatorSet.find_max, ArcOperatorSet.find_max_indegree, OperatorTabuSet.empty_set.
    destruct (ArcOperatorSet.max_indegree s >? 0)%Z; rewrite walk_tabu_empty; reflexivity.
Qed.

Lemma candidate_legal model s idx op :
  well_named model -> idx < num_nodes model * num_nodes model ->
  candidate model s idx = Some op -> legal_arc_operator model s op.
Proof.
  intros Hwn Hidx Hc. destruct (linear_index_split _ Hidx) as [Hs Hd].
  pose proof (Hwn _ Hs) as Is. pose proof (Hwn _ Hd) as Id.
  unfold candidate in Hc.
  destruct (has_edge model (idx mod num_nodes model) (idx / num_nodes model)) eqn:E1.
  - inversion Hc; subst op. cbn [legal_arc_operator]. rewrite Is, Id. auto.
  - destruct (has_edge model (idx / num_nodes model) (idx mod num_nodes model)
              && can_flip_edge model (idx / num_nodes model) (idx mod num_nodes model)) eqn:E2.
    + inversion Hc; subst op. cbn [legal_arc_operator]. rewrite Is, Id.
      apply andb_prop in E2. destruct E2. auto.
    + destruct (can_add_edge model (idx mod num_nodes model) (idx / num_nodes model)) eqn:E4;
        [|discriminate].
      inversion Hc; subst op. cbn [legal_arc_operator]. rewrite Is, Id. auto.
Qed.

(** X20: an operator returned by either [find_max] overload of the arc set is
    legal on the model: a removal names an existing arc, a flip an existing,
    reversible arc whose reverse is absent, an addition an absent arc that may
    be added; its delta is the cell of [delta] at its source and target. *)
Theorem arc_find_max_returns_legal model s tabu_set op :
  well_named model -> indices_in_range model s ->
  fst (ArcOperatorSet.find_max model s) = Some op
  \/ fst (ArcOperatorSet.find_max_tabu model s tabu_set) = Some op ->
  legal_arc_operator model s op.
Proof.
  intros Hwn Hrange Hop.
  assert (Hex : exists idx, In idx (ArcOperatorSet.sorted_idx s)
                            /\ candidate model s idx = Some op).
  { unfold ArcOperatorSet.find_max, ArcOperatorSet.find_max_tabu,
      ArcOperatorSet.find_max_indegree, ArcOperatorSet.find_max_indegree_tabu in Hop.
    destruct (ArcOperatorSet.max_indegree s >? 0)%Z; cbn [fst] in Hop;
      (destruct Hop as [Hop|Hop];
       [destruct (walk_some _ _ _ _ Hop) as (idx & Hin & Hc & _)
       |destruct (walk_tabu_some _ _ _ _ _ Hop) as (idx & Hin & Hc & _)]);
      exists idx; (split; [apply In_std_sort in Hin; exact Hin | exact Hc]). }
  destruct Hex as (idx & Hin & Hc).
  exact (@candidate_legal _ _ _ _ Hwn (Hrange _ Hin) Hc).
Qed.

(** X20 at the two-node network without arcs, [max_indegree = 1]. *)
Lemma arc_find_max_returns_legal_example :
  legal_arc_operator Example.empty_model
    (Example.arc_set Example.empty_model Example.count_score 1) (AddArc "A" "B" 1%float).
Proof.
  apply (@arc_find_max_returns_legal Example.empty_model
           (Example.arc_set Example.empty_model Example.count_score 1) []).
  - intros [|[|i]] Hi; [reflexivity | reflexivity | cbn in Hi; lia].
  - intros idx Hin. vm_compute in Hin. destruct Hin as [<-|[<-|[]]]; cbn; lia.
  - left. vm_compute. reflexivity.
Defined.

Lemma best_member max_delta max_op answers op :
  best max_delta max_op answers = Some op -> max_op = Some op \/ In (Some op) answers.
Proof.
  intros H. destruct (@best_some lowest _ _ _ _ H) as [(E & _)|(pre & post & -> & _)].
  - left. exact E.
  - right. apply in_or_app. right. left. reflexivity.
Qed.

(** X21: a pool that holds arc sets only never returns, from
    [find_max(model, tabu_set)], an operator that the tabu set contains. *)
Theorem pool_of_arc_sets_respects_tabu model p tabu_set op :
  arc_sets_only p ->
  fst (OperatorPool.find_max_tabu model p tabu_set) = Some op ->
  OperatorTabuSet.contains tabu_set op = false.
Proof.
  intros Harc. unfold OperatorPool.find_max_tabu.
  destruct (OperatorTabuSet.empty tabu_set) eqn:He.
  - intros _. destruct tabu_set; [reflexivity | discriminate].
  - intros H.
    assert (Hb : best lowest None
                   (map (fun os => fst (set_find_max_tabu model tabu_set os))
                        (OperatorPool.m_op_sets p)) = Some op).
    { rewrite <- find_max_loop_best.
      destruct (OperatorPool.find_max_loop (set_find_max_tabu model tabu_set) lowest None
                                           (OperatorPool.m_op_sets p)); exact H. }
    destruct (best_member _ _ _ Hb) as [E|Hin]; [discriminate|].
    apply in_map_iff in Hin. destruct Hin as (os & Hos & Hmem).
    destruct (Harc os Hmem) as (s & ->). cbn [set_find_max_tabu] in Hos.
    destruct (ArcOperatorSet.find_max_tabu model s tabu_set) as [o s'] eqn:E. cbn [fst] in Hos.
    subst o. apply (arc_find_max_tabu_outside_tabu model s tabu_set). rewrite E. reflexivity.
Qed.

(** X21 at the pool over the two-node network, the addition A -> B forbidden. *)
Lemma pool_of_arc_sets_respects_tabu_example :
  OperatorTabuSet.contains [AddArc "A" "B" 0%float] (AddArc "B" "A" 1%float) = false.
Proof.
  apply (@pool_of_arc_sets_respects_tabu Example.empty_model
           (Example.arc_pool Example.empty_model Example.count_score 0)
           [AddArc "A" "B" 0%float] (AddArc "B" "A" 1%float)).
  - intros os [<-|[]]. eexists. reflexivity.
  - vm_compute. reflexivity.
Defined.

(** ** Moving a parent to the back *)

Lemma assign_app_here (A : Type) (l1 l2 : list A) y v :
  assign (l1 ++ y :: l2) (length l1) v = l1 ++ v :: l2.
Proof. induction l1 as [|a r IH]; cbn [app length assign]; [reflexivity | rewrite IH; reflexivity]. Qed.

Lemma find_pos_first (x : nat) (l1 l2 : list nat) :
  ~ In x l1 -> find_pos x (l1 ++ x :: l2) = Some (length l1).
Proof.
  induction l1 as [|a r IH]; intros Hn; cbn [app find_pos length].
  - rewrite Nat.eqb_refl. reflexivity.
  - destruct (Nat.eqb_spec a x) as [->|_]; [exfalso; apply Hn; left; reflexivity|].
    rewrite IH; [reflexivity|]. intros H. apply Hn. right. exact H.
Qed.

Lemma find_pos_none (x : nat) (l : list nat) : ~ In x l -> find_pos x l = None.
Proof.
  induction l as [|a r IH]; intros Hn; cbn [find_pos]; [reflexivity|].
  destruct (Nat.eqb_spec a x) as [->|_]; [exfalso; apply Hn; left; reflexivity|].
  rewrite IH; [reflexivity|]. intros H. apply Hn. right. exact H.
Qed.

Lemma last_opt_snoc (A : Type) (l : list A) z : last_opt (l ++ [z]) = Some z.
Proof. unfold last_opt. rewrite rev_app_distr. reflexivity. Qed.

Lemma first_occurrence (x : nat) (l : list nat) :
  In x l -> exists l1 l2, l = l1 ++ x :: l2 /\ ~ In x l1.
Proof.
  induction l as [|a r IH]; intros H; [destruct H|].
  destruct (Nat.eq_dec a x) as [->|Hne].
  - exists [], r. split; [reflexivity | intros []].
  - destruct H as [H|H]; [contradiction|]. destruct (IH H) as (l1 & l2 & -> & Hn).
    exists (a :: l1), l2. split; [reflexivity|]. intros [E|E]; [contradiction | auto].
Qed.

(** When [x] occurs, the swap leaves [x] last and the other entries in front. *)
Lemma swap_to_back_shape (x : nat) (l : list nat) :
  In x l -> exists front, swap_to_back x l = front ++ [x] /\ Permutation (front ++ [x]) l.
Proof.
  intros Hin. destruct (@first_occurrence x l Hin) as (l1 & l2 & -> & Hn).
  unfold swap_to_back. rewrite (@find_pos_first x l1 l2 Hn).
  induction l2 as [|z l2' _] using rev_ind.
  - rewrite last_opt_snoc. rewrite assign_app_here.
    exists l1. split; [|reflexivity].
    rewrite length_app. cbn [length]. replace (length l1 + 1 - 1) with (length l1) by lia.
    apply assign_app_here.
  - 
    replace (l1 ++ x :: l2' ++ [z]) with ((l1 ++ x :: l2') ++ [z])
      by (rewrite <- app_assoc; reflexivity).
    rewrite last_opt_snoc. rewrite <- app_assoc. cbn [app].
    rewrite assign_app_here.
    exists (l1 ++ z :: l2'). split.
    + replace (l1 ++ z :: l2' ++ [z]) with ((l1 ++ z :: l2') ++ [z])
        by (rewrite <- app_assoc; reflexivity).
      replace (length (l1 ++ x :: l2' ++ [z]) - 1) with (length (l1 ++ z :: l2'))
        by (rewrite !length_app; cbn [length]; rewrite length_app; cbn [length]; lia).
      apply assign_app_here.
    + rewrite <- app_assoc. cbn [app]. apply Permutation_app_head.
      transitivity (z :: x :: l2').
      * apply perm_skip. symmetry. apply Permutation_cons_append.
      * transitivity (x :: z :: l2'); [apply perm_swap|].
        apply perm_skip. apply Permutation_cons_append.
Qed.

Lemma swap_to_back_absent (x : nat) (l : list nat) : ~ In x l -> swap_to_back x l = l.
Proof. intros Hn. unfold swap_to_back. rewrite (@find_pos_none x l Hn). reflexivity. Qed.

Lemma Permutation_swap_to_back (x : nat) (l : list nat) : Permutation (swap_to_back x l) l.
Proof.
  destruct (in_dec Nat.eq_dec x l) as [Hin|Hn].
  - destruct (@swap_to_back_shape x l Hin) as (front & -> & Hp). exact Hp.
  - rewrite swap_to_back_absent by exact Hn. reflexivity.
Qed.

Lemma but_last_snoc (l : list nat) (x : nat) : but_last (l ++ [x]) = l.
Proof.
  unfold but_last. rewrite length_app. cbn [length].
  replace (length l + 1 - 1) with (length l) by lia.
  rewrite firstn_app, firstn_all, Nat.sub_diag. cbn. apply app_nil_r.
Qed.

Lemma has_edge_In model s t : has_edge model s t = true <-> In s (parent_indices model t).
Proof.
  unfold has_edge. rewrite existsb_exists. split.
  - intros (x & Hx & E). apply Nat.eqb_eq in E. subst. exact Hx.
  - intros H. exists s. split; [exact H | apply Nat.eqb_refl].
Qed.

(** ** The cached deltas of the arc set *)
Lemma square_set_coeff n dl i j (v : double) : square n dl -> square n (set_coeff dl i j v).
Proof.
  intros [R L]. split; cbn [set_coeff rows coeffs]; [exact R | rewrite length_assign; exact L].
Qed.

Lemma coeff_set_coeff_same n (dl : Matrix double) i j v d :
  square n dl -> i < n -> j < n -> coeff d (set_coeff dl i j v) i j = v.
Proof.
  intros [R L] Hi Hj. unfold coeff, set_coeff, offset. cbn [rows coeffs].
  apply nth_assign_same. rewrite L, R. nia.
Qed.

Lemma coeff_set_coeff_miss n (dl : Matrix double) i j p q v d :
  square n dl -> i < n -> p < n -> (p, q) <> (i, j) ->
  coeff d (set_coeff dl p q v) i j = coeff d dl i j.
Proof.
  intros [R _] Hi Hp Hne. apply coeff_set_coeff_other; [lia | lia | exact Hne].
Qed.

Lemma seq_split k n : k < n -> seq 0 n = seq 0 k ++ k :: seq (S k) (n - S k).
Proof.
  intros H. replace n with (k + S (n - S k)) at 1 by lia.
  rewrite seq_app. cbn [seq Nat.add]. reflexivity.
Qed.

Section ArcScoreFacts.

Variable model : Model.
Variable cache : LocalScoreCache.t.
Variable s : ArcOperatorSet.t.

Local Abbreviation nodes := (num_nodes model).
Local Abbreviation valid := (coeff false (ArcOperatorSet.valid_op s)).
Local Abbreviation cell := (ArcOperatorSet.cache_scores_cell model cache s).
Local Abbreviation column := (ArcOperatorSet.cache_scores_column model cache s).
Local Abbreviation ucell := (ArcOperatorSet.update_cell model cache s).
Local Abbreviation at_ := (coeff 0%float).

Lemma cell_square dest st source :
  square nodes (fst st) -> square nodes (fst (cell dest st source)).
Proof.
  destruct st as [dl npd]. cbn [fst]. intros H. unfold ArcOperatorSet.cache_scores_cell.
  destruct (valid source dest); [|exact H].
  destruct (has_edge model source dest); [|destruct (has_edge model dest source)];
    cbn [fst]; apply square_set_coeff; exact H.
Qed.

Lemma cell_perm dest st source l :
  Permutation (snd st) l -> Permutation (snd (cell dest st source)) l.
Proof.
  destruct st as [dl npd]. cbn [snd]. intros H. unfold ArcOperatorSet.cache_scores_cell.
  destruct (valid source dest); [|exact H].
  destruct (has_edge model source dest); [|destruct (has_edge model dest source)];
    cbn [snd]; try exact H.
  transitivity npd; [apply Permutation_swap_to_back | exact H].
Qed.

Lemma column_fold_state dest l st ps :
  square nodes (fst st) -> Permutation (snd st) ps ->
  square nodes (fst (fold_left (cell dest) l st))
  /\ Permutation (snd (fold_left (cell dest) l st)) ps.
Proof.
  revert st. induction l as [|x r IH]; intros st Hs Hp; cbn [fold_left]; [split; assumption|].
  apply IH; [apply cell_square; exact Hs | apply cell_perm; exact Hp].
Qed.

Lemma column_square dl dest : square nodes dl -> square nodes (column dl dest).
Proof.
  intros H. unfold ArcOperatorSet.cache_scores_column.
  apply (@column_fold_state dest (seq 0 nodes) (dl, parent_indices model dest)
           (parent_indices model dest)); [exact H | reflexivity].
Qed.

Lemma columns_square l dl : square nodes dl -> square nodes (fold_left column l dl).
Proof.
  revert dl. induction l as [|d r IH]; intros dl H; cbn [fold_left]; [exact H|].
  apply IH. apply column_square. exact H.
Qed.

(** *** Cells that no operator may use *)

Lemma cell_pinned dest st source x y :
  square nodes (fst st) -> x < nodes -> source < nodes -> dest < nodes ->
  valid x y = false -> valid y x = false ->
  at_ (fst (cell dest st source)) x y = at_ (fst st) x y.
Proof.
  destruct st as [dl npd]. cbn [fst]. intros Hs Hx Hso Hd V1 V2.
  unfold ArcOperatorSet.cache_scores_cell.
  destruct (valid source dest) eqn:V; [|reflexivity].
  destruct (has_edge model source dest); [|destruct (has_edge model dest source)];
    cbn [fst]; apply (@coeff_set_coeff_miss nodes); auto;
    intros E; injection E; intros; subst; congruence.
Qed.

Lemma ucell_square d st i :
  square nodes (fst st) -> square nodes (fst (ucell d st i)).
Proof.
  destruct st as [dl ps]. cbn [fst]. intros H. unfold ArcOperatorSet.update_cell.
  destruct (valid i d); [|exact H].
  destruct (has_edge model i d); [|destruct (has_edge model d i)];
    cbn [fst]; repeat apply square_set_coeff; exact H.
Qed.

Lemma ucell_perm d st i l :
  Permutation (snd st) l -> Permutation (snd (ucell d st i)) l.
Proof.
  destruct st as [dl ps]. cbn [snd]. intros H. unfold ArcOperatorSet.update_cell.
  destruct (valid i d); [|exact H].
  destruct (has_edge model i d); [|destruct (has_edge model d i)];
    cbn [snd]; try exact H.
  transitivity ps; [apply Permutation_swap_to_back | exact H].
Qed.

Lemma ucell_fold_state d l st ps :
  square nodes (fst st) -> Permutation (snd st) ps ->
  square nodes (fst (fold_left (ucell d) l st))
  /\ Permutation (snd (fold_left (ucell d) l st)) ps.
Proof.
  revert st. induction l as [|x r IH]; intros st Hs Hp; cbn [fold_left]; [split; assumption|].
  apply IH; [apply ucell_square; exact Hs | apply ucell_perm; exact Hp].
Qed.

(** A step of [update_node_arcs_scores] for node [d] writes at most the cells
    (i, d) and (d, i), and only when (i, d) is valid. *)
Lemma ucell_elsewhere d st i x y :
  square nodes (fst st) -> x < nodes -> i < nodes -> d < nodes ->
  valid i d = false \/ ((i, d) <> (x, y) /\ (d, i) <> (x, y)) ->
  at_ (fst (ucell d st i)) x y = at_ (fst st) x y.
Proof.
  destruct st as [dl ps]. cbn [fst]. intros Hs Hx Hi Hd H.
  unfold ArcOperatorSet.update_cell.
  destruct (valid i d) eqn:V; [|reflexivity].
  destruct H as [H|[H1 H2]]; [discriminate|].
  destruct (has_edge model i d); [|destruct (has_edge model d i)]; cbn [fst].
  - rewrite (@coeff_set_coeff_miss nodes); auto; [|apply square_set_coeff; exact Hs].
    apply (@coeff_set_coeff_miss nodes); auto.
  - apply (@coeff_set_coeff_miss nodes); auto.
  - apply (@coeff_set_coeff_miss nodes); auto.
Qed.

Lemma ucell_fold_elsewhere d l st x y :
  square nodes (fst st) -> x < nodes -> d < nodes ->
  (forall i, In i l ->
     i < nodes /\ (valid i d = false \/ ((i, d) <> (x, y) /\ (d, i) <> (x, y)))) ->
  at_ (fst (fold_left (ucell d) l st)) x y = at_ (fst st) x y.
Proof.
  revert st. induction l as [|i r IH]; intros st Hs Hx Hd H; cbn [fold_left]; [reflexivity|].
  rewrite IH; [| apply ucell_square; exact Hs | exact Hx | exact Hd
               | intros i' Hi'; apply H; right; exact Hi'].
  destruct (H i (or_introl eq_refl)) as [Hi Hw].
  apply ucell_elsewhere; assumption.
Qed.

(** *** The last write to a cell during [cache_scores] *)

Section Target.

Variables s0 t0 : nat.

Local Abbreviation hit := (hits model s s0 t0).

Lemma cell_miss dest st source :
  square nodes (fst st) -> s0 < nodes -> source < nodes -> dest < nodes ->
  hit dest source = false ->
  at_ (fst (cell dest st source)) s0 t0 = at_ (fst st) s0 t0.
Proof.
  destruct st as [dl npd]. cbn [fst]. intros Hs H0 Hso Hd H.
  unfold hits in H. unfold ArcOperatorSet.cache_scores_cell.
  destruct (valid source dest); [|reflexivity]. cbn [andb] in H.
  destruct (has_edge model source dest); [|destruct (has_edge model dest source)];
    cbn [fst]; apply (@coeff_set_coeff_miss nodes); auto;
    intros E; injection E; intros; subst; rewrite !Nat.eqb_refl in H; discriminate.
Qed.

Lemma column_fold_miss dest l st :
  square nodes (fst st) -> s0 < nodes -> dest < nodes ->
  (forall x, In x l -> x < nodes /\ hit dest x = false) ->
  at_ (fst (fold_left (cell dest) l st)) s0 t0 = at_ (fst st) s0 t0.
Proof.
  revert st. induction l as [|x r IH]; intros st Hs H0 Hd H; cbn [fold_left]; [reflexivity|].
  rewrite IH; [| apply cell_square; exact Hs | exact H0 | exact Hd
               | intros x' Hx'; apply H; right; exact Hx'].
  destruct (H x (or_introl eq_refl)) as [Hx Hm].
  apply cell_miss; assumption.
Qed.

Lemma columns_miss l dl :
  square nodes dl -> s0 < nodes ->
  (forall d, In d l -> d < nodes /\ forall x, x < nodes -> hit d x = false) ->
  at_ (fold_left column l dl) s0 t0 = at_ dl s0 t0.
Proof.
  revert dl. induction l as [|d r IH]; intros dl Hs H0 H; cbn [fold_left]; [reflexivity|].
  rewrite IH; [| apply column_square; exact Hs | exact H0
               | intros d' Hd'; apply H; right; exact Hd'].
  destruct (H d (or_introl eq_refl)) as [Hd Hm].
  unfold ArcOperatorSet.cache_scores_column.
  apply (@column_fold_miss d (seq 0 nodes) (dl, parent_indices model d)); auto.
  intros x Hx. apply in_seq in Hx. split; [lia | apply Hm; lia].
Qed.

(** When the iteration ([kd], [ks]) is the last one that stores into the cell,
    the cell ends with what that iteration left, and the iteration ran on a
    scratch vector that is a rearrangement of the parents of [kd]. *)
Lemma last_write kd ks dl0 :
  square nodes dl0 -> s0 < nodes -> kd < nodes -> ks < nodes ->
  (forall x, ks < x < nodes -> hit kd x = false) ->
  (forall d x, kd < d < nodes -> x < nodes -> hit d x = false) ->
  exists dl npd,
    square nodes dl /\ Permutation npd (parent_indices model kd)
    /\ at_ (fold_left column (seq 0 nodes) dl0) s0 t0
       = at_ (fst (cell kd (dl, npd) ks)) s0 t0.
Proof.
  intros Hs H0 Hkd Hks Hin Hout.
  rewrite (seq_split Hkd), fold_left_app. cbn [fold_left].
  set (dl1 := fold_left column (seq 0 kd) dl0).
  assert (S1 : square nodes dl1) by (apply columns_square; exact Hs).
  rewrite columns_miss;
    [| apply column_square; exact S1 | exact H0
     | intros d Hd; apply in_seq in Hd; split; [lia | intros x Hx; apply Hout; lia]].
  unfold ArcOperatorSet.cache_scores_column at 1.
  rewrite (seq_split Hks), fold_left_app. cbn [fold_left].
  set (st1 := fold_left (cell kd) (seq 0 ks) (dl1, parent_indices model kd)).
  destruct (@column_fold_state kd (seq 0 ks) (dl1, parent_indices model kd)
              (parent_indices model kd) S1 (Permutation_refl _)) as [S2 P2].
  fold st1 in S2, P2.
  rewrite column_fold_miss;
    [| apply cell_square; exact S2 | exact H0 | exact Hkd
     | intros x Hx; apply in_seq in Hx; split; [lia | apply Hin; lia]].
  exists (fst st1), (snd st1). split; [exact S2|]. split; [exact P2|].
  destruct st1; reflexivity.
Qed.

End Target.

End ArcScoreFacts.

Ltac eqb_cases :=
  repeat match goal with
         | |- context [Nat.eqb ?a ?b] => destruct (Nat.eqb_spec a b)
         end.

Section ArcScoreValues.

Variable model : Model.
Variable cache : LocalScoreCache.t.
Variable s : ArcOperatorSet.t.

Local Abbreviation nodes := (num_nodes model).
Local Abbreviation valid := (coeff false (ArcOperatorSet.valid_op s)).
Local Abbreviation cell := (ArcOperatorSet.cache_scores_cell model cache s).
Local Abbreviation ucell := (ArcOperatorSet.update_cell model cache s).
Local Abbreviation at_ := (coeff 0%float).

Lemma swapped_parent x ps d :
  has_edge model x d = true -> Permutation ps (parent_indices model d) ->
  exists rest, but_last (swap_to_back x ps) = rest
               /\ swap_to_back x ps = rest ++ [x]
               /\ Permutation (rest ++ [x]) (parent_indices model d).
Proof.
  intros E P. apply has_edge_In in E.
  assert (Hin : In x ps) by (apply (Permutation_in x (Permutation_sym P)); exact E).
  destruct (@swap_to_back_shape x ps Hin) as (front & Hs & Hp).
  exists front. split; [rewrite Hs; apply but_last_snoc|]. split; [exact Hs|].
  transitivity ps; assumption.
Qed.

Lemma cell_removal_value dl npd s0 t0 :
  square nodes dl -> s0 < nodes -> t0 < nodes -> valid s0 t0 = true ->
  has_edge model s0 t0 = true -> Permutation npd (parent_indices model t0) ->
  removal_delta_at model cache s s0 t0 (at_ (fst (cell t0 (dl, npd) s0)) s0 t0).
Proof.
  intros Hs H0 H1 V E P. unfold ArcOperatorSet.cache_scores_cell. rewrite V, E. cbn [fst].
  rewrite (@coeff_set_coeff_same nodes) by assumption.
  destruct (@swapped_parent s0 npd t0 E P) as (rest & B & _ & Hp).
  exists rest. split; [exact Hp|]. rewrite B. reflexivity.
Qed.

Lemma cell_addition_value dl npd s0 t0 :
  square nodes dl -> s0 < nodes -> t0 < nodes -> valid s0 t0 = true ->
  has_edge model s0 t0 = false -> has_edge model t0 s0 = false ->
  Permutation npd (parent_indices model t0) ->
  addition_delta_at model cache s s0 t0 (at_ (fst (cell t0 (dl, npd) s0)) s0 t0).
Proof.
  intros Hs H0 H1 V E1 E2 P. unfold ArcOperatorSet.cache_scores_cell. rewrite V, E1, E2.
  cbn [fst]. rewrite (@coeff_set_coeff_same nodes) by assumption.
  exists npd. split; [exact P | reflexivity].
Qed.

Lemma cell_flip_value dl npd s0 t0 :
  square nodes dl -> s0 < nodes -> t0 < nodes -> valid t0 s0 = true ->
  has_edge model t0 s0 = false -> has_edge model s0 t0 = true ->
  Permutation npd (parent_indices model s0) ->
  flip_delta_at model cache s s0 t0 (at_ (fst (cell s0 (dl, npd) t0)) s0 t0).
Proof.
  intros Hs H0 H1 V E1 E2 P. unfold ArcOperatorSet.cache_scores_cell. rewrite V, E1, E2.
  cbn [fst]. rewrite (@coeff_set_coeff_same nodes) by assumption.
  destruct (@swapped_parent s0 (parent_indices model t0) t0 E2 (Permutation_refl _))
    as (rest & B & _ & Hp).
  exists rest, npd. split; [exact Hp|]. split; [exact P|]. rewrite B. reflexivity.
Qed.

Lemma ucell_refreshes dl ps d i :
  square nodes dl -> d < nodes -> i < nodes -> i <> d -> valid i d = true ->
  Permutation ps (parent_indices model d) ->
  refreshed model cache s d i (fst (ucell d (dl, ps) i)).
Proof.
  intros Hs Hd Hi Hne V P. unfold refreshed, ArcOperatorSet.update_cell. rewrite V.
  destruct (has_edge model i d) eqn:E1; [|destruct (has_edge model d i) eqn:E2]; cbn [fst].
  - assert (Hs' : forall v, square nodes (set_coeff dl i d v))
      by (intros v; apply square_set_coeff; exact Hs).
    rewrite (@coeff_set_coeff_same nodes _ d i) by auto.
    rewrite (@coeff_set_coeff_miss nodes _ i d d i)
      by (auto; intros E; injection E; intros; subst; contradiction).
    rewrite (@coeff_set_coeff_same nodes) by assumption.
    split; [|reflexivity].
    destruct (@swapped_parent i ps d E1 P) as (rest & B & _ & Hp).
    exists rest. split; [exact Hp|]. rewrite B. reflexivity.
  - rewrite (@coeff_set_coeff_same nodes) by assumption.
    destruct (@swapped_parent d (parent_indices model i) i E2 (Permutation_refl _))
      as (rest & B & _ & Hp).
    exists rest, ps. split; [exact Hp|]. split; [exact P|]. rewrite B. reflexivity.
  - rewrite (@coeff_set_coeff_same nodes) by assumption.
    exists ps. split; [exact P | reflexivity].
Qed.

(** The cells (i0, d) and (d, i0) end an [update_node_arcs_scores] of node [d]
    with what its iteration [i0] left. *)
Lemma update_node_cells d i0 dl0 :
  square nodes dl0 -> d < nodes -> i0 < nodes -> i0 <> d ->
  exists dl ps,
    square nodes dl /\ Permutation ps (parent_indices model d)
    /\ let final := fst (fold_left (ucell d) (seq 0 nodes) (dl0, parent_indices model d)) in
       at_ final i0 d = at_ (fst (ucell d (dl, ps) i0)) i0 d
       /\ at_ final d i0 = at_ (fst (ucell d (dl, ps) i0)) d i0.
Proof.
  intros Hs Hd Hi Hne.
  rewrite (seq_split Hi), fold_left_app. cbn [fold_left].
  set (st1 := fold_left (ucell d) (seq 0 i0) (dl0, parent_indices model d)).
  destruct (@ucell_fold_state model cache s d (seq 0 i0) (dl0, parent_indices model d)
              (parent_indices model d) Hs (Permutation_refl _)) as [S1 P1].
  fold st1 in S1, P1.
  exists (fst st1), (snd st1). split; [exact S1|]. split; [exact P1|].
  replace (fst st1, snd st1) with st1 by (destruct st1; reflexivity).
  cbv zeta. split.
  - apply ucell_fold_elsewhere; [apply ucell_square; exact S1 | exact Hi | exact Hd |].
    intros i Hin. apply in_seq in Hin. split; [lia|]. right.
    split; intros E; injection E; intros; subst; lia.
  - apply ucell_fold_elsewhere; [apply ucell_square; exact S1 | exact Hd | exact Hd |].
    intros i Hin. apply in_seq in Hin. split; [lia|]. right.
    split; intros E; injection E; intros; subst; lia.
Qed.

End ArcScoreValues.

(** X22: after [ArcOperatorSet::cache_scores], the cell of a valid pair without
    an arc in either direction holds the delta of adding the arc: the local
    score of the target over its parents followed by the source, minus the
    cached local score of the target. *)
Theorem arc_cache_scores_addition (model : Model) (cache : LocalScoreCache.t)
        (s : ArcOperatorSet.t) (s0 t0 : nat) :
  square (num_nodes model) (ArcOperatorSet.delta s) ->
  s0 < num_nodes model -> t0 < num_nodes model ->
  coeff false (ArcOperatorSet.valid_op s) s0 t0 = true ->
  has_edge model s0 t0 = false -> has_edge model t0 s0 = false ->
  addition_delta_at model cache s s0 t0
    (coeff 0%float (ArcOperatorSet.delta (ArcOperatorSet.cache_scores model cache s)) s0 t0).
Proof.
  intros Hs H0 H1 V E1 E2. unfold ArcOperatorSet.cache_scores. cbn [ArcOperatorSet.with_delta ArcOperatorSet.delta].
  destruct (@last_write model cache s s0 t0 t0 s0 (ArcOperatorSet.delta s) Hs H0 H1 H0)
    as (dl & npd & Sd & P & ->).
  - intros x Hx. unfold hits.
    destruct (coeff false (ArcOperatorSet.valid_op s) x t0); [|reflexivity]. cbn [andb].
    destruct (has_edge model x t0); [|destruct (has_edge model t0 x)];
      eqb_cases; subst; cbn; try reflexivity; lia.
  - intros d x Hd Hx. unfold hits.
    destruct (coeff false (ArcOperatorSet.valid_op s) x d); [|reflexivity]. cbn [andb].
    destruct (has_edge model x d) eqn:F1; [|destruct (has_edge model d x) eqn:F2];
      eqb_cases; subst; cbn; try reflexivity; try lia; congruence.
  - apply cell_addition_value; assumption.
Qed.

(** X23: after [ArcOperatorSet::cache_scores], the valid cell of an existing
    arc holds the delta of removing it (the local score of the target without
    the source, minus its cached score) when the source's index is below the
    target's, or the reverse cell is invalid, or the reverse arc exists too. *)
Theorem arc_cache_scores_removal (model : Model) (cache : LocalScoreCache.t)
        (s : ArcOperatorSet.t) (s0 t0 : nat) :
  square (num_nodes model) (ArcOperatorSet.delta s) ->
  s0 < num_nodes model -> t0 < num_nodes model ->
  coeff false (ArcOperatorSet.valid_op s) s0 t0 = true ->
  has_edge model s0 t0 = true ->
  s0 < t0 \/ coeff false (ArcOperatorSet.valid_op s) t0 s0 = false
  \/ has_edge model t0 s0 = true ->
  removal_delta_at model cache s s0 t0
    (coeff 0%float (ArcOperatorSet.delta (ArcOperatorSet.cache_scores model cache s)) s0 t0).
Proof.
  intros Hs H0 H1 V E1 G. unfold ArcOperatorSet.cache_scores. cbn [ArcOperatorSet.with_delta ArcOperatorSet.delta].
  destruct (@last_write model cache s s0 t0 t0 s0 (ArcOperatorSet.delta s) Hs H0 H1 H0)
    as (dl & npd & Sd & P & ->).
  - intros x Hx. unfold hits.
    destruct (coeff false (ArcOperatorSet.valid_op s) x t0); [|reflexivity]. cbn [andb].
    destruct (has_edge model x t0); [|destruct (has_edge model t0 x)];
      eqb_cases; subst; cbn; try reflexivity; lia.
  - intros d x Hd Hx. unfold hits.
    destruct (coeff false (ArcOperatorSet.valid_op s) x d) eqn:W; [|reflexivity]. cbn [andb].
    destruct (has_edge model x d) eqn:F1; [|destruct (has_edge model d x) eqn:F2];
      eqb_cases; subst; cbn; try reflexivity; try lia.
    destruct G as [G|[G|G]]; [lia | congruence | congruence].
  - apply cell_removal_value; assumption.
Qed.

(** X24: after [ArcOperatorSet::cache_scores], the cell of an existing arc whose
    reverse cell is valid holds the delta of flipping the arc, not of removing
    it, when the target's index is below the source's or the arc's own cell is
    invalid: the flip is stored in the cell of the arc and processed later. *)
Theorem arc_cache_scores_flip_overwrites (model : Model) (cache : LocalScoreCache.t)
        (s : ArcOperatorSet.t) (s0 t0 : nat) :
  square (num_nodes model) (ArcOperatorSet.delta s) ->
  s0 < num_nodes model -> t0 < num_nodes model ->
  coeff false (ArcOperatorSet.valid_op s) t0 s0 = true ->
  has_edge model s0 t0 = true -> has_edge model t0 s0 = false ->
  t0 < s0 \/ coeff false (ArcOperatorSet.valid_op s) s0 t0 = false ->
  flip_delta_at model cache s s0 t0
    (coeff 0%float (ArcOperatorSet.delta (ArcOperatorSet.cache_scores model cache s)) s0 t0).
Proof.
  intros Hs H0 H1 V E1 E2 G. unfold ArcOperatorSet.cache_scores. cbn [ArcOperatorSet.with_delta ArcOperatorSet.delta].
  destruct (@last_write model cache s s0 t0 s0 t0 (ArcOperatorSet.delta s) Hs H0 H0 H1)
    as (dl & npd & Sd & P & ->).
  - intros x Hx. unfold hits.
    destruct (coeff false (ArcOperatorSet.valid_op s) x s0); [|reflexivity]. cbn [andb].
    destruct (has_edge model x s0); [|destruct (has_edge model s0 x)];
      eqb_cases; subst; cbn; try reflexivity; lia.
  - intros d x Hd Hx. unfold hits.
    destruct (coeff false (ArcOperatorSet.valid_op s) x d) eqn:W; [|reflexivity]. cbn [andb].
    destruct (has_edge model x d) eqn:F1; [|destruct (has_edge model d x) eqn:F2];
      eqb_cases; subst; cbn; try reflexivity; try lia;
      (destruct G as [G|G]; [lia | congruence]).
  - apply cell_flip_value; assumption.
Qed.

(** X25: [update_node_arcs_scores] of node d recomputes, for every other node i
    whose cell (i, d) is valid: for an arc i -> d the removal delta in (i, d)
    and the flip delta, derived from it, in the reverse cell (d, i); for an
    arc d -> i the flip delta in (d, i); without an arc the addition delta in
    (i, d). *)
Theorem arc_update_node_refreshes (model : Model) (cache : LocalScoreCache.t)
        (s : ArcOperatorSet.t) (dest_node : string) (i : nat) :
  square (num_nodes model) (ArcOperatorSet.delta s) ->
  index model dest_node < num_nodes model -> i < num_nodes model ->
  i <> index model dest_node ->
  coeff false (ArcOperatorSet.valid_op s) i (index model dest_node) = true ->
  refreshed model cache s (index model dest_node) i
    (ArcOperatorSet.delta (ArcOperatorSet.update_node_arcs_scores model cache dest_node s)).
Proof.
  intros Hs Hd Hi Hne V.
  unfold ArcOperatorSet.update_node_arcs_scores.
  cbn [ArcOperatorSet.with_delta ArcOperatorSet.delta].
  destruct (@update_node_cells model cache s (index model dest_node) i
              (ArcOperatorSet.delta s) Hs Hd Hi Hne) as (dl & ps & Sd & P & A & B).
  cbv zeta in A, B.
  pose proof (@ucell_refreshes model cache s dl ps (index model dest_node) i Sd Hd Hi Hne V P) as R.
  unfold refreshed in *.
  destruct (has_edge model i (index model dest_node));
    [|destruct (has_edge model (index model dest_node) i)].
  - rewrite A, B. exact R.
  - rewrite B. exact R.
  - rewrite A. exact R.
Qed.

Lemma update_node_square model cache dest_node s :
  square (num_nodes model) (ArcOperatorSet.delta s) ->
  square (num_nodes model)
         (ArcOperatorSet.delta (ArcOperatorSet.update_node_arcs_scores model cache dest_node s)).
Proof.
  intros H. unfold ArcOperatorSet.update_node_arcs_scores.
  cbn [ArcOperatorSet.with_delta ArcOperatorSet.delta].
  apply (@ucell_fold_state model cache s (index model dest_node) (seq 0 (num_nodes model))
           (ArcOperatorSet.delta s, parent_indices model (index model dest_node))
           (parent_indices model (index model dest_node))); [exact H | reflexivity].
Qed.

Lemma update_node_elsewhere model cache dest_node s x y :
  square (num_nodes model) (ArcOperatorSet.delta s) ->
  x < num_nodes model -> index model dest_node < num_nodes model ->
  (forall i, coeff false (ArcOperatorSet.valid_op s) i (index model dest_node) = true ->
             (i, index model dest_node) <> (x, y) /\ (index model dest_node, i) <> (x, y)) ->
  coeff 0%float
        (ArcOperatorSet.delta (ArcOperatorSet.update_node_arcs_scores model cache dest_node s)) x y
  = coeff 0%float (ArcOperatorSet.delta s) x y.
Proof.
  intros Hs Hx Hd H. unfold ArcOperatorSet.update_node_arcs_scores.
  cbn [ArcOperatorSet.with_delta ArcOperatorSet.delta].
  apply (@ucell_fold_elsewhere model cache s (index model dest_node) (seq 0 (num_nodes model))
           (ArcOperatorSet.delta s, parent_indices model (index model dest_node)) x y);
    [exact Hs | exact Hx | exact Hd |].
  intros i Hi. apply in_seq in Hi. split; [lia|].
  destruct (coeff false (ArcOperatorSet.valid_op s) i (index model dest_node)) eqn:V;
    [right; apply H; exact V | left; reflexivity].
Qed.

Lemma update_scores_elsewhere model cache op s x y :
  square (num_nodes model) (ArcOperatorSet.delta s) ->
  x < num_nodes model ->
  (forall d, In d (touched_nodes model op) ->
     d < num_nodes model
     /\ forall i, coeff false (ArcOperatorSet.valid_op s) i d = true ->
                  (i, d) <> (x, y) /\ (d, i) <> (x, y)) ->
  coeff 0%float (ArcOperatorSet.delta (ArcOperatorSet.update_scores model cache op s)) x y
  = coeff 0%float (ArcOperatorSet.delta s) x y.
Proof.
  intros Hs Hx H.
  destruct op as [so ta dv|so ta dv|so ta dv|nd ty dv];
    cbn [ArcOperatorSet.update_scores touched_nodes] in *.
  - destruct (H _ (or_introl eq_refl)) as [Hd Hw]. apply update_node_elsewhere; assumption.
  - destruct (H _ (or_introl eq_refl)) as [Hd Hw]. apply update_node_elsewhere; assumption.
  - destruct (H _ (or_introl eq_refl)) as [Hd Hw].
    destruct (H _ (or_intror (or_introl eq_refl))) as [Hd' Hw'].
    rewrite update_node_elsewhere;
      [apply update_node_elsewhere; assumption
      | apply update_node_square; exact Hs | exact Hx | exact Hd' | exact Hw'].
  - destruct (H _ (or_introl eq_refl)) as [Hd Hw]. apply update_node_elsewhere; assumption.
Qed.

(** X26: neither [cache_scores] nor [update_scores] of the arc set writes a cell
    that is invalid in both directions: what the constructor stored there,
    [lowest()] for a listed pair and for the diagonal, stays. *)
Theorem arc_scores_leave_pinned_cells (model : Model) (cache : LocalScoreCache.t)
        (s : ArcOperatorSet.t) (op : Operator) (x y : nat) :
  square (num_nodes model) (ArcOperatorSet.delta s) ->
  x < num_nodes model -> y < num_nodes model ->
  coeff false (ArcOperatorSet.valid_op s) x y = false ->
  coeff false (ArcOperatorSet.valid_op s) y x = false ->
  (forall d, In d (touched_nodes model op) -> d < num_nodes model) ->
  coeff 0%float (ArcOperatorSet.delta (ArcOperatorSet.cache_scores model cache s)) x y
  = coeff 0%float (ArcOperatorSet.delta s) x y
  /\ coeff 0%float (ArcOperatorSet.delta (ArcOperatorSet.update_scores model cache op s)) x y
     = coeff 0%float (ArcOperatorSet.delta s) x y.
Proof.
  intros Hs Hx Hy V1 V2 Ht. split.
  - unfold ArcOperatorSet.cache_scores. cbn [ArcOperatorSet.with_delta ArcOperatorSet.delta].
    apply (@columns_miss model cache s x y); [exact Hs | exact Hx |].
    intros d Hd. apply in_seq in Hd. split; [lia|]. intros i Hi. unfold hits.
    destruct (coeff false (ArcOperatorSet.valid_op s) i d) eqn:V; [|reflexivity]. cbn [andb].
    destruct (has_edge model i d); [|destruct (has_edge model d i)];
      eqb_cases; subst; cbn; try reflexivity; congruence.
  - apply update_scores_elsewhere; [exact Hs | exact Hx |].
    intros d Hd. split; [apply Ht; exact Hd|].
    intros i V. split; intros E; injection E; intros; subst; congruence.
Qed.

(** X27: [ArcOperatorSet::update_scores] writes only cells in the row or the
    column of a node the operator touches; every other delta, [valid_op] and
    [sorted_idx] are kept. *)
Theorem arc_update_scores_frame (model : Model) (cache : LocalScoreCache.t)
        (s : ArcOperatorSet.t) (op : Operator) (x y : nat) :
  square (num_nodes model) (ArcOperatorSet.delta s) ->
  x < num_nodes model ->
  (forall d, In d (touched_nodes model op) -> d < num_nodes model) ->
  ~ In x (touched_nodes model op) -> ~ In y (touched_nodes model op) ->
  coeff 0%float (ArcOperatorSet.delta (ArcOperatorSet.update_scores model cache op s)) x y
  = coeff 0%float (ArcOperatorSet.delta s) x y
  /\ ArcOperatorSet.valid_op (ArcOperatorSet.update_scores model cache op s)
     = ArcOperatorSet.valid_op s
  /\ ArcOperatorSet.sorted_idx (ArcOperatorSet.update_scores model cache op s)
     = ArcOperatorSet.sorted_idx s.
Proof.
  intros Hs Hx Ht Nx Ny. split; [|split; destruct op; reflexivity].
  apply update_scores_elsewhere; [exact Hs | exact Hx |].
  intros d Hd. split; [apply Ht; exact Hd|].
  intros i _. split; intros E; injection E; intros; subst; contradiction.
Qed.

(** X26 at the diagonal cell (A, A) of the two-node network. *)
Lemma arc_scores_leave_pinned_cells_example :
  let s := Example.arc_set Example.empty_model Example.count_score 0 in
  coeff 0%float (ArcOperatorSet.delta
                   (ArcOperatorSet.cache_scores Example.empty_model Restricted.cache s)) 0 0
  = coeff 0%float (ArcOperatorSet.delta s) 0 0
  /\ coeff 0%float (ArcOperatorSet.delta
                      (ArcOperatorSet.update_scores Example.empty_model Restricted.cache
                                                    (AddArc "A" "B" 1%float) s)) 0 0
     = coeff 0%float (ArcOperatorSet.delta s) 0 0.
Proof.
  apply (@arc_scores_leave_pinned_cells Example.empty_model Restricted.cache
           (Example.arc_set Example.empty_model Example.count_score 0)
           (AddArc "A" "B" 1%float) 0 0);
    [split; reflexivity | cbn; lia | cbn; lia | reflexivity | reflexivity
    | intros d [<-|[]]; cbn; lia].
Defined.

(** X27 at the cell (A, A), after adding A -> B. *)
Lemma arc_update_scores_frame_example :
  let s := Example.arc_set Example.empty_model Example.count_score 0 in
  let s' := ArcOperatorSet.update_scores Example.empty_model Restricted.cache
                                         (AddArc "A" "B" 1%float) s in
  coeff 0%float (ArcOperatorSet.delta s') 0 0 = coeff 0%float (ArcOperatorSet.delta s) 0 0
  /\ ArcOperatorSet.valid_op s' = ArcOperatorSet.valid_op s
  /\ ArcOperatorSet.sorted_idx s' = ArcOperatorSet.sorted_idx s.
Proof.
  apply (@arc_update_scores_frame Example.empty_model Restricted.cache
           (Example.arc_set Example.empty_model Example.count_score 0)
           (AddArc "A" "B" 1%float) 0 0);
    [split; reflexivity | cbn; lia | intros d [<-|[]]; cbn; lia
    | intros [E|[]]; discriminate E | intros [E|[]]; discriminate E].
Defined.

(** X22 at the cell (A, B) of the two-node network without arcs. *)
Lemma arc_cache_scores_addition_example :
  let s := Example.arc_set Example.empty_model Example.count_score 0 in
  addition_delta_at Example.empty_model Restricted.cache s 0 1
    (coeff 0%float (ArcOperatorSet.delta
                      (ArcOperatorSet.cache_scores Example.empty_model Restricted.cache s)) 0 1).
Proof.
  apply (@arc_cache_scores_addition Example.empty_model Restricted.cache
           (Example.arc_set Example.empty_model Example.count_score 0) 0 1);
    [split; reflexivity | cbn; lia | cbn; lia | reflexivity | reflexivity | reflexivity].
Defined.

(** X23 at the arc B -> A, the cell (A, B) invalid. *)
Lemma arc_cache_scores_removal_example :
  removal_delta_at Example.arc_model Restricted.cache Restricted.arc_set 1 0
    (coeff 0%float (ArcOperatorSet.delta
                      (ArcOperatorSet.cache_scores Example.arc_model Restricted.cache
                                                   Restricted.arc_set)) 1 0).
Proof.
  apply (@arc_cache_scores_removal Example.arc_model Restricted.cache Restricted.arc_set 1 0);
    [split; reflexivity | cbn; lia | cbn; lia | reflexivity | reflexivity
    | right; left; reflexivity].
Defined.

(** X24 at the arc B -> A, both cells valid. *)
Lemma arc_cache_scores_flip_overwrites_example :
  let s := Example.arc_set Example.arc_model Example.count_score 0 in
  flip_delta_at Example.arc_model Restricted.cache s 1 0
    (coeff 0%float (ArcOperatorSet.delta
                      (ArcOperatorSet.cache_scores Example.arc_model Restricted.cache s)) 1 0).
Proof.
  apply (@arc_cache_scores_flip_overwrites Example.arc_model Restricted.cache
           (Example.arc_set Example.arc_model Example.count_score 0) 1 0);
    [split; reflexivity | cbn; lia | cbn; lia | reflexivity | reflexivity | reflexivity
    | left; lia].
Defined.

(** X25 at the arc B -> A, updating node A. *)
Lemma arc_update_node_refreshes_example :
  let s := Example.arc_set Example.arc_model Example.count_score 0 in
  refreshed Example.arc_model Restricted.cache s 0 1
    (ArcOperatorSet.delta
       (ArcOperatorSet.update_node_arcs_scores Example.arc_model Restricted.cache "A" s)).
Proof.
  apply (@arc_update_node_refreshes Example.arc_model Restricted.cache
           (Example.arc_set Example.arc_model Example.count_score 0) "A" 1);
    [split; reflexivity | cbn; lia | cbn; lia | cbn; lia | reflexivity].
Defined.
